(** * Activation patching, lens decoding and lens calibration

    A shallow embedding of [graphcot/interp_utils.py]: the activation
    patching engine ([logits_to_logit_diff], [activation_patching]), the
    activation aggregator ([aggregate_activations]), the lens decoder
    ([logit_lens], [logit_lens_correct_probs]) and the lens calibrator
    ([calculate_tuned_lens]).

    Tensors are nested lists over an abstract scalar type, so every result
    holds for whatever arithmetic the tensors carry.  Python exceptions
    (IndexError, KeyError, ValueError, RuntimeError) are [None] in the
    option monad.  Integers that Python uses as indices are [Z], with the
    wrap-around of negative indices written out. *)

From stdpp Require Import gmap strings list fin_maps pretty.
From Stdlib Require Import ZArith QArith Lia Ascii.

Local Open Scope Z_scope.
Set Warnings "-abstract-large-number".

(* ===================================================================== *)
(** * Part I. Definitions                                                *)
(* ===================================================================== *)

(** ** Scalars and tensors *)

(** The arithmetic the code performs on tensor entries. *)
Class Scalar (R : Type) := {
  s_zero : R;
  s_one : R;
  s_add : R → R → R;
  s_sub : R → R → R;
  s_mul : R → R → R;
  s_div : R → R → R;
  s_is_zero : R → bool   (* [x == 0] *)
}.

Abbreviation Tensor1 R := (list R).
Abbreviation Tensor2 R := (list (list R)).
Abbreviation Tensor3 R := (list (list (list R))).

(** ** Python indexing *)

(** [l[i]]: a negative index counts from the end, an index out of range
    raises IndexError. *)
Definition py_index {A} (l : list A) (i : Z) : option A :=
  let n := Z.of_nat (length l) in
  if decide (0 ≤ i < n) then l !! Z.to_nat i
  else if decide (- n ≤ i < 0) then l !! Z.to_nat (i + n)
  else None.

(** The bound of a slice, clamped into [0 .. length]. *)
Definition py_slice_bound (len : nat) (i : Z) : nat :=
  let n := Z.of_nat len in
  if decide (i < 0) then Z.to_nat (Z.max 0 (i + n)) else Z.to_nat (Z.min i n).

(** [l[start:stop]]: never raises, bounds are clamped. *)
Definition py_slice {A} (l : list A) (start stop : Z) : list A :=
  let a := py_slice_bound (length l) start in
  let b := py_slice_bound (length l) stop in
  take (b - a)%nat (drop a l).

(** [range(n)]. *)
Definition range (n : nat) : list nat := seq 0 n.

(** A loop whose body may raise: the accumulator is threaded through. *)
Fixpoint foldM {A B} (f : B → A → option B) (l : list A) (b : B) : option B :=
  match l with
  | [] => Some b
  | x :: l' => b' ← f b x; foldM f l' b'
  end.

(** ** The dataset and the model, as the code consumes them *)

(** [dataset.idx2tokens[...]], [dataset.tokens2idx[...]] (a failed lookup
    raises), [dataset.start_token], [dataset.n_states],
    [dataset.tokenize]. *)
Record Dataset (Graph : Type) := {
  idx2tokens : Z → option string;
  tokens2idx : string → option Z;
  start_token : Z;
  n_states : Z;
  tokenize : Graph → list Z
}.
Arguments idx2tokens {Graph} _ _.
Arguments tokens2idx {Graph} _ _.
Arguments start_token {Graph} _.
Arguments n_states {Graph} _.
Arguments tokenize {Graph} _ _.

(** [tl_util.get_act_name(name, layer, layer_type)]. *)
Definition get_act_name (name : string) (layer : nat) (layer_type : option string) : string :=
  match layer_type with
  | Some lt => "blocks." +:+ pretty layer +:+ "." +:+ lt +:+ ".hook_" +:+ name
  | None => "blocks." +:+ pretty layer +:+ ".hook_" +:+ name
  end.
Arguments get_act_name : simpl never.

(** A forward hook: called with the live activation and the name of the
    hook point, returns the activation the pass continues with. *)
Abbreviation Hook R := (Tensor3 R → string → option (Tensor3 R)).

(** The hooked transformer, as far as the patching engine sees it: the
    residual stream enters layer [l] at the hook point
    [blocks.l.hook_resid_pre]; [embed] builds the first residual stream
    from the tokens (adding the batch dimension), [block l] is layer [l],
    [unembed] is the final normalisation and unembedding.  A hook bound
    to a name that is no [resid_pre] point of the model never runs.
    [W_U] is the unembedding matrix the lens decoder reads. *)
Record HookedTransformer (R : Type) := {
  n_layers : nat;
  embed : list Z → Tensor3 R;
  block : nat → Tensor3 R → Tensor3 R;
  unembed : Tensor3 R → Tensor3 R;
  W_U : Tensor2 R
}.
Arguments n_layers {R} _.
Arguments embed {R} _ _.
Arguments block {R} _ _ _.
Arguments unembed {R} _ _.
Arguments W_U {R} _.

Section Forward.
Context {R : Type}.
Implicit Types (model : HookedTransformer R) (resid : Tensor3 R).

(** The hooks registered for the hook point [name] run in order. *)
Fixpoint apply_hooks (fwd_hooks : list (string * Hook R)) (name : string) resid
  : option (Tensor3 R) :=
  match fwd_hooks with
  | [] => Some resid
  | (n, fn) :: rest =>
      if decide (n = name)
      then resid' ← fn resid name; apply_hooks rest name resid'
      else apply_hooks rest name resid
  end.

(** The layers [layers], one after the other, each preceded by the hooks
    of its [resid_pre] point. *)
Fixpoint run_layers model (fwd_hooks : list (string * Hook R)) (layers : list nat) resid
  : option (Tensor3 R) :=
  match layers with
  | [] => Some resid
  | l :: rest =>
      resid_pre ← apply_hooks fwd_hooks (get_act_name "resid_pre" l None) resid;
      run_layers model fwd_hooks rest (block model l resid_pre)
  end.

(** [model.run_with_hooks(tokens, fwd_hooks=...)]. *)
Definition run_with_hooks model (tokens : list Z) (fwd_hooks : list (string * Hook R))
  : option (Tensor3 R) :=
  resid ← run_layers model fwd_hooks (range (n_layers model)) (embed model tokens);
  Some (unembed model resid).

(** The residual stream after the layers [layers], no hook attached. *)
Fixpoint plain_layers model (layers : list nat) resid : Tensor3 R :=
  match layers with
  | [] => resid
  | l :: rest => plain_layers model rest (block model l resid)
  end.

(** [model(tokens)]. *)
Definition forward model (tokens : list Z) : Tensor3 R :=
  unembed model (plain_layers model (range (n_layers model)) (embed model tokens)).

(** The activation entering layer [l] in a plain pass over [tokens]. *)
Definition resid_pre_at model (tokens : list Z) (l : nat) : Tensor3 R :=
  plain_layers model (range l) (embed model tokens).

(** The cache of a plain pass: every [resid_pre] point with its
    activation. *)
Fixpoint cache_layers model (layers : list nat) resid (cache : gmap string (Tensor3 R))
  : gmap string (Tensor3 R) :=
  match layers with
  | [] => cache
  | l :: rest =>
      cache_layers model rest (block model l resid)
        (<[get_act_name "resid_pre" l None := resid]> cache)
  end.

(** [model.run_with_cache(tokens)]. *)
Definition run_with_cache model (tokens : list Z) : Tensor3 R * gmap string (Tensor3 R) :=
  (forward model tokens,
   cache_layers model (range (n_layers model)) (embed model tokens) ∅).

End Forward.

(** ** The patching engine *)

Section Patching.
Context {R : Type} `{Scalar R} {Graph : Type}.

(** [logits_to_logit_diff]. *)
Definition logits_to_logit_diff (clean_tokens corrupted_tokens : list Z)
    (logits : Tensor3 R) (comparison_index : Z) : option R :=
  correct_index ← py_index clean_tokens comparison_index;
  incorrect_index ← py_index corrupted_tokens comparison_index;
  batch0 ← py_index logits 0;
  row ← py_index batch0 (comparison_index - 1);
  a ← py_index row correct_index;
  b ← py_index row incorrect_index;
  Some (s_sub a b).

(** [live[:, position, :] = clean[:, position, :]]: in every batch entry
    the vector at [position] is overwritten.  Both tensors come from the
    same model at batch size one; shapes that differ (which torch would
    try to broadcast) and a position out of range are failures. *)
Definition assign_position (live clean : Tensor3 R) (position : nat) : option (Tensor3 R) :=
  if decide (length live = length clean) then
    mapM (λ lc : Tensor2 R * Tensor2 R,
            old ← lc.1 !! position;
            new ← lc.2 !! position;
            if decide (length old = length new)
            then Some (<[position := new]> lc.1) else None)
         (zip live clean)
  else None.

(** [residual_stream_patching_hook], a closure over [clean_cache]. *)
Definition residual_stream_patching_hook (clean_cache : gmap string (Tensor3 R))
    (resid_pre : Tensor3 R) (hook_name : string) (position : nat) : option (Tensor3 R) :=
  clean_resid_pre ← clean_cache !! hook_name;
  assign_position resid_pre clean_resid_pre position.

(** [patching_result[layer, position] = v]. *)
Definition set_cell (grid : Tensor2 R) (layer position : nat) (v : R) : option (Tensor2 R) :=
  row ← grid !! layer;
  if decide (position < length row)%nat
  then Some (<[layer := <[position := v]> row]> grid) else None.

(** The logits of the pass over the corrupted prompt with the single
    patching hook of cell [(layer, position)]. *)
Definition patched_logits (model : HookedTransformer R)
    (clean_cache : gmap string (Tensor3 R)) (corrupted_tokens : list Z)
    (layer position : nat) : option (Tensor3 R) :=
  let temp_hook_fn : Hook R :=
    λ resid_pre name, residual_stream_patching_hook clean_cache resid_pre name position in
  run_with_hooks model corrupted_tokens
    [(get_act_name "resid_pre" layer None, temp_hook_fn)].

(** The score stored for a cell. *)
Definition normalized_score (clean_logit_diff corrupted_logit_diff patched_logit_diff : R) : R :=
  let normalize_ratio := s_sub clean_logit_diff corrupted_logit_diff in
  let normalize_ratio := if s_is_zero normalize_ratio then s_one else normalize_ratio in
  s_div (s_sub patched_logit_diff corrupted_logit_diff) normalize_ratio.

(** The logit difference after the patched pass of a cell. *)
Definition patched_logit_diff (model : HookedTransformer R)
    (clean_cache : gmap string (Tensor3 R)) (clean_tokens corrupted_tokens : list Z)
    (comparison_index : Z) (layer position : nat) : option R :=
  logits ← patched_logits model clean_cache corrupted_tokens layer position;
  logits_to_logit_diff clean_tokens corrupted_tokens logits comparison_index.

(** The body of the inner loop. *)
Definition patching_step (model : HookedTransformer R)
    (clean_cache : gmap string (Tensor3 R)) (clean_tokens corrupted_tokens : list Z)
    (comparison_index : Z) (clean_logit_diff corrupted_logit_diff : R)
    (layer : nat) (patching_result : Tensor2 R) (position : nat) : option (Tensor2 R) :=
  patched ← patched_logit_diff model clean_cache clean_tokens corrupted_tokens
               comparison_index layer position;
  set_cell patching_result layer position
    (normalized_score clean_logit_diff corrupted_logit_diff patched).

(** [activation_patching].  The two lookups after the baselines are
    those of the [print] calls, which raise like any other lookup; the
    grid of zeros is updated in place cell by cell. *)
Definition activation_patching (model : HookedTransformer R) (dataset : Dataset Graph)
    (clean_tokens corrupted_tokens : list Z) (comparison_index : Z) : option (Tensor2 R) :=
  let '(clean_logits, clean_cache) := run_with_cache model clean_tokens in
  clean_logit_diff ←
    logits_to_logit_diff clean_tokens corrupted_tokens clean_logits comparison_index;
  let corrupted_logits := forward model corrupted_tokens in
  corrupted_logit_diff ←
    logits_to_logit_diff clean_tokens corrupted_tokens corrupted_logits comparison_index;
  _ ← py_index clean_tokens comparison_index ≫= idx2tokens dataset;
  _ ← py_index corrupted_tokens comparison_index ≫= idx2tokens dataset;
  let num_positions := length clean_tokens in
  let patching_result := replicate (n_layers model) (replicate num_positions s_zero) in
  foldM (λ result layer,
           foldM (patching_step model clean_cache clean_tokens corrupted_tokens
                    comparison_index clean_logit_diff corrupted_logit_diff layer)
                 (range num_positions) result)
        (range (n_layers model)) patching_result.

End Patching.

(** ** numpy and torch operations *)

(** [np.where(tokens == tok)[0].item()]: the position of the only
    occurrence of [tok]; [item()] raises unless there is exactly one. *)
Definition np_where_item (tokens : list Z) (tok : Z) : option Z :=
  match filter (λ i, tokens !! i = Some tok) (seq 0 (length tokens)) with
  | [i] => Some (Z.of_nat i)
  | _ => None
  end.

(** [torch.cat(l, dim=0)] and [np.concatenate(l, axis=0)]: an empty list
    of tensors raises. *)
Definition cat {A} (l : list (list A)) : option (list A) :=
  match l with
  | [] => None
  | _ => Some (concat l)
  end.

(** [W.T] on a matrix given by its rows. *)
Definition transpose {A} (W : list (list A)) : list (list A) :=
  match W with
  | [] => []
  | row :: _ => (λ j, omap (λ r : list A, r !! j) W) <$> seq 0 (length row)
  end.

Section Linear.
Context {R : Type} `{Scalar R}.

Definition dot (x y : Tensor1 R) : R :=
  foldr (λ xy acc, s_add (s_mul xy.1 xy.2) acc) s_zero (zip x y).

(** [A @ B] for matrices; the inner dimensions must agree. *)
Definition matmul (A B : Tensor2 R) : option (Tensor2 R) :=
  if decide (Forall (λ row, length row = length B) A)
  then Some ((λ row, dot row <$> transpose B) <$> A)
  else None.

End Linear.

(** ** The activation aggregator *)

(** [np.iinfo(32).max]: the largest value of the platform integer. *)
Definition np_iinfo_max : Z := 9223372036854775807.

(** What the sampling loop changes outside its results: the state of
    numpy's global generator, and, as a record of the calls made, every
    instance [generate_example] has produced (oldest first). *)
Record AggWorld (RngState Graph : Type) := {
  rng : RngState;
  attempts : list Graph
}.
Arguments rng {RngState Graph} _.
Arguments attempts {RngState Graph} _.

Section Aggregation.
Context {R Graph RngState : Type}.
(** [np.random.randint(low, high)] on the global generator. *)
Variable randint : Z → Z → RngState → Z * RngState.
(** [generate_example(n_states, seed, path_length, order)]. *)
Variable generate_example : Z → Z → option Z → string → Graph.
(** [is_model_correct(model, dataset, graph)]. *)
Variable is_model_correct : HookedTransformer R → Dataset Graph → Graph → bool.
(** [get_example_cache(graph, model, dataset)]: labels and cache. *)
Variable get_example_cache :
  Graph → HookedTransformer R → Dataset Graph → list string * gmap string (Tensor3 R).

(** [for key in activation_keys: agg_cache[key].append(cache[key].cpu())]. *)
Definition record_activations (cache : gmap string (Tensor3 R))
    (activation_keys : list string) (agg_cache : gmap string (list (Tensor3 R)))
  : option (gmap string (list (Tensor3 R))) :=
  foldM (λ agg key,
           act ← cache !! key;
           acc ← agg !! key;
           Some (<[key := acc ++ [act]]> agg))
        activation_keys agg_cache.

(** One turn of the sampling loop. *)
Definition aggregate_step (model : HookedTransformer R) (dataset : Dataset Graph)
    (activation_keys : list string) (path_length : option Z) (order : string)
    (st : gmap string (list (Tensor3 R)) * list Graph * AggWorld RngState Graph)
  : option (gmap string (list (Tensor3 R)) * list Graph * AggWorld RngState Graph) :=
  let '(agg_cache, graphs, w) := st in
  let '(seed, rng') := randint 1000000 np_iinfo_max (rng w) in
  let test_graph := generate_example (n_states dataset) seed path_length order in
  let w' := {| rng := rng'; attempts := attempts w ++ [test_graph] |} in
  let correct := is_model_correct model dataset test_graph in
  if negb correct then Some (agg_cache, graphs, w')
  else
    let '(labels, cache) := get_example_cache test_graph model dataset in
    agg_cache' ← record_activations cache activation_keys agg_cache;
    Some (agg_cache', graphs ++ [test_graph], w').

(** [aggregate_activations]; [n_samples] is a count, [range(n_samples)]
    has that many turns. *)
Definition aggregate_activations (model : HookedTransformer R) (dataset : Dataset Graph)
    (activation_keys : list string) (n_samples : nat) (path_length : option Z)
    (order : string) (w : AggWorld RngState Graph)
  : option (gmap string (list (Tensor3 R)) * list Graph * AggWorld RngState Graph) :=
  let agg_cache : gmap string (list (Tensor3 R)) :=
    list_to_map ((λ ak, (ak, [])) <$> activation_keys) in
  foldM (λ st _, aggregate_step model dataset activation_keys path_length order st)
        (range n_samples) (agg_cache, [], w).

End Aggregation.

(** ** The lens decoder *)

(** The probe point the decoder reads for [layer] of [1 .. n_layers]. *)
Definition lens_act_name (n_layers : nat) (layer : nat) : string :=
  if decide (layer < n_layers)%nat
  then get_act_name "normalized" layer (Some "ln1")
  else "ln_final.hook_normalized".

(** The decoder works on the cache object that [get_example_cache]
    handed over.  Python passes it by reference, so a decoding step is a
    function from the cache before the step to its outcome and the cache
    after it; an exception leaves the cache as it is at that moment. *)
Definition LensM (R A : Type) : Type :=
  gmap string (Tensor3 R) → option A * gmap string (Tensor3 R).

Definition lens_ret {R A} (a : A) : LensM R A := λ cache, (Some a, cache).

Definition lens_bind {R A B} (m : LensM R A) (f : A → LensM R B) : LensM R B :=
  λ cache,
    match m cache with
    | (Some a, cache') => f a cache'
    | (None, cache') => (None, cache')
    end.

(** A computation that touches no cache, raising when it is [None]. *)
Definition lens_lift {R A} (o : option A) : LensM R A := λ cache, (o, cache).

(** [cache[act_name]]. *)
Definition cache_get {R} (act_name : string) : LensM R (Tensor3 R) :=
  λ cache, (cache !! act_name, cache).

Notation "x ←ₗ m ; f" := (lens_bind m (λ x, f))
  (at level 20, m at level 100, f at level 200, right associativity,
   format "x  ←ₗ  m ;  '/' f").

(** A loop over [l] collecting one result per turn. *)
Fixpoint lens_for {R A B} (l : list A) (body : A → LensM R B) : LensM R (list B) :=
  match l with
  | [] => lens_ret []
  | x :: l' => y ←ₗ body x; ys ←ₗ lens_for l' body; lens_ret (y :: ys)
  end.

Section Lens.
Context {R : Type} `{Scalar R} {Graph : Type}.
(** [t.argmax(-1)] and [t.softmax(-1)] on one row. *)
Variable argmax : Tensor1 R → Z.
Variable softmax : Tensor1 R → Tensor1 R.
(** [num_last(labels, char)]. *)
Variable num_last : list string → string → Z.
Variable get_example_cache :
  Graph → HookedTransformer R → Dataset Graph → list string * gmap string (Tensor3 R).

(** [res_stream @ lenses[act_name]] or [res_stream @ model.W_U]. *)
Definition lens_project (model : HookedTransformer R)
    (lenses : option (gmap string (Tensor2 R))) (act_name : string)
    (res_stream : Tensor2 R) : option (Tensor2 R) :=
  match lenses with
  | Some ls => lens ← ls !! act_name; matmul res_stream lens
  | None => matmul res_stream (W_U model)
  end.

(** The body of the loop of [logit_lens]: one row of the table. *)
Definition logit_lens_layer (model : HookedTransformer R) (dataset : Dataset Graph)
    (lenses : option (gmap string (Tensor2 R))) (end_ : Z) (layer : nat)
  : LensM R (list string) :=
  let act_name := lens_act_name (n_layers model) layer in
  act ←ₗ cache_get act_name;
  res_stream ←ₗ lens_lift (py_index act 0);
  out_proj ←ₗ lens_lift (lens_project model lenses act_name res_stream);
  let out_proj := argmax <$> out_proj in
  lens_out ←ₗ lens_lift (mapM (idx2tokens dataset) out_proj);
  lens_ret (("Layer " +:+ pretty layer +:+ " LL") :: py_slice lens_out 47 end_).

(** [logit_lens] once labels and cache are there: header and cells of
    the table it shows. *)
Definition logit_lens_table (model : HookedTransformer R) (dataset : Dataset Graph)
    (lenses : option (gmap string (Tensor2 R))) (labels : list string)
  : LensM R (list string * list (list string)) :=
  let end_ := num_last labels "," in
  outs ←ₗ lens_for (seq 1 (n_layers model)) (logit_lens_layer model dataset lenses end_);
  lens_ret ("Current Input" :: py_slice labels 47 end_, transpose outs).

(** [logit_lens]. *)
Definition logit_lens (pred : Graph) (model : HookedTransformer R) (dataset : Dataset Graph)
    (lenses : option (gmap string (Tensor2 R)))
  : option (list string * list (list string)) * gmap string (Tensor3 R) :=
  let '(labels, cache) := get_example_cache pred model dataset in
  logit_lens_table model dataset lenses labels cache.

(** The body of the loop of [logit_lens_correct_probs]. *)
Definition correct_prob_layer (model : HookedTransformer R)
    (lenses : option (gmap string (Tensor2 R))) (position correct_token_idx : Z)
    (layer : nat) : LensM R R :=
  let act_name := lens_act_name (n_layers model) layer in
  act ←ₗ cache_get act_name;
  res_stream ←ₗ lens_lift (py_index act 0);
  out_proj ←ₗ lens_lift (lens_project model lenses act_name res_stream);
  let out_proj := softmax <$> out_proj in
  lens_lift (py_index out_proj position ≫= λ row, py_index row correct_token_idx).

(** [logit_lens_correct_probs] once labels and cache are there. *)
Definition correct_probs (model : HookedTransformer R) (dataset : Dataset Graph)
    (lenses : option (gmap string (Tensor2 R))) (labels : list string) (position : Z)
  : LensM R (list R) :=
  correct_token ←ₗ lens_lift (py_index labels (position + 1));
  correct_token_idx ←ₗ lens_lift (tokens2idx dataset correct_token);
  probs ←ₗ lens_for (seq 1 (n_layers model))
             (correct_prob_layer model lenses position correct_token_idx);
  _ ←ₗ lens_lift (py_index labels position);
  lens_ret probs.

(** [logit_lens_correct_probs]. *)
Definition logit_lens_correct_probs (pred : Graph) (model : HookedTransformer R)
    (dataset : Dataset Graph) (position : Z) (lenses : option (gmap string (Tensor2 R)))
  : option (list R) * gmap string (Tensor3 R) :=
  let '(labels, cache) := get_example_cache pred model dataset in
  correct_probs model dataset lenses labels position cache.

End Lens.

(** ** The lens calibrator *)

(** The probe points the calibrator aggregates. *)
Definition tuned_lens_keys (n_layers : nat) : list string :=
  ((λ block, get_act_name "normalized" block (Some "ln1")) <$> seq 1 (n_layers - 1))
  ++ ["ln_final.hook_normalized"].

(** The positions a training row is taken from: those after the start
    marker whose next token still lies before the end of the answer
    span, [marker < p] and [p + 1 < end_idx], in order. *)
Definition span_positions (marker : nat) (end_idx : Z) : list nat :=
  seq (S marker) (Z.to_nat (end_idx - 1) - S marker).

Section Calibration.
Context {R Graph RngState : Type}.
Variable randint : Z → Z → RngState → Z * RngState.
Variable generate_example : Z → Z → option Z → string → Graph.
Variable is_model_correct : HookedTransformer R → Dataset Graph → Graph → bool.
Variable get_example_cache :
  Graph → HookedTransformer R → Dataset Graph → list string * gmap string (Tensor3 R).
Variable num_last : list string → string → Z.
(** [LinearClsProbe(fit_intercept=b)] followed by [fit(X, y)]; the
    result is [model.weight.data] of the fitted probe, [None] when the
    fit raises. *)
Variable LinearClsProbe_fit : bool → Tensor2 R → list Z → option (Tensor2 R).

(** Tokens of an accepted example and the bounds of its training span:
    [tokens], [start_idx], [end_idx]. *)
Definition example_span (dataset : Dataset Graph) (graph : Graph)
  : option (list Z * Z * Z) :=
  let tokens := removelast (tokenize dataset graph) in
  marker ← np_where_item tokens (start_token dataset);
  let start_idx := marker + 2 in
  labels ← mapM (idx2tokens dataset) tokens;
  let end_idx := num_last labels "," in
  Some (tokens, start_idx, end_idx).

(** [for key in X.keys(): X[key].append(acts[key][gidx][0, start_idx-1:end_idx-1])]. *)
Definition append_streams (acts : gmap string (list (Tensor3 R))) (keys : list string)
    (gidx : nat) (start_idx end_idx : Z) (X : gmap string (list (Tensor2 R)))
  : option (gmap string (list (Tensor2 R))) :=
  foldM (λ X key,
           per_example ← acts !! key;
           act ← per_example !! gidx;
           batch0 ← py_index act 0;
           let streams := py_slice batch0 (start_idx - 1) (end_idx - 1) in
           acc ← X !! key;
           Some (<[key := acc ++ [streams]]> X))
        keys X.

(** The body of the loop over the accepted examples. *)
Definition calibration_step (dataset : Dataset Graph)
    (acts : gmap string (list (Tensor3 R))) (keys : list string)
    (Xy : gmap string (list (Tensor2 R)) * list (list Z)) (gg : nat * Graph)
  : option (gmap string (list (Tensor2 R)) * list (list Z)) :=
  let '(X, y) := Xy in
  let '(gidx, graph) := gg in
  '(tokens, start_idx, end_idx) ← example_span dataset graph;
  let y := y ++ [py_slice tokens start_idx end_idx] in
  X ← append_streams acts keys gidx start_idx end_idx X;
  Some (X, y).

(** The training span of example [gidx] lies within its tokens and
    within the positions of its cached activations. *)
Definition span_in_range (dataset : Dataset Graph)
    (acts : gmap string (list (Tensor3 R))) (keys : list string)
    (gidx : nat) (graph : Graph) : Prop :=
  ∀ tokens start_idx end_idx,
    example_span dataset graph = Some (tokens, start_idx, end_idx) →
    1 ≤ end_idx ≤ Z.of_nat (length tokens) ∧
    ∀ key per_example act batch0,
      key ∈ keys → acts !! key = Some per_example → per_example !! gidx = Some act →
      py_index act 0 = Some batch0 →
      end_idx - 1 ≤ Z.of_nat (length batch0).

(** The training rows per probe point and the training labels: the part
    of [calculate_tuned_lens] between aggregation and fitting.  [keys]
    are the keys of [acts] in the order of the dict. *)
Definition calibration_dataset (dataset : Dataset Graph)
    (acts : gmap string (list (Tensor3 R))) (keys : list string) (graphs : list Graph)
  : option (gmap string (Tensor2 R) * list Z) :=
  let X : gmap string (list (Tensor2 R)) := list_to_map ((λ key, (key, [])) <$> keys) in
  '(X, y) ← foldM (calibration_step dataset acts keys)
                  (zip (seq 0 (length graphs)) graphs) (X, []);
  X ← foldM (λ Xc key, parts ← X !! key; rows ← cat parts; Some (<[key := rows]> Xc))
            keys (∅ : gmap string (Tensor2 R));
  y ← cat y;
  Some (X, y).

(** The lens of every probe point: fit without intercept, transpose. *)
Definition fit_translators (keys : list string) (X : gmap string (Tensor2 R)) (y : list Z)
  : option (gmap string (Tensor2 R)) :=
  foldM (λ translators key,
           rows ← X !! key;
           W ← LinearClsProbe_fit false rows y;
           let W := transpose W in
           Some (<[key := W]> translators))
        keys (∅ : gmap string (Tensor2 R)).

(** [calculate_tuned_lens]. *)
Definition calculate_tuned_lens (model : HookedTransformer R) (dataset : Dataset Graph)
    (w : AggWorld RngState Graph)
  : option (gmap string (Tensor2 R) * AggWorld RngState Graph) :=
  let keys := tuned_lens_keys (n_layers model) in
  '(acts, graphs, w') ←
    aggregate_activations randint generate_example is_model_correct get_example_cache
      model dataset keys 16384 None "random" w;
  '(X, y) ← calibration_dataset dataset acts keys graphs;
  translators ← fit_translators keys X y;
  Some (translators, w').

End Calibration.

(** ** The display helpers and the neighbour probabilities *)

Abbreviation Tensor4 R := (list (list (list (list R)))).

(** [t.shape[-1]] of a four-dimensional tensor given by nested lists; a
    dimension below an empty one counts as empty. *)
Definition shape_last {R} (t : Tensor4 R) : nat :=
  match t with
  | ((row :: _) :: _) :: _ => length row
  | _ => 0%nat
  end.

(** [while labels[last_idx] == ",": last_idx -= 1], the value of
    [last_idx] at the exit.  Every turn lowers the index, and an index
    below [-len(labels)] raises, so the turns are bounded; [fuel] counts
    them. *)
Fixpoint trim_padding (fuel : nat) (labels : list string) (last_idx : Z) : option Z :=
  match fuel with
  | O => None
  | S fuel' =>
      label ← py_index labels last_idx;
      if decide (label = ",") then trim_padding fuel' labels (last_idx - 1)
      else Some last_idx
  end.

(** The figure [display_head] builds: the matrix handed to [px.imshow]
    and the tick labels of both axes. *)
Definition display_head_figure {R} (cache : gmap string (Tensor4 R))
    (labels : list string) (layer head : Z) : option (Tensor2 R * list string) :=
  average_patterns ← cache !! ("blocks." +:+ pretty layer +:+ ".attn.hook_pattern");
  let last_idx := Z.of_nat (shape_last average_patterns) - 1 in
  last_idx ← trim_padding (S (Z.to_nat (last_idx + Z.of_nat (length labels))))
               labels last_idx;
  let last_idx := last_idx + 1 in
  batch0 ← py_index average_patterns 0;
  pattern ← py_index batch0 head;
  let matrix := (λ row, py_slice row 0 last_idx) <$> py_slice pattern 0 last_idx in
  let labels := py_slice labels 0 last_idx in
  Some (matrix, labels).

(** [display_head]: the figure shown and the figure returned. *)
Definition display_head {R} (cache : gmap string (Tensor4 R)) (labels : list string)
    (layer head : Z) (show : bool)
  : option (option (Tensor2 R * list string) * option (Tensor2 R * list string)) :=
  fig ← display_head_figure cache labels layer head;
  Some (if show then (Some fig, None) else (None, Some fig)).

(** [plot_activations]: the grid and the column labels handed to
    [imshow]. *)
Definition plot_activations {R Graph} (patching_result : Tensor2 R)
    (clean_tokens : list Z) (dataset : Dataset Graph)
  : option (Tensor2 R * list string) :=
  token_labels ←
    mapM (λ it : nat * Z,
            token ← idx2tokens dataset it.2;
            Some (token +:+ "_" +:+ pretty it.1))
         (zip (seq 0 (length clean_tokens)) clean_tokens);
  Some (patching_result, token_labels).

(** [s.split(">")[-1]]: what follows the last [>] of [s]. *)
Fixpoint after_last_gt_go (s acc : string) : string :=
  match s with
  | EmptyString => acc
  | String c s' =>
      if decide (c = ">"%char) then after_last_gt_go s' ""
      else after_last_gt_go s' (acc +:+ String c "")
  end.

Definition after_last_gt (s : string) : string := after_last_gt_go s "".

(** [[f">{i}" for i in range(n_states) if current_neighbors[i] > 0]]. *)
Definition neighbor_tokens (n_states : Z) (current_neighbors : list Z)
  : option (list string) :=
  foldM (λ names i,
           v ← current_neighbors !! i;
           Some (if decide (0 < v) then names ++ [">" +:+ pretty i] else names))
        (range (Z.to_nat n_states)) [].

(** A loop over [l] that threads an accumulator. *)
Fixpoint lens_fold {R A B} (l : list A) (body : B → A → LensM R B) (b : B) : LensM R B :=
  match l with
  | [] => lens_ret b
  | x :: l' => b' ←ₗ body b x; lens_fold l' body b'
  end.

Section AllProbs.
Context {R : Type} `{Scalar R} {Graph : Type}.
Variable softmax : Tensor1 R → Tensor1 R.
Variable get_example_cache :
  Graph → HookedTransformer R → Dataset Graph → list string * gmap string (Tensor3 R).
(** [extract_adj_matrix(graph)]. *)
Variable extract_adj_matrix : Graph → list (list Z).
(** Python's [int(s)] on a string; [None] when it raises. *)
Variable py_int : string → option Z.

(** [for key in probs: probs[key].append(out_proj[position, tokens2idx[key]])];
    the keys of [probs] are [names], which are pairwise distinct. *)
Definition append_key_probs (dataset : Dataset Graph) (out_proj : Tensor2 R)
    (position : Z) (names : list string) (probs : gmap string (list R))
  : option (gmap string (list R)) :=
  foldM (λ probs key,
           idx ← tokens2idx dataset key;
           row ← py_index out_proj position;
           key_prob ← py_index row idx;
           acc ← probs !! key;
           Some (<[key := acc ++ [key_prob]]> probs))
        names probs.

(** The body of the loop of [logit_lens_all_probs]. *)
Definition all_probs_layer (model : HookedTransformer R) (dataset : Dataset Graph)
    (lenses : option (gmap string (Tensor2 R))) (position : Z) (names : list string)
    (probs : gmap string (list R)) (layer : nat) : LensM R (gmap string (list R)) :=
  let act_name := lens_act_name (n_layers model) layer in
  act ←ₗ cache_get act_name;
  res_stream ←ₗ lens_lift (py_index act 0);
  out_proj ←ₗ lens_lift (lens_project model lenses act_name res_stream);
  let out_proj := softmax <$> out_proj in
  lens_lift (append_key_probs dataset out_proj position names probs).

(** [logit_lens_all_probs] once labels and cache are there. *)
Definition all_probs (pred : Graph) (model : HookedTransformer R) (dataset : Dataset Graph)
    (lenses : option (gmap string (Tensor2 R))) (labels : list string) (position : Z)
  : LensM R (gmap string (list R)) :=
  current ←ₗ lens_lift (py_index labels position);
  current_node ←ₗ lens_lift (py_int (after_last_gt current));
  current_neighbors ←ₗ lens_lift (py_index (extract_adj_matrix pred) current_node);
  names ←ₗ lens_lift (neighbor_tokens (n_states dataset) current_neighbors);
  let probs : gmap string (list R) := list_to_map ((λ key, (key, [])) <$> names) in
  correct_token ←ₗ lens_lift (py_index labels (position + 1));
  correct_token_idx ←ₗ lens_lift (tokens2idx dataset correct_token);
  lens_fold (seq 1 (n_layers model))
            (all_probs_layer model dataset lenses position names) probs.

(** [logit_lens_all_probs]. *)
Definition logit_lens_all_probs (pred : Graph) (model : HookedTransformer R)
    (dataset : Dataset Graph) (position : Z) (lenses : option (gmap string (Tensor2 R)))
  : option (gmap string (list R)) * gmap string (Tensor3 R) :=
  let '(labels, cache) := get_example_cache pred model dataset in
  all_probs pred model dataset lenses labels position cache.

End AllProbs.

(** ** Notions used to state further properties *)

(** How often [key] is listed in [keys]. *)
Definition key_count (key : string) (keys : list string) : nat :=
  length (filter (λ k, k = key) keys).

(** The instances [n] successive draws of the generator lead to, and the
    state of the generator after them: what the sampling loop would
    generate if nothing but the generator decided it. *)
Definition sampled_instances {Graph RngState : Type}
    (randint : Z → Z → RngState → Z * RngState)
    (generate_example : Z → Z → option Z → string → Graph)
    (n_states : Z) (path_length : option Z) (order : string)
    (n : nat) (state : RngState) : list Graph * RngState :=
  foldl (λ acc _,
           let '(seed, state') := randint 1000000 np_iinfo_max acc.2 in
           (acc.1 ++ [generate_example n_states seed path_length order], state'))
        ([], state) (range n).

(** ** A small instance, for the examples

    Rational scalars, a vocabulary of four tokens ([a], [b], the start
    marker and the padding comma), two layers that add to every position
    the sum of all positions, and logits read off the residual stream. *)

#[export] Instance Q_Scalar : Scalar Q := {|
  s_zero := 0%Q;
  s_one := 1%Q;
  s_add := Qplus;
  s_sub := Qminus;
  s_mul := Qmult;
  s_div := Qdiv;
  s_is_zero := λ q, Qeq_bool q 0%Q
|}.

Definition toy_one_hot (t : Z) : Tensor1 Q :=
  (λ v : Z, if decide (t = v) then 1%Q else 0%Q) <$> [0; 1; 2; 3].

Definition toy_mix (batch : Tensor2 Q) : Tensor2 Q :=
  let total := foldr (zip_with Qplus) [0%Q; 0%Q; 0%Q; 0%Q] batch in
  (λ v, zip_with Qplus v total) <$> batch.

Definition toy_model : HookedTransformer Q := {|
  n_layers := 2;
  embed := λ tokens, [toy_one_hot <$> tokens];
  block := λ _ resid, toy_mix <$> resid;
  unembed := λ resid, resid;
  W_U := toy_one_hot <$> [0; 1; 2; 3]
|}.

Definition toy_dataset : Dataset (list Z) := {|
  idx2tokens := λ i, [("a" : string); "b"; "|"; ","] !! Z.to_nat i;
  tokens2idx := λ s,
    if decide (s = "a") then Some 0 else if decide (s = "b") then Some 1
    else if decide (s = "|") then Some 2 else if decide (s = ",") then Some 3
    else None;
  start_token := 2;
  n_states := 2;
  tokenize := λ graph, graph
|}.

(** The generator of numpy as a counter, two instances that alternate
    with the parity of the seed, an oracle that accepts the instances
    starting with [a], and a cache with the two probe points of the
    calibrator. *)

Definition toy_randint (low high : Z) (state : Z) : Z * Z :=
  (low + state `mod` (high - low), state + 1).

Definition toy_generate_example (n_states seed : Z) (path_length : option Z)
    (order : string) : list Z :=
  if Z.even seed then [0; 1; 2; 0; 1; 3; 3; 3] else [1; 0; 2; 1; 0; 0; 3; 3].

Definition toy_is_model_correct (model : HookedTransformer Q) (dataset : Dataset (list Z))
    (graph : list Z) : bool :=
  bool_decide (head graph = Some 0).

Definition toy_get_example_cache (graph : list Z) (model : HookedTransformer Q)
    (dataset : Dataset (list Z)) : list string * gmap string (Tensor3 Q) :=
  let tokens := removelast (tokenize dataset graph) in
  (default [] (mapM (idx2tokens dataset) tokens),
   {[ get_act_name "normalized" 1 (Some "ln1") := resid_pre_at model tokens 1;
      "ln_final.hook_normalized" := resid_pre_at model tokens (n_layers model) ]}).

Fixpoint toy_strip (c : string) (l : list string) : list string :=
  match l with
  | [] => []
  | x :: l' => if decide (x = c) then toy_strip c l' else l
  end.

(** The index after the last label that is not [c]. *)
Definition toy_num_last (labels : list string) (c : string) : Z :=
  Z.of_nat (length (toy_strip c (reverse labels))).

(** A probe whose weight row for a token is the sum of the training rows
    labelled with it. *)
Definition toy_fit (fit_intercept : bool) (X : Tensor2 Q) (y : list Z)
  : option (Tensor2 Q) :=
  if decide (length X = length y) then
    Some ((λ v : Z,
             foldr (zip_with Qplus) [0%Q; 0%Q; 0%Q; 0%Q]
               ((filter (λ xy : Tensor1 Q * Z, xy.2 = v) (zip X y)).*1))
            <$> [0; 1; 2; 3])
  else None.

Definition toy_world : AggWorld Z (list Z) := {| rng := 0; attempts := [] |}.

(** A second model with the layer count and the unembedding of the
    first, and a forward pass that ignores its input; and the first
    row-wise maximum and a normalisation by the row sum in place of the
    torch operations. *)

Definition toy_model_blind : HookedTransformer Q := {|
  n_layers := 2;
  embed := λ _, [];
  block := λ _ _, [];
  unembed := λ _, [];
  W_U := toy_one_hot <$> [0; 1; 2; 3]
|}.

Definition toy_argmax (row : Tensor1 Q) : Z :=
  (foldr (λ x acc,
            match acc with
            | (i, None) => (0, Some x)
            | (i, Some best) => if Qle_bool best x then (0, Some x) else (i + 1, Some best)
            end) (0, None) row).1.

Definition toy_softmax (row : Tensor1 Q) : Tensor1 Q :=
  let total := foldr Qplus 0%Q row in
  (λ x, Qred (x / total)%Q) <$> row.

(** An oracle that accepts nothing; and two accepted instances with
    their aggregated activations. *)

Definition toy_reject_all (model : HookedTransformer Q) (dataset : Dataset (list Z))
    (graph : list Z) : bool := false.

Definition toy_graphs : list (list Z) :=
  [[0; 1; 2; 0; 1; 3; 3; 3]; [0; 1; 2; 0; 1; 3; 3; 3]].

Definition toy_acts : gmap string (list (Tensor3 Q)) :=
  list_to_map
    ((λ key, (key, omap (λ g, (toy_get_example_cache g toy_model toy_dataset).2 !! key)
                     toy_graphs))
       <$> tuned_lens_keys 2).

(** The labels and the cache of one instance, and lenses that repeat
    the unembedding at every probe point. *)

Definition toy_example : list string * gmap string (Tensor3 Q) :=
  toy_get_example_cache [0; 1; 2; 0; 1; 3; 3; 3] toy_model toy_dataset.

Definition toy_lenses : gmap string (Tensor2 Q) :=
  list_to_map ((λ key, (key, W_U toy_model)) <$> tuned_lens_keys 2).

(** A cache with a single short probe point, for cheap examples. *)
Definition tiny_get_example_cache (graph : list Z) (model : HookedTransformer Q)
    (dataset : Dataset (list Z)) : list string * gmap string (Tensor3 Q) :=
  ([], {[ "k" := [[[inject_Z (default 0 (head graph))]]] ]}).

(** An attention pattern over three labels, the last one padding. *)
Definition toy_patterns : gmap string (Tensor4 Q) :=
  {[ "blocks.0.attn.hook_pattern" := [[[[1; 0; 0]; [2; 3; 0]; [4; 5; 6]]]]%Q ]}.

(** A dataset whose tokens are the edges [0>1] and the steps [>0], [>1]
    of a walk on two states, its adjacency matrix, and [int] on the two
    state names. *)
Definition toy_walk_dataset : Dataset (list Z) := {|
  idx2tokens := λ i, [("0>1" : string); ">0"; ">1"; ","] !! Z.to_nat i;
  tokens2idx := λ s,
    if decide (s = "0>1") then Some 0 else if decide (s = ">0") then Some 1
    else if decide (s = ">1") then Some 2 else if decide (s = ",") then Some 3
    else None;
  start_token := 0;
  n_states := 2;
  tokenize := λ graph, graph
|}.

Definition toy_extract_adj_matrix (graph : list Z) : list (list Z) := [[0; 1]; [1; 0]].

Definition toy_py_int (s : string) : option Z :=
  if decide (s = "0") then Some 0 else if decide (s = "1") then Some 1 else None.

(* ===================================================================== *)
(** * Part II. Properties                                                *)
(* ===================================================================== *)

(** ** Indexing *)

Section Indexing.
Context {A : Type}.
Implicit Types (l : list A).

Lemma py_index_nonneg l (i : Z) :
  0 ≤ i → py_index l i = l !! Z.to_nat i.
Proof.
  intros Hi. unfold py_index.
  destruct (decide (0 ≤ i < Z.of_nat (length l))) as [|Hout]; [done|].
  destruct (decide (- Z.of_nat (length l) ≤ i < 0)); [lia|].
  symmetry. apply lookup_ge_None. lia.
Qed.

Lemma py_index_0 l : py_index l 0 = l !! 0%nat.
Proof. by rewrite py_index_nonneg. Qed.

Lemma py_slice_bound_in (len : nat) (i : Z) :
  0 ≤ i ≤ Z.of_nat len → py_slice_bound len i = Z.to_nat i.
Proof.
  intros Hi. unfold py_slice_bound.
  destruct (decide (i < 0)); [lia|]. f_equal. lia.
Qed.

Lemma py_slice_bound_le (len : nat) (i : Z) : (py_slice_bound len i ≤ len)%nat.
Proof. unfold py_slice_bound. destruct (decide (i < 0)); lia. Qed.

Lemma py_slice_length l (start stop : Z) :
  length (py_slice l start stop)
  = (py_slice_bound (length l) stop - py_slice_bound (length l) start)%nat.
Proof.
  unfold py_slice. rewrite length_take, length_drop.
  pose proof (py_slice_bound_le (length l) stop). lia.
Qed.

Lemma py_slice_lookup l (start stop : Z) (j : nat) :
  (j < length (py_slice l start stop))%nat →
  py_slice l start stop !! j = l !! (py_slice_bound (length l) start + j)%nat.
Proof.
  rewrite py_slice_length. intros Hj. unfold py_slice.
  rewrite lookup_take_lt by lia. by rewrite lookup_drop.
Qed.

End Indexing.

(** ** The baseline metric *)

Section LogitDiff.
Context {R : Type} `{Scalar R}.

Example logit_diff_wraps_at_zero (x y : R) :
  logits_to_logit_diff [0; 1] [1; 0] [[[x; y]; [y; x]]] 0 = Some (s_sub y x).
Proof. reflexivity. Qed.

(** C2. For token sequences of equal length and a comparison position
    [1 ≤ comparison_index < length], with token ids that index the
    vocabulary dimension, the metric is
    [logits[0, comparison_index - 1, correct] - logits[0, comparison_index - 1, incorrect]],
    where [correct] is the clean token and [incorrect] the corrupted
    token at [comparison_index]. *)
Theorem logits_to_logit_diff_spec
    (clean_tokens corrupted_tokens : list Z) (logits : Tensor3 R)
    (comparison_index correct incorrect : Z) (batch0 : Tensor2 R) (row : Tensor1 R)
    (a b : R) :
  length clean_tokens = length corrupted_tokens →
  1 ≤ comparison_index < Z.of_nat (length clean_tokens) →
  clean_tokens !! Z.to_nat comparison_index = Some correct →
  corrupted_tokens !! Z.to_nat comparison_index = Some incorrect →
  0 ≤ correct → 0 ≤ incorrect →
  logits !! 0%nat = Some batch0 →
  batch0 !! Z.to_nat (comparison_index - 1) = Some row →
  row !! Z.to_nat correct = Some a →
  row !! Z.to_nat incorrect = Some b →
  logits_to_logit_diff clean_tokens corrupted_tokens logits comparison_index
  = Some (s_sub a b).
Proof.
  intros _ [Hlo _] Hc Hi Hc0 Hi0 Hb Hrow Ha Hb'.
  unfold logits_to_logit_diff.
  rewrite (py_index_nonneg clean_tokens), Hc by lia.
  rewrite (py_index_nonneg corrupted_tokens), Hi by lia.
  rewrite py_index_0, Hb. cbn [mbind option_bind].
  rewrite (py_index_nonneg batch0), Hrow by lia. cbn [mbind option_bind].
  rewrite (py_index_nonneg row correct), Ha by lia.
  rewrite (py_index_nonneg row incorrect), Hb' by lia. done.
Qed.

End LogitDiff.

Lemma logits_to_logit_diff_spec_witness :
  logits_to_logit_diff [0; 1] [0; 0] (forward toy_model [0; 1]) 1
  = Some (s_sub 4%Q 5%Q).
Proof.
  apply (logits_to_logit_diff_spec [0; 1] [0; 0] (forward toy_model [0; 1]) 1 1 0
           [[5; 4; 0; 0]; [4; 5; 0; 0]]%Q [5; 4; 0; 0]%Q 4%Q 5%Q);
    first [reflexivity | simpl; lia].
Defined.

(** ** Names of probe points *)

Lemma string_length_app (s t : string) :
  String.length (s +:+ t) = (String.length s + String.length t)%nat.
Proof. induction s as [|c s IH]; simpl; [done|]. by rewrite IH. Qed.

Lemma string_app_inj_r (s1 s2 t : string) : s1 +:+ t = s2 +:+ t → s1 = s2.
Proof.
  intros Heq.
  assert (Hlen : String.length s1 = String.length s2).
  { apply (f_equal String.length) in Heq.
    rewrite !string_length_app in Heq. lia. }
  revert s2 Heq Hlen. induction s1 as [|c s1 IH]; intros [|d s2] Heq Hlen;
    simpl in *; try done.
  injection Heq as -> Heq. f_equal. apply IH; [done|lia].
Qed.

Lemma get_act_name_resid_pre_inj (l1 l2 : nat) :
  get_act_name "resid_pre" l1 None = get_act_name "resid_pre" l2 None → l1 = l2.
Proof.
  unfold get_act_name. intros Heq.
  apply (inj (String.append "blocks.")) in Heq.
  apply string_app_inj_r in Heq. by apply (inj pretty) in Heq.
Qed.

(** ** The forward pass *)

Section ForwardFacts.
Context {R : Type}.
Implicit Types (model : HookedTransformer R) (resid : Tensor3 R).

Lemma plain_layers_app model (l1 l2 : list nat) resid :
  plain_layers model (l1 ++ l2) resid
  = plain_layers model l2 (plain_layers model l1 resid).
Proof. revert resid. induction l1 as [|l l1 IH]; intros resid; simpl; [done|]. apply IH. Qed.

Lemma run_layers_app model hooks (l1 l2 : list nat) resid :
  run_layers model hooks (l1 ++ l2) resid
  = run_layers model hooks l1 resid ≫= run_layers model hooks l2.
Proof.
  revert resid. induction l1 as [|l l1 IH]; intros resid; simpl; [done|].
  destruct (apply_hooks hooks _ resid) as [r|]; simpl; [apply IH|done].
Qed.

(** Layers other than the hooked one run as in a plain pass. *)
Lemma run_layers_unhooked model (layer : nat) (fn : Hook R) (layers : list nat) resid :
  layer ∉ layers →
  run_layers model [(get_act_name "resid_pre" layer None, fn)] layers resid
  = Some (plain_layers model layers resid).
Proof.
  revert resid. induction layers as [|l layers IH]; intros resid Hnin; simpl; [done|].
  case_decide as Heq.
  - apply get_act_name_resid_pre_inj in Heq. subst. set_solver.
  - simpl. apply IH. set_solver.
Qed.

Lemma range_split (n layer : nat) :
  (layer < n)%nat → range n = range layer ++ layer :: seq (S layer) (n - S layer).
Proof.
  intros Hlt. unfold range.
  replace n with (layer + S (n - S layer))%nat at 1 by lia.
  by rewrite seq_app.
Qed.

(** With a single hook on the [resid_pre] point of [layer], the pass is
    plain up to [layer], the hook runs once on the activation entering
    [layer], and the pass is plain again from there. *)
Lemma run_with_hooks_single model (tokens : list Z) (layer : nat) (fn : Hook R) :
  (layer < n_layers model)%nat →
  run_with_hooks model tokens [(get_act_name "resid_pre" layer None, fn)]
  = patched ← fn (resid_pre_at model tokens layer) (get_act_name "resid_pre" layer None);
    Some (unembed model
            (plain_layers model (seq (S layer) (n_layers model - S layer))
               (block model layer patched))).
Proof.
  intros Hlt. unfold run_with_hooks, resid_pre_at.
  rewrite (range_split _ _ Hlt), run_layers_app.
  rewrite run_layers_unhooked by (unfold range; rewrite elem_of_seq; lia).
  simpl. rewrite decide_True by done.
  destruct (fn _ _) as [patched|]; simpl; [|done].
  rewrite run_layers_unhooked by (rewrite elem_of_seq; lia). done.
Qed.

Lemma forward_split model (tokens : list Z) (layer : nat) :
  (layer < n_layers model)%nat →
  forward model tokens
  = unembed model
      (plain_layers model (seq (S layer) (n_layers model - S layer))
         (block model layer (resid_pre_at model tokens layer))).
Proof.
  intros Hlt. unfold forward, resid_pre_at.
  by rewrite (range_split _ _ Hlt), plain_layers_app.
Qed.

Lemma cache_layers_lookup model (a k layer : nat) resid (cache : gmap string (Tensor3 R)) :
  cache_layers model (seq a k) resid cache !! get_act_name "resid_pre" layer None
  = if decide (a ≤ layer < a + k)%nat
    then Some (plain_layers model (seq a (layer - a)) resid)
    else cache !! get_act_name "resid_pre" layer None.
Proof.
  revert a resid cache. induction k as [|k IH]; intros a resid cache; simpl.
  { rewrite decide_False by lia. done. }
  rewrite IH. destruct (decide (S a ≤ layer < S a + k)%nat) as [Hin|Hout].
  - rewrite decide_True by lia.
    replace (layer - a)%nat with (S (layer - S a)) by lia. done.
  - destruct (decide (layer = a)) as [->|Hne].
    + rewrite decide_True by lia. rewrite lookup_insert_eq.
      by replace (a - a)%nat with 0%nat by lia.
    + rewrite decide_False by lia. rewrite lookup_insert_ne; [done|].
      intros Heq. by apply get_act_name_resid_pre_inj in Heq.
Qed.

(** The clean cache holds, at the [resid_pre] point of a layer, the
    activation that entered that layer in the clean pass. *)
Lemma run_with_cache_lookup model (tokens : list Z) (layer : nat) :
  (layer < n_layers model)%nat →
  (run_with_cache model tokens).2 !! get_act_name "resid_pre" layer None
  = Some (resid_pre_at model tokens layer).
Proof.
  intros Hlt. unfold run_with_cache, range, resid_pre_at, range. simpl.
  rewrite cache_layers_lookup, decide_True by lia.
  by replace (layer - 0)%nat with layer by lia.
Qed.

End ForwardFacts.

(** ** The patching hook *)

Section HookFacts.
Context {R : Type} `{Scalar R}.


(** Writing an activation into itself changes nothing. *)
Lemma assign_position_same (x : Tensor3 R) (position : nat) :
  Forall (λ b : Tensor2 R, (position < length b)%nat) x →
  assign_position x x position = Some x.
Proof.
  intros Hx. unfold assign_position. rewrite decide_True by done.
  apply mapM_Some_2. induction Hx as [|b x Hb Hx IH]; simpl; [constructor|].
  constructor; [|done]. simpl.
  destruct (lookup_lt_is_Some_2 b position Hb) as [v Hv]. rewrite Hv. simpl.
  rewrite decide_True by done. by rewrite list_insert_id.
Qed.

(** The patched pass of a cell, spelled out. *)
Lemma patched_logits_unfold (model : HookedTransformer R) (clean_tokens corrupted_tokens : list Z)
    (layer position : nat) :
  (layer < n_layers model)%nat →
  patched_logits model (run_with_cache model clean_tokens).2 corrupted_tokens layer position
  = patched ← assign_position (resid_pre_at model corrupted_tokens layer)
                (resid_pre_at model clean_tokens layer) position;
    Some (unembed model
            (plain_layers model (seq (S layer) (n_layers model - S layer))
               (block model layer patched))).
Proof.
  intros Hlt. unfold patched_logits.
  rewrite run_with_hooks_single by done.
  unfold residual_stream_patching_hook.
  rewrite run_with_cache_lookup by done. done.
Qed.

End HookFacts.

(** ** The result grid *)

Section Grid.
Context {R : Type} `{Scalar R}.

Lemma take_S_insert (row : Tensor1 R) (a : nat) (x : R) :
  (a < length row)%nat → take (S a) (<[a := x]> row) = take a row ++ [x].
Proof.
  intros Ha. rewrite (take_S_r _ _ x); [|by apply list_lookup_insert_eq].
  by rewrite take_insert_ge.
Qed.

Lemma set_cell_Some (grid : Tensor2 R) (row : Tensor1 R) (layer position : nat) (x : R) :
  grid !! layer = Some row → (position < length row)%nat →
  set_cell grid layer position x = Some (<[layer := <[position := x]> row]> grid).
Proof. intros Hrow Hlt. unfold set_cell. rewrite Hrow. simpl. by rewrite decide_True. Qed.

(** The inner loop fills row [layer] from left to right. *)
Lemma foldM_set_cell_row (f : nat → option R) (h : R → R) (v : nat → R) (layer : nat) :
  ∀ (k a : nat) (grid : Tensor2 R) (row : Tensor1 R),
    grid !! layer = Some row → length row = (a + k)%nat →
    (∀ p, (a ≤ p < a + k)%nat → f p = Some (v p)) →
    foldM (λ g p, x ← f p; set_cell g layer p (h x)) (seq a k) grid
    = Some (<[layer := take a row ++ ((λ p, h (v p)) <$> seq a k)]> grid).
Proof.
  induction k as [|k IH]; intros a grid row Hrow Hlen Hf; cbn [foldM seq].
  { rewrite fmap_nil, app_nil_r, take_ge by lia. by rewrite list_insert_id. }
  rewrite Hf by lia. cbn [mbind option_bind].
  rewrite (set_cell_Some grid row) by (done || lia). cbn [mbind option_bind].
  rewrite fmap_cons.
  erewrite (IH (S a) _ (<[a := h (v a)]> row)).
  - rewrite list_insert_insert_eq, take_S_insert by lia.
    by rewrite <- app_assoc.
  - apply list_lookup_insert_eq. by eapply lookup_lt_Some.
  - rewrite length_insert. lia.
  - intros p Hp. apply Hf. lia.
Qed.

(** The two loops fill the grid row by row. *)
Lemma foldM_set_cell_grid (f : nat → nat → option R) (h : R → R) (v : nat → nat → R)
    (m : nat) :
  ∀ (k a : nat) (grid : Tensor2 R),
    length grid = (a + k)%nat → Forall (λ row, length row = m) grid →
    (∀ l p, (a ≤ l < a + k)%nat → (p < m)%nat → f l p = Some (v l p)) →
    foldM (λ g l, foldM (λ g p, x ← f l p; set_cell g l p (h x)) (seq 0 m) g) (seq a k) grid
    = Some (take a grid ++ ((λ l, (λ p, h (v l p)) <$> seq 0 m) <$> seq a k)).
Proof.
  induction k as [|k IH]; intros a grid Hlen Hrows Hf; cbn [foldM seq].
  { by rewrite fmap_nil, app_nil_r, take_ge by lia. }
  destruct (lookup_lt_is_Some_2 grid a) as [row Hrow]; [lia|].
  assert (Hm : length row = m).
  { rewrite Forall_lookup in Hrows. by eapply Hrows. }
  rewrite (foldM_set_cell_row (f a) h (v a) a m 0 grid row Hrow) by
    (first [lia | intros; apply Hf; lia]).
  cbn [mbind option_bind]. rewrite take_0, app_nil_l, fmap_cons, IH.
  - rewrite (take_S_r _ _ ((λ p, h (v a p)) <$> seq 0 m)) by
      (apply list_lookup_insert_eq; lia).
    rewrite take_insert_ge by lia. by rewrite <- app_assoc.
  - rewrite length_insert. lia.
  - apply Forall_insert; [done|]. rewrite length_fmap, length_seq. done.
  - intros l p Hl Hp. apply Hf; lia.
Qed.

End Grid.

(** ** The patching engine *)

Section PatchingFacts.
Context {R : Type} `{Scalar R} {Graph : Type}.
Implicit Types (model : HookedTransformer R) (dataset : Dataset Graph).

Lemma fmap_const_seq {A} (c : A) (a k : nat) : (λ _, c) <$> seq a k = replicate k c.
Proof. revert a. induction k as [|k IH]; intros a; simpl; [done|]. by rewrite <- (IH (S a)). Qed.

(** When both baselines and every patched difference are defined, the
    scan returns the grid of the normalised scores. *)
Lemma activation_patching_grid model dataset (clean_tokens corrupted_tokens : list Z)
    (comparison_index : Z) (clean_diff corrupted_diff : R) (patched_diff : nat → nat → R) :
  logits_to_logit_diff clean_tokens corrupted_tokens (forward model clean_tokens)
    comparison_index = Some clean_diff →
  logits_to_logit_diff clean_tokens corrupted_tokens (forward model corrupted_tokens)
    comparison_index = Some corrupted_diff →
  is_Some (py_index clean_tokens comparison_index ≫= idx2tokens dataset) →
  is_Some (py_index corrupted_tokens comparison_index ≫= idx2tokens dataset) →
  (∀ l p, (l < n_layers model)%nat → (p < length clean_tokens)%nat →
     patched_logit_diff model (run_with_cache model clean_tokens).2
       clean_tokens corrupted_tokens comparison_index l p = Some (patched_diff l p)) →
  activation_patching model dataset clean_tokens corrupted_tokens comparison_index
  = Some ((λ l, (λ p, normalized_score clean_diff corrupted_diff (patched_diff l p))
                  <$> seq 0 (length clean_tokens))
            <$> seq 0 (n_layers model)).
Proof.
  intros Hclean Hcorr [t1 Ht1] [t2 Ht2] Hpatched.
  unfold activation_patching, run_with_cache in *. cbn [snd] in Hpatched.
  rewrite Hclean. cbn [mbind option_bind]. rewrite Hcorr. cbn [mbind option_bind].
  rewrite Ht1. cbn [mbind option_bind]. rewrite Ht2. cbn [mbind option_bind].
  unfold patching_step, range.
  rewrite (foldM_set_cell_grid
             (λ l p, patched_logit_diff model _ clean_tokens corrupted_tokens
                       comparison_index l p)
             (normalized_score clean_diff corrupted_diff) patched_diff
             (length clean_tokens) (n_layers model) 0).
  - by rewrite take_0.
  - by rewrite length_replicate.
  - apply Forall_replicate. by rewrite length_replicate.
  - intros l p Hl Hp. apply Hpatched; lia.
Qed.

(** C1. Whenever the two baselines and the patched differences are
    defined, the scan returns a grid whose cell [(layer, position)] holds
    [(patched - corrupted) / (clean - corrupted)], with the denominator
    replaced by one when [clean - corrupted] is zero; in that case no
    error is raised, and where dividing by one is the identity the cell
    holds the raw difference [patched - corrupted]. *)
Theorem activation_patching_score model dataset (clean_tokens corrupted_tokens : list Z)
    (comparison_index : Z) (clean_diff corrupted_diff : R) (patched_diff : nat → nat → R) :
  logits_to_logit_diff clean_tokens corrupted_tokens (forward model clean_tokens)
    comparison_index = Some clean_diff →
  logits_to_logit_diff clean_tokens corrupted_tokens (forward model corrupted_tokens)
    comparison_index = Some corrupted_diff →
  is_Some (py_index clean_tokens comparison_index ≫= idx2tokens dataset) →
  is_Some (py_index corrupted_tokens comparison_index ≫= idx2tokens dataset) →
  (∀ l p, (l < n_layers model)%nat → (p < length clean_tokens)%nat →
     patched_logit_diff model (run_with_cache model clean_tokens).2
       clean_tokens corrupted_tokens comparison_index l p = Some (patched_diff l p)) →
  ∃ patching_result : Tensor2 R,
    activation_patching model dataset clean_tokens corrupted_tokens comparison_index
    = Some patching_result ∧
    ∀ layer position, (layer < n_layers model)%nat → (position < length clean_tokens)%nat →
      ∃ row : Tensor1 R,
        patching_result !! layer = Some row ∧
        row !! position
        = Some (s_div (s_sub (patched_diff layer position) corrupted_diff)
                  (if s_is_zero (s_sub clean_diff corrupted_diff)
                   then s_one else s_sub clean_diff corrupted_diff)) ∧
        (s_is_zero (s_sub clean_diff corrupted_diff) = true →
         (∀ x : R, s_div x s_one = x) →
         row !! position = Some (s_sub (patched_diff layer position) corrupted_diff)).
Proof.
  intros Hclean Hcorr Hp1 Hp2 Hpatched.
  eexists. split; [by apply activation_patching_grid|].
  intros layer position Hl Hp.
  exists ((λ p, normalized_score clean_diff corrupted_diff (patched_diff layer p))
            <$> seq 0 (length clean_tokens)).
  assert (Hcell : ((λ p, normalized_score clean_diff corrupted_diff (patched_diff layer p))
            <$> seq 0 (length clean_tokens)) !! position
          = Some (normalized_score clean_diff corrupted_diff (patched_diff layer position))).
  { rewrite list_lookup_fmap, lookup_seq_lt by done. done. }
  split; [|split].
  - rewrite list_lookup_fmap, lookup_seq_lt by done. done.
  - by rewrite Hcell.
  - intros Hzero Hone. rewrite Hcell. unfold normalized_score.
    rewrite Hzero. by rewrite Hone.
Qed.


(** C5. For a pair of identical sequences, on a model whose residual
    stream has one vector per token, every patched pass returns the
    logits of the unpatched pass, and every cell of the grid is
    [(d - d) / divisor] for the common baseline [d], where the divisor is
    never zero (one is not zero) and is one as soon as [d - d] is zero. *)
Theorem patching_identical_pair model dataset (tokens : list Z) (comparison_index : Z)
    (d : R) :
  (∀ l, (l < n_layers model)%nat →
        Forall (λ b : Tensor2 R, length b = length tokens) (resid_pre_at model tokens l)) →
  logits_to_logit_diff tokens tokens (forward model tokens) comparison_index = Some d →
  is_Some (py_index tokens comparison_index ≫= idx2tokens dataset) →
  (∀ layer position, (layer < n_layers model)%nat → (position < length tokens)%nat →
     patched_logits model (run_with_cache model tokens).2 tokens layer position
     = Some (forward model tokens)) ∧
  ∃ divisor : R,
    activation_patching model dataset tokens tokens comparison_index
    = Some (replicate (n_layers model)
              (replicate (length tokens) (s_div (s_sub d d) divisor))) ∧
    (s_is_zero s_one = false → s_is_zero divisor = false) ∧
    (s_is_zero (s_sub d d) = true → divisor = s_one).
Proof.
  intros Hshape Hd Hprint.
  assert (Hsame : ∀ layer position,
            (layer < n_layers model)%nat → (position < length tokens)%nat →
            patched_logits model (run_with_cache model tokens).2 tokens layer position
            = Some (forward model tokens)).
  { intros layer position Hl Hp. rewrite patched_logits_unfold by done.
    rewrite assign_position_same.
    - cbn [mbind option_bind]. by rewrite <- forward_split.
    - eapply Forall_impl; [by apply Hshape|]. simpl. intros b Hb. lia. }
  split; [done|].
  exists (if s_is_zero (s_sub d d) then s_one else s_sub d d).
  split; [|split].
  - rewrite (activation_patching_grid model dataset tokens tokens comparison_index
               d d (λ _ _, d)); try done.
    + f_equal. unfold normalized_score. by rewrite fmap_const_seq, fmap_const_seq.
    + intros l p Hl Hp. unfold patched_logit_diff. rewrite Hsame by done. done.
  - intros Hone. by destruct (s_is_zero (s_sub d d)) eqn:Hz.
  - by intros ->.
Qed.

End PatchingFacts.

(** The patched differences of the example pair, cell by cell. *)
Lemma toy_patched_diffs (l p : nat) :
  (l < 2)%nat → (p < 2)%nat →
  patched_logit_diff toy_model (run_with_cache toy_model [0; 1]).2 [0; 1] [0; 0] 1 l p
  = Some (match l, p with
          | O, O => -9
          | O, _ => -1
          | _, _ => -5
          end)%Q.
Proof.
  intros Hl Hp.
  destruct l as [|[|l]]; [| |lia]; (destruct p as [|[|p]]; [| |lia]); reflexivity.
Qed.

Lemma activation_patching_score_witness :
  ∃ patching_result : Tensor2 Q,
    activation_patching toy_model toy_dataset [0; 1] [0; 0] 1 = Some patching_result ∧
    ∀ layer position, (layer < 2)%nat → (position < 2)%nat →
      ∃ row : Tensor1 Q,
        patching_result !! layer = Some row ∧
        row !! position
        = Some (s_div (s_sub (match layer, position with
                              | O, O => -9
                              | O, _ => -1
                              | _, _ => -5
                              end)%Q (-9)%Q)
                  (if s_is_zero (s_sub (-1)%Q (-9)%Q)
                   then s_one else s_sub (-1)%Q (-9)%Q)) ∧
        (s_is_zero (s_sub (-1)%Q (-9)%Q) = true →
         (∀ x : Q, s_div x s_one = x) →
         row !! position
         = Some (s_sub (match layer, position with
                        | O, O => -9
                        | O, _ => -1
                        | _, _ => -5
                        end)%Q (-9)%Q)).
Proof.
  apply (activation_patching_score toy_model toy_dataset [0; 1] [0; 0] 1 (-1)%Q (-9)%Q
           (λ l p, match l, p with O, O => -9 | O, _ => -1 | _, _ => -5 end)%Q).
  - reflexivity.
  - reflexivity.
  - by eexists.
  - by eexists.
  - apply toy_patched_diffs.
Defined.


Example toy_hook_patches_position_1 :
  residual_stream_patching_hook (run_with_cache toy_model [0; 1]).2
    (resid_pre_at toy_model [0; 0] 1) (get_act_name "resid_pre" 1 None) 1
  = Some [[[3; 0; 0; 0]; [1; 2; 0; 0]]]%Q.
Proof. reflexivity. Qed.

Example toy_patching_grid :
  activation_patching toy_model toy_dataset [0; 1] [0; 0] 1
  = Some [[0 # 8; 8 # 8]; [4 # 8; 4 # 8]]%Q.
Proof. reflexivity. Qed.

Lemma patching_identical_pair_witness :
  (∀ layer position, (layer < 2)%nat → (position < 2)%nat →
     patched_logits toy_model (run_with_cache toy_model [0; 1]).2 [0; 1] layer position
     = Some (forward toy_model [0; 1])) ∧
  ∃ divisor : Q,
    activation_patching toy_model toy_dataset [0; 1] [0; 1] 1
    = Some (replicate 2 (replicate 2 (s_div (s_sub 0%Q 0%Q) divisor))) ∧
    (s_is_zero s_one = false → s_is_zero divisor = false) ∧
    (s_is_zero (s_sub 0%Q 0%Q) = true → divisor = s_one).
Proof.
  apply (patching_identical_pair toy_model toy_dataset [0; 1] 1 0%Q).
  - intros l Hl. destruct l as [|[|l]]; [| |simpl in Hl; lia];
      repeat constructor.
  - reflexivity.
  - by eexists.
Defined.

(** ** Loops *)

Section Loops.
Context {A B : Type}.
Implicit Types (f : B → A → option B).

(** A relation between the items consumed so far and the accumulator. *)
Lemma foldM_rel (Q : list A → B → Prop) f (l : list A) (b b' : B) :
  Q [] b →
  (∀ xs x c c', Q xs c → f c x = Some c' → Q (xs ++ [x]) c') →
  foldM f l b = Some b' → Q l b'.
Proof.
  intros Hinit Hstep.
  assert (Hgen : ∀ pre c, Q pre c → foldM f l c = Some b' → Q (pre ++ l) b').
  { induction l as [|x l IH]; intros pre c Hc Hfold; simpl in Hfold.
    - injection Hfold as <-. by rewrite app_nil_r.
    - destruct (f c x) as [c'|] eqn:Hf; simpl in Hfold; [|done].
      rewrite cons_middle, app_assoc. eapply IH; [|done]. by eapply Hstep. }
  apply (Hgen [] b Hinit).
Qed.

(** A loop whose body succeeds under an invariant does not raise. *)
Lemma foldM_is_Some (P : B → Prop) f (l : list A) (b : B) :
  P b →
  (∀ c x, x ∈ l → P c → ∃ c', f c x = Some c' ∧ P c') →
  is_Some (foldM f l b).
Proof.
  intros Hb Hstep. revert b Hb. induction l as [|x l IH]; intros b Hb; simpl; [done|].
  destruct (Hstep b x) as (c' & -> & Hc'); [by left|done|]. simpl.
  apply IH; [|done]. intros c y Hy. apply Hstep. by right.
Qed.

Lemma foldM_app f (l1 l2 : list A) (b : B) :
  foldM f (l1 ++ l2) b = foldM f l1 b ≫= foldM f l2.
Proof.
  revert b. induction l1 as [|x l1 IH]; intros b; simpl; [done|].
  destruct (f b x); simpl; [apply IH|done].
Qed.

End Loops.

(** ** The aggregator *)

Lemma lookup_empty_lists {V} (keys : list string) (key : string) :
  key ∈ keys →
  (list_to_map ((λ k, (k, [])) <$> keys) : gmap string (list V)) !! key = Some [].
Proof.
  induction keys as [|k keys IH]; [by intros ?%elem_of_nil|intros Hin].
  rewrite fmap_cons. cbn [list_to_map foldr]. destruct (decide (k = key)) as [->|Hne].
  - by rewrite lookup_insert_eq.
  - rewrite lookup_insert_ne by done. apply IH.
    by apply elem_of_cons in Hin as [->|Hin].
Qed.

Section AggregationFacts.
Context {R Graph RngState : Type}.
Variable randint : Z → Z → RngState → Z * RngState.
Variable generate_example : Z → Z → option Z → string → Graph.
Variable is_model_correct : HookedTransformer R → Dataset Graph → Graph → bool.
Variable get_example_cache :
  Graph → HookedTransformer R → Dataset Graph → list string * gmap string (Tensor3 R).
Variable model : HookedTransformer R.
Variable dataset : Dataset Graph.

Abbreviation oracle := (is_model_correct model dataset).
Abbreviation cache_of g := ((get_example_cache g model dataset).2).

(** With pairwise distinct keys, every key receives one tensor. *)
Lemma record_activations_lookup (cache : gmap string (Tensor3 R)) (keys : list string)
    (agg agg' : gmap string (list (Tensor3 R))) :
  NoDup keys →
  record_activations cache keys agg = Some agg' →
  ∀ key,
    (key ∈ keys → ∃ act acc,
        cache !! key = Some act ∧ agg !! key = Some acc ∧ agg' !! key = Some (acc ++ [act])) ∧
    (key ∉ keys → agg' !! key = agg !! key).
Proof.
  unfold record_activations. intros Hnd. revert agg.
  induction Hnd as [|k keys Hk Hnd IH]; intros agg Hrec key; simpl in Hrec.
  { injection Hrec as <-. split; [by intros ?%elem_of_nil|done]. }
  destruct (cache !! k) as [act|] eqn:Hact; simpl in Hrec; [|done].
  destruct (agg !! k) as [acc|] eqn:Hacc; simpl in Hrec; [|done].
  destruct (IH _ Hrec key) as [Hin Hout]. split.
  - intros [->|Hkey]%elem_of_cons.
    + exists act, acc. rewrite (Hout Hk). by rewrite lookup_insert_eq.
    + destruct (Hin Hkey) as (act' & acc' & Hc & Ha & Ha').
      exists act', acc'. rewrite lookup_insert_ne in Ha by (intros ->; done). done.
  - intros Hnin. rewrite Hout by (intros ?; apply Hnin; by right).
    apply lookup_insert_ne. intros ->. apply Hnin. by left.
Qed.

(** The inner loop does not raise when the cache has every key. *)
Lemma record_activations_is_Some (cache : gmap string (Tensor3 R)) (keys : list string)
    (agg : gmap string (list (Tensor3 R))) :
  (∀ key, key ∈ keys → is_Some (cache !! key)) →
  (∀ key, key ∈ keys → is_Some (agg !! key)) →
  ∃ agg', record_activations cache keys agg = Some agg' ∧
          ∀ key, is_Some (agg !! key) → is_Some (agg' !! key).
Proof.
  unfold record_activations. intros Hcache. revert agg.
  assert (Hgen : ∀ ks (agg : gmap string (list (Tensor3 R))),
            ks ⊆ keys → (∀ key, key ∈ keys → is_Some (agg !! key)) →
            ∃ agg', foldM (λ agg key, act ← cache !! key; acc ← agg !! key;
                                  Some (<[key := acc ++ [act]]> agg)) ks agg = Some agg' ∧
                    ∀ key, is_Some (agg !! key) → is_Some (agg' !! key)).
  { induction ks as [|k ks IH]; intros agg Hsub Hagg; simpl; [by eexists|].
    destruct (Hcache k) as [act ->]; [apply Hsub; by left|].
    destruct (Hagg k) as [acc ->]; [apply Hsub; by left|]. simpl.
    destruct (IH (<[k := acc ++ [act]]> agg)) as (agg' & Hfold & Hkeep).
    - intros x Hx. apply Hsub. by right.
    - intros key Hkey. rewrite lookup_insert. case_decide; [done|]. by apply Hagg.
    - exists agg'. split; [done|]. intros key Hkey. apply Hkeep.
      rewrite lookup_insert. by case_decide. }
  intros agg Hagg. by apply Hgen.
Qed.

Abbreviation aggregate := (aggregate_activations randint generate_example is_model_correct
                         get_example_cache model dataset).
Abbreviation step := (aggregate_step randint generate_example is_model_correct
                    get_example_cache model dataset).

(** One turn: one more attempt, accepted only if the oracle says so. *)
Lemma aggregate_step_inv keys path_length order agg graphs w agg' graphs' w' :
  step keys path_length order (agg, graphs, w) = Some (agg', graphs', w') →
  ∃ g, (∃ seed, g = generate_example (n_states dataset) seed path_length order) ∧
       attempts w' = attempts w ++ [g] ∧
       ((oracle g = false ∧ agg' = agg ∧ graphs' = graphs) ∨
        (oracle g = true ∧ graphs' = graphs ++ [g] ∧
         record_activations (cache_of g) keys agg = Some agg')).
Proof.
  unfold aggregate_step.
  destruct (randint _ _ _) as [seed rng'].
  set (g := generate_example _ _ _ _).
  destruct (is_model_correct model dataset g) eqn:Hcorrect; simpl.
  - destruct (get_example_cache g model dataset) as [labels cache] eqn:Hgc. simpl.
    destruct (record_activations cache keys agg) as [a|] eqn:Hrec; simpl; [|done].
    intros [= <- <- <-]. exists g. split; [by exists seed|].
    split; [done|]. right. by rewrite Hgc.
  - intros [= <- <- <-]. exists g. split; [by exists seed|]. split; [done|]. by left.
Qed.

(** The instances generated during a call, and the accepted ones. *)
Lemma aggregate_sampled keys (n_samples : nat) path_length order
    (w w' : AggWorld RngState Graph) agg graphs :
  aggregate keys n_samples path_length order w = Some (agg, graphs, w') →
  ∃ sampled : list Graph,
    attempts w' = attempts w ++ sampled ∧
    length sampled = n_samples ∧
    graphs = filter (λ g, oracle g = true) sampled ∧
    Forall (λ g, ∃ seed, g = generate_example (n_states dataset) seed path_length order)
      sampled.
Proof.
  intros Hagg. unfold aggregate_activations in Hagg.
  apply (foldM_rel (λ xs st, ∃ sampled : list Graph,
           attempts st.2 = attempts w ++ sampled ∧
           length sampled = length xs ∧
           st.1.2 = filter (λ g, oracle g = true) sampled ∧
           Forall (λ g, ∃ seed, g = generate_example (n_states dataset) seed
                                      path_length order) sampled)) in Hagg.
  - destruct Hagg as (sampled & Hatt & Hlen & Hgraphs & Hgen). simpl in *.
    unfold range in Hlen. rewrite length_seq in Hlen. by exists sampled.
  - exists []. simpl. by rewrite app_nil_r.
  - intros xs x [[agg1 graphs1] w1] [[agg2 graphs2] w2]
      (sampled & Hatt & Hlen & Hgraphs & Hgen) Hstep. simpl in *.
    apply aggregate_step_inv in Hstep as (g & Hseed & Hw & Hcase).
    exists (sampled ++ [g]). rewrite Hw, Hatt, <- app_assoc, !length_app. simpl.
    split; [done|]. split; [lia|]. split.
    + rewrite filter_app.
      destruct Hcase as [(Hrej & _ & ->)|(Hacc & -> & _)].
      * rewrite filter_cons_False, filter_nil, app_nil_r by congruence. done.
      * rewrite filter_cons_True, filter_nil by done. by rewrite Hgraphs.
    + apply Forall_app. split; [done|]. by repeat constructor.
Qed.

(** C9. The loop makes exactly [n_samples] attempts: the instances
    generated during the call are [n_samples] many, the accepted ones are
    those among them that the oracle accepts, in order, so they are at
    most [n_samples]; and the call returns whenever every accepted
    instance's cache has the requested keys. *)
Theorem aggregate_attempts keys (n_samples : nat) path_length order
    (w : AggWorld RngState Graph) :
  (∀ agg graphs w',
     aggregate keys n_samples path_length order w = Some (agg, graphs, w') →
     ∃ sampled : list Graph,
       attempts w' = attempts w ++ sampled ∧
       length sampled = n_samples ∧
       graphs = filter (λ g, oracle g = true) sampled ∧
       (length graphs ≤ n_samples)%nat) ∧
  ((∀ g key, oracle g = true → key ∈ keys → is_Some (cache_of g !! key)) →
   is_Some (aggregate keys n_samples path_length order w)).
Proof.
  split.
  - intros agg graphs w' Hagg.
    apply aggregate_sampled in Hagg as (sampled & Hatt & Hlen & Hgraphs & _).
    exists sampled. repeat split; try done.
    rewrite Hgraphs, <- Hlen. apply length_filter.
  - intros Hcache. unfold aggregate_activations.
    apply (foldM_is_Some (λ st, ∀ key, key ∈ keys → is_Some (st.1.1 !! key))).
    + intros key Hkey. simpl. rewrite lookup_empty_lists by done. by eexists.
    + intros [[agg1 graphs1] w1] x _ Hinv. simpl in Hinv.
      unfold aggregate_step.
      destruct (randint _ _ _) as [seed rng'].
      set (g := generate_example _ _ _ _).
      destruct (is_model_correct model dataset g) eqn:Hcorrect; simpl.
      * specialize (Hcache g).
        destruct (get_example_cache g model dataset) as [labels cache]. simpl in *.
        destruct (record_activations_is_Some cache keys agg1) as (agg' & -> & Hkeep);
          [by auto|done|].
        simpl. eexists. split; [done|]. simpl. auto.
      * eexists. split; [done|]. done.
Qed.

(** C8, as the code has it.  Every instance returned was accepted by
    the oracle; and when the requested probe points are pairwise
    distinct, the list kept for a probe point has one tensor per returned
    instance, the i-th being the activation of the i-th instance at that
    probe point. *)
Theorem aggregate_parallel keys (n_samples : nat) path_length order
    (w w' : AggWorld RngState Graph) agg graphs :
  aggregate keys n_samples path_length order w = Some (agg, graphs, w') →
  Forall (λ g, oracle g = true) graphs ∧
  (NoDup keys →
   ∀ key, key ∈ keys →
     ∃ acts : list (Tensor3 R),
       agg !! key = Some acts ∧ length acts = length graphs ∧
       ∀ i g, graphs !! i = Some g → acts !! i = cache_of g !! key ∧ is_Some (acts !! i)).
Proof.
  intros Hagg. unfold aggregate_activations in Hagg.
  apply (foldM_rel (λ (_ : list nat) st,
           Forall (λ g, oracle g = true) st.1.2 ∧
           (NoDup keys → ∀ key, key ∈ keys →
              ∃ acts : list (Tensor3 R),
                st.1.1 !! key = Some acts ∧
                Forall2 (λ act g, cache_of g !! key = Some act) acts st.1.2))) in Hagg.
  - destruct Hagg as [Horacle Hpar]. simpl in *. split; [done|].
    intros Hnd key Hkey. destruct (Hpar Hnd key Hkey) as (acts & Hacts & Hall).
    exists acts. split; [done|]. split; [by eapply Forall2_length|].
    intros i g Hg. destruct (Forall2_lookup_r _ _ _ _ _ Hall Hg) as (act & Hact & Hc).
    rewrite Hact, Hc. split; [done|by eexists].
  - simpl. split; [constructor|]. intros _ key Hkey.
    exists []. rewrite lookup_empty_lists by done. split; [done|constructor].
  - intros xs x [[agg1 graphs1] w1] [[agg2 graphs2] w2] [Horacle Hpar] Hstep. simpl in *.
    apply aggregate_step_inv in Hstep as (g & _ & Hw & Hcase).
    destruct Hcase as [(Hrej & -> & ->)|(Hacc & -> & Hrec)]; [done|].
    split.
    + apply Forall_app. split; [done|]. by repeat constructor.
    + intros Hnd key Hkey. destruct (Hpar Hnd key Hkey) as (acts & Hacts & Hall).
      destruct (record_activations_lookup _ _ _ _ Hnd Hrec key) as [Hin _].
      destruct (Hin Hkey) as (act & acc & Hc & Ha & Ha').
      rewrite Hacts in Ha. injection Ha as <-.
      exists (acts ++ [act]). split; [done|].
      apply Forall2_app; [done|]. by repeat constructor.
Qed.

End AggregationFacts.

Lemma aggregate_attempts_witness :
  ∃ agg graphs w',
    aggregate_activations toy_randint toy_generate_example toy_is_model_correct
      toy_get_example_cache toy_model toy_dataset (tuned_lens_keys 2) 3 None "random"
      toy_world = Some (agg, graphs, w') ∧
    ∃ sampled : list (list Z),
      attempts w' = attempts toy_world ++ sampled ∧
      length sampled = 3%nat ∧
      graphs = filter (λ g, toy_is_model_correct toy_model toy_dataset g = true) sampled ∧
      (length graphs ≤ 3)%nat.
Proof.
  eexists _, _, _. split; [vm_compute; reflexivity|].
  eapply (proj1 (aggregate_attempts toy_randint toy_generate_example toy_is_model_correct
                  toy_get_example_cache toy_model toy_dataset (tuned_lens_keys 2) 3 None
                  "random" toy_world)).
  vm_compute; reflexivity.
Defined.

Example toy_aggregate_skips_rejected :
  (λ '(_, graphs, w'), (graphs, attempts w')) <$>
    aggregate_activations toy_randint toy_generate_example toy_is_model_correct
      toy_get_example_cache toy_model toy_dataset (tuned_lens_keys 2) 3 None "random"
      toy_world
  = Some ([[0; 1; 2; 0; 1; 3; 3; 3]; [0; 1; 2; 0; 1; 3; 3; 3]],
          [[0; 1; 2; 0; 1; 3; 3; 3]; [1; 0; 2; 1; 0; 0; 3; 3]; [0; 1; 2; 0; 1; 3; 3; 3]]).
Proof. vm_compute; reflexivity. Qed.

Lemma aggregate_parallel_witness :
  ∃ agg graphs w',
    aggregate_activations toy_randint toy_generate_example toy_is_model_correct
      toy_get_example_cache toy_model toy_dataset (tuned_lens_keys 2) 3 None "random"
      toy_world = Some (agg, graphs, w') ∧
    Forall (λ g, toy_is_model_correct toy_model toy_dataset g = true) graphs ∧
    (NoDup (tuned_lens_keys 2) →
     ∀ key, key ∈ tuned_lens_keys 2 →
       ∃ acts : list (Tensor3 Q),
         agg !! key = Some acts ∧ length acts = length graphs ∧
         ∀ i g, graphs !! i = Some g →
           acts !! i = (toy_get_example_cache g toy_model toy_dataset).2 !! key ∧
           is_Some (acts !! i)).
Proof.
  eexists _, _, _. split; [vm_compute; reflexivity|].
  eapply (aggregate_parallel toy_randint toy_generate_example toy_is_model_correct
           toy_get_example_cache toy_model toy_dataset (tuned_lens_keys 2) 3 None
           "random" toy_world).
  vm_compute; reflexivity.
Defined.

(** C8, as stated, fails when a probe point is requested twice: one
    instance is accepted, two tensors are kept for the probe point. *)
Lemma aggregate_duplicate_key_counterexample :
  ∃ agg graphs w',
    aggregate_activations toy_randint toy_generate_example toy_is_model_correct
      toy_get_example_cache toy_model toy_dataset
      ["ln_final.hook_normalized"; "ln_final.hook_normalized"] 1 None "backward"
      toy_world = Some (agg, graphs, w') ∧
    ¬ (∀ key, key ∈ ["ln_final.hook_normalized"; "ln_final.hook_normalized"] →
         ∃ acts : list (Tensor3 Q),
           agg !! key = Some acts ∧ length acts = length graphs).
Proof.
  eexists _, _, _. split; [vm_compute; reflexivity|].
  intros Hall.
  destruct (Hall "ln_final.hook_normalized") as (acts & Hacts & Hlen);
    [by left|].
  vm_compute in Hacts. injection Hacts as <-. discriminate Hlen.
Qed.

(** ** The lens decoder *)

Section LensFacts.
Context {R : Type} `{Scalar R} {Graph : Type}.
Variable argmax : Tensor1 R → Z.
Variable softmax : Tensor1 R → Tensor1 R.
Variable num_last : list string → string → Z.
Variable get_example_cache :
  Graph → HookedTransformer R → Dataset Graph → list string * gmap string (Tensor3 R).

(** A loop whose body only reads the cache is a [mapM] next to the
    untouched cache. *)
Lemma lens_for_reads {A B} (l : list A) (body : A → LensM R B) (g : A → option B)
    (cache : gmap string (Tensor3 R)) :
  (∀ x, x ∈ l → body x cache = (g x, cache)) →
  lens_for l body cache = (mapM g l, cache).
Proof.
  induction l as [|x l IH]; intros Hbody; [done|].
  cbn [lens_for]. unfold lens_bind at 1. rewrite Hbody by left.
  unfold mapM; fold (mapM g l). (* the recursive call of [mapM] *)
  destruct (g x) as [y|]; [|done]. cbn [mbind option_bind].
  unfold lens_bind. rewrite IH by (intros; apply Hbody; by right).
  by destruct (mapM g l).
Qed.

Lemma lens_project_models (model model' : HookedTransformer R)
    (lenses : option (gmap string (Tensor2 R))) (act_name : string) (res : Tensor2 R) :
  W_U model' = W_U model →
  lens_project model' lenses act_name res = lens_project model lenses act_name res.
Proof. intros HW. unfold lens_project. by rewrite HW. Qed.

(** One row of the table, as a function of the probed cache entry. *)
Lemma logit_lens_layer_reads (model : HookedTransformer R) (dataset : Dataset Graph)
    lenses (end_ : Z) (layer : nat) (cache : gmap string (Tensor3 R)) :
  logit_lens_layer argmax model dataset lenses end_ layer cache
  = (act ← cache !! lens_act_name (n_layers model) layer;
     res_stream ← py_index act 0;
     out_proj ← lens_project model lenses (lens_act_name (n_layers model) layer) res_stream;
     lens_out ← mapM (idx2tokens dataset) (argmax <$> out_proj);
     Some (("Layer " +:+ pretty layer +:+ " LL") :: py_slice lens_out 47 end_),
     cache).
Proof.
  unfold logit_lens_layer, lens_bind, cache_get, lens_lift, lens_ret.
  destruct (cache !! _) as [act|]; [|done]. cbn [mbind option_bind].
  destruct (py_index act 0) as [res|]; [|done]. cbn [mbind option_bind].
  destruct (lens_project _ _ _ _) as [out|]; [|done]. cbn [mbind option_bind].
  by destruct (mapM _ _).
Qed.

(** One probability, as a function of the probed cache entry. *)
Lemma correct_prob_layer_reads (model : HookedTransformer R) lenses
    (position correct_token_idx : Z) (layer : nat) (cache : gmap string (Tensor3 R)) :
  correct_prob_layer softmax model lenses position correct_token_idx layer cache
  = (act ← cache !! lens_act_name (n_layers model) layer;
     res_stream ← py_index act 0;
     out_proj ← lens_project model lenses (lens_act_name (n_layers model) layer) res_stream;
     py_index (softmax <$> out_proj) position ≫= λ row, py_index row correct_token_idx,
     cache).
Proof.
  unfold correct_prob_layer, lens_bind, cache_get, lens_lift, lens_ret.
  destruct (cache !! _) as [act|]; [|done]. cbn [mbind option_bind].
  destruct (py_index act 0) as [res|]; [|done]. cbn [mbind option_bind].
  by destruct (lens_project _ _ _ _).
Qed.

Lemma mapM_ext_in {A B} (f g : A → option B) (l : list A) :
  (∀ x, x ∈ l → f x = g x) → mapM f l = mapM g l.
Proof.
  induction l as [|x l IH]; intros Hfg; [done|].
  unfold mapM; fold (mapM f l); fold (mapM g l).
  rewrite (Hfg x) by left. rewrite IH; [done|]. intros; apply Hfg; by right.
Qed.

(** The table, as a function of the probed cache entries. *)
Lemma logit_lens_table_reads (model : HookedTransformer R) (dataset : Dataset Graph)
    lenses (labels : list string) (cache : gmap string (Tensor3 R)) :
  logit_lens_table argmax num_last model dataset lenses labels cache
  = (outs ← mapM (λ layer,
                    (logit_lens_layer argmax model dataset lenses
                       (num_last labels ",") layer cache).1)
               (seq 1 (n_layers model));
     Some ("Current Input" :: py_slice labels 47 (num_last labels ","), transpose outs),
     cache).
Proof.
  unfold logit_lens_table, lens_bind.
  rewrite (lens_for_reads _ _
             (λ layer, (logit_lens_layer argmax model dataset lenses
                          (num_last labels ",") layer cache).1)).
  - by destruct (mapM _ _).
  - intros layer _. by rewrite logit_lens_layer_reads.
Qed.

(** The probabilities, as a function of the probed cache entries. *)
Lemma correct_probs_reads (model : HookedTransformer R) (dataset : Dataset Graph)
    lenses (labels : list string) (position : Z) (cache : gmap string (Tensor3 R)) :
  correct_probs softmax model dataset lenses labels position cache
  = (correct_token ← py_index labels (position + 1);
     correct_token_idx ← tokens2idx dataset correct_token;
     probs ← mapM (λ layer,
                     (correct_prob_layer softmax model lenses position correct_token_idx
                        layer cache).1)
                (seq 1 (n_layers model));
     _ ← py_index labels position;
     Some probs,
     cache).
Proof.
  unfold correct_probs, lens_bind, lens_lift, lens_ret.
  destruct (py_index labels (position + 1)) as [tok|]; [|done]. cbn [mbind option_bind].
  destruct (tokens2idx dataset tok) as [idx|]; [|done]. cbn [mbind option_bind].
  rewrite (lens_for_reads _ _
             (λ layer, (correct_prob_layer softmax model lenses position idx
                          layer cache).1)).
  - destruct (mapM _ _); [|done]. cbn [mbind option_bind].
    by destruct (py_index labels position).
  - intros layer _. by rewrite correct_prob_layer_reads.
Qed.

(** C4. Decoding leaves the cache as [get_example_cache] returned it, in
    both modes; and its outcome is a function of the labels, of the cache
    entries at the probed points and of the lens matrices: any model with
    the same layer count and unembedding, whatever its forward pass, and
    any cache with the same entries at the probed points give the same
    table and the same probabilities. *)
Theorem lens_decoding_pure (pred : Graph) (model : HookedTransformer R)
    (dataset : Dataset Graph) (lenses : option (gmap string (Tensor2 R))) (position : Z) :
  let labels := (get_example_cache pred model dataset).1 in
  let cache := (get_example_cache pred model dataset).2 in
  (logit_lens argmax num_last get_example_cache pred model dataset lenses).2 = cache ∧
  (logit_lens_correct_probs softmax get_example_cache pred model dataset position lenses).2
  = cache ∧
  ∀ (model' : HookedTransformer R) (cache' : gmap string (Tensor3 R)),
    n_layers model' = n_layers model →
    W_U model' = W_U model →
    (∀ layer, (1 ≤ layer ≤ n_layers model)%nat →
       cache' !! lens_act_name (n_layers model) layer
       = cache !! lens_act_name (n_layers model) layer) →
    (logit_lens_table argmax num_last model' dataset lenses labels cache').1
    = (logit_lens argmax num_last get_example_cache pred model dataset lenses).1 ∧
    (correct_probs softmax model' dataset lenses labels position cache').1
    = (logit_lens_correct_probs softmax get_example_cache pred model dataset
         position lenses).1.
Proof.
  unfold logit_lens, logit_lens_correct_probs.
  destruct (get_example_cache pred model dataset) as [labels cache]. cbn [fst snd].
  split; [by rewrite logit_lens_table_reads|].
  split; [by rewrite correct_probs_reads|].
  intros model' cache' Hn HW Hcache.
  rewrite !logit_lens_table_reads, !correct_probs_reads. cbn [fst]. rewrite Hn. split.
  - f_equal. apply mapM_ext_in. intros layer [Hlo Hhi]%elem_of_seq.
    rewrite !logit_lens_layer_reads. cbn [fst]. rewrite Hn, Hcache by lia.
    destruct (cache !! _) as [act|]; [|done]. cbn [mbind option_bind].
    destruct (py_index act 0) as [res|]; [|done]. cbn [mbind option_bind].
    by rewrite (lens_project_models model model' _ _ _ HW).
  - destruct (py_index labels (position + 1)) as [tok|]; [|done]. cbn [mbind option_bind].
    destruct (tokens2idx dataset tok) as [idx|]; [|done]. cbn [mbind option_bind].
    f_equal. apply mapM_ext_in. intros layer [Hlo Hhi]%elem_of_seq.
    rewrite !correct_prob_layer_reads. cbn [fst]. rewrite Hn, Hcache by lia.
    destruct (cache !! _) as [act|]; [|done]. cbn [mbind option_bind].
    destruct (py_index act 0) as [res|]; [|done]. cbn [mbind option_bind].
    by rewrite (lens_project_models model model' _ _ _ HW).
Qed.

End LensFacts.

Example toy_logit_lens_table :
  (logit_lens toy_argmax toy_num_last toy_get_example_cache
     [0; 1; 2; 0; 1; 3; 3; 3] toy_model toy_dataset None).1
  = Some (["Current Input"], [["Layer 1 LL"; "Layer 2 LL"]]).
Proof. vm_compute; reflexivity. Qed.

Example toy_correct_probs :
  (logit_lens_correct_probs toy_softmax toy_get_example_cache
     [0; 1; 2; 0; 1; 3; 3; 3] toy_model toy_dataset 3 None).1
  = Some [1 # 4; 9 # 32]%Q.
Proof. vm_compute; reflexivity. Qed.

Lemma lens_decoding_pure_witness :
  (logit_lens_table toy_argmax toy_num_last toy_model_blind toy_dataset None
     (toy_get_example_cache [0; 1; 2; 0; 1; 3; 3; 3] toy_model toy_dataset).1
     (toy_get_example_cache [0; 1; 2; 0; 1; 3; 3; 3] toy_model toy_dataset).2).1
  = (logit_lens toy_argmax toy_num_last toy_get_example_cache
       [0; 1; 2; 0; 1; 3; 3; 3] toy_model toy_dataset None).1 ∧
  (correct_probs toy_softmax toy_model_blind toy_dataset None
     (toy_get_example_cache [0; 1; 2; 0; 1; 3; 3; 3] toy_model toy_dataset).1 3
     (toy_get_example_cache [0; 1; 2; 0; 1; 3; 3; 3] toy_model toy_dataset).2).1
  = (logit_lens_correct_probs toy_softmax toy_get_example_cache
       [0; 1; 2; 0; 1; 3; 3; 3] toy_model toy_dataset 3 None).1.
Proof.
  apply (lens_decoding_pure toy_argmax toy_softmax toy_num_last toy_get_example_cache
           [0; 1; 2; 0; 1; 3; 3; 3] toy_model toy_dataset None 3);
    reflexivity.
Defined.

(** ** Matrices *)

Section Matrices.
Context {A : Type}.
Implicit Types (W : list (list A)).

(** Column [j] of a matrix whose rows are long enough. *)
Lemma column_lookup W (j : nat) :
  Forall (λ r, (j < length r)%nat) W →
  length (omap (λ r : list A, r !! j) W) = length W ∧
  ∀ i r, W !! i = Some r → omap (λ r : list A, r !! j) W !! i = r !! j.
Proof.
  induction 1 as [|r W Hr HW [IHlen IH]]; [done|].
  destruct (lookup_lt_is_Some_2 r j Hr) as [x Hx].
  cbn [omap list_omap]. rewrite Hx. cbn [length]. split; [by rewrite IHlen|].
  intros [|i] r' Hi; simpl in Hi.
  - injection Hi as <-. by rewrite Hx.
  - by apply IH.
Qed.

Lemma transpose_lookup W (rows cols : nat) (j : nat) :
  length W = rows → (0 < rows)%nat → Forall (λ r, length r = cols) W → (j < cols)%nat →
  transpose W !! j = Some (omap (λ r : list A, r !! j) W).
Proof.
  intros Hrows Hpos Hcols Hj. destruct W as [|r W]; [simpl in *; lia|].
  unfold transpose. rewrite list_lookup_fmap.
  rewrite lookup_seq_lt; [done|]. apply Forall_cons in Hcols as [-> _]. done.
Qed.

(** A [rows × cols] matrix transposes to a [cols × rows] matrix. *)
Lemma transpose_shape W (rows cols : nat) :
  length W = rows → (0 < rows)%nat → Forall (λ r, length r = cols) W →
  length (transpose W) = cols ∧ Forall (λ c, length c = rows) (transpose W).
Proof.
  intros Hrows Hpos Hcols. split.
  - destruct W as [|r W]; [simpl in *; lia|]. unfold transpose.
    rewrite length_fmap, length_seq. by apply Forall_cons in Hcols as [-> _].
  - destruct W as [|r W]; [constructor|]. unfold transpose.
    apply Forall_fmap, Forall_forall. intros j Hj%elem_of_seq. unfold compose.
    assert (Hlt : Forall (λ r0 : list A, (j < length r0)%nat) (r :: W)).
    { eapply Forall_impl; [done|]. simpl. intros r0 ->.
      apply Forall_cons in Hcols as [<- _]. lia. }
    destruct (column_lookup (r :: W) j Hlt) as [-> _]. done.
Qed.

Lemma transpose_involutive W (rows cols : nat) :
  length W = rows → (0 < rows)%nat → (0 < cols)%nat → Forall (λ r, length r = cols) W →
  transpose (transpose W) = W.
Proof.
  intros Hrows Hpos Hcpos Hcols.
  destruct (transpose_shape W rows cols Hrows Hpos Hcols) as [Hlen Hshape].
  assert (Hcol : ∀ j, (j < cols)%nat → Forall (λ r : list A, (j < length r)%nat) W).
  { intros j Hj. eapply Forall_impl; [done|]. simpl. intros r ->. done. }
  apply list_eq. intros i.
  destruct (decide (i < rows)%nat) as [Hi|Hi].
  - rewrite (transpose_lookup (transpose W) cols rows i) by done.
    destruct (lookup_lt_is_Some_2 W i) as [r Hr]; [lia|]. rewrite Hr. f_equal.
    assert (Hrlen : length r = cols).
    { rewrite Forall_lookup in Hcols. by eapply Hcols. }
    apply list_eq. intros j.
    destruct (decide (j < cols)%nat) as [Hj|Hj].
    + assert (Hrow : Forall (λ c : list A, (i < length c)%nat) (transpose W)).
      { eapply Forall_impl; [done|]. simpl. intros c ->. done. }
      destruct (column_lookup (transpose W) i Hrow) as [_ Hget].
      rewrite (Hget j _ (transpose_lookup W rows cols j Hrows Hpos Hcols Hj)).
      destruct (column_lookup W j (Hcol j Hj)) as [_ Hget']. by apply Hget'.
    + assert (Hrow : Forall (λ c : list A, (i < length c)%nat) (transpose W)).
      { eapply Forall_impl; [done|]. simpl. intros c ->. done. }
      destruct (column_lookup (transpose W) i Hrow) as [Hl _].
      rewrite !lookup_ge_None_2; [done|lia|lia].
  - rewrite (lookup_ge_None_2 W) by lia. apply lookup_ge_None_2.
    destruct (transpose W) as [|c T] eqn:HT; [simpl in *; lia|].
    unfold transpose. rewrite length_fmap, length_seq.
    apply Forall_cons in Hshape as [-> _]. lia.
Qed.

End Matrices.

(** ** The calibrator *)

Lemma tuned_lens_keys_cons (n : nat) : ∃ key keys, tuned_lens_keys n = key :: keys.
Proof. unfold tuned_lens_keys. destruct (_ <$> _) as [|k ks]; simpl; eauto. Qed.

Lemma get_act_name_normalized_inj (l1 l2 : nat) :
  get_act_name "normalized" l1 (Some "ln1") = get_act_name "normalized" l2 (Some "ln1") →
  l1 = l2.
Proof.
  unfold get_act_name. intros Heq.
  apply (inj (String.append "blocks.")) in Heq.
  apply string_app_inj_r in Heq. by apply (inj pretty) in Heq.
Qed.

(** The probe points of the calibrator are pairwise distinct, so the
    list is the key sequence of the dict built from it. *)
Lemma tuned_lens_keys_NoDup (n : nat) : NoDup (tuned_lens_keys n).
Proof.
  unfold tuned_lens_keys. apply NoDup_app. split; [|split].
  - apply NoDup_fmap_2_strong; [|apply NoDup_seq].
    intros l1 l2 _ _. apply get_act_name_normalized_inj.
  - intros key (l & -> & _)%list_elem_of_fmap Hin%list_elem_of_singleton.
    unfold get_act_name in Hin. discriminate Hin.
  - apply NoDup_singleton.
Qed.

Section CalibrationFacts.
Context {R : Type} `{Scalar R} {Graph RngState : Type}.
Variable randint : Z → Z → RngState → Z * RngState.
Variable generate_example : Z → Z → option Z → string → Graph.
Variable is_model_correct : HookedTransformer R → Dataset Graph → Graph → bool.
Variable get_example_cache :
  Graph → HookedTransformer R → Dataset Graph → list string * gmap string (Tensor3 R).
Variable num_last : list string → string → Z.
Variable LinearClsProbe_fit : bool → Tensor2 R → list Z → option (Tensor2 R).

Abbreviation calibrate :=
  (calculate_tuned_lens randint generate_example is_model_correct get_example_cache
     num_last LinearClsProbe_fit).

(** With no accepted example there is nothing to concatenate. *)
Lemma calibration_dataset_no_example (dataset : Dataset Graph)
    (acts : gmap string (list (Tensor3 R))) (n : nat) :
  calibration_dataset num_last dataset acts (tuned_lens_keys n) [] = None.
Proof.
  unfold calibration_dataset. cbn [length seq zip zip_with foldM mbind option_bind].
  destruct (tuned_lens_keys_cons n) as (key & keys & Hkeys). rewrite Hkeys.
  cbn [foldM]. rewrite (lookup_empty_lists (key :: keys) key) by left. done.
Qed.

(** A calibration that returns went through aggregation, dataset and
    fits, on the probe points of the calibrator. *)
Lemma calculate_tuned_lens_inv (model : HookedTransformer R) (dataset : Dataset Graph)
    (w w' : AggWorld RngState Graph) (translators : gmap string (Tensor2 R)) :
  calibrate model dataset w = Some (translators, w') →
  ∃ acts graphs X y,
    aggregate_activations randint generate_example is_model_correct get_example_cache
      model dataset (tuned_lens_keys (n_layers model)) 16384 None "random" w
    = Some (acts, graphs, w') ∧
    calibration_dataset num_last dataset acts (tuned_lens_keys (n_layers model)) graphs
    = Some (X, y) ∧
    fit_translators LinearClsProbe_fit (tuned_lens_keys (n_layers model)) X y
    = Some translators.
Proof.
  unfold calculate_tuned_lens. intros Hcal.
  destruct (aggregate_activations _ _ _ _ _ _ _ _ _ _ _) as [[[acts graphs] w1]|] eqn:Hagg;
    [|done].
  cbn [mbind option_bind] in Hcal.
  destruct (calibration_dataset _ _ _ _ _) as [[X y]|] eqn:Hdata; [|done].
  cbn [mbind option_bind] in Hcal.
  destruct (fit_translators _ _ _ _) as [tr|] eqn:Hfit; [|done].
  injection Hcal as <- <-. by exists acts, graphs, X, y.
Qed.

(** C10. When the oracle rejects every instance the generator can make,
    the calibration raises; and a calibration that returns lenses has
    aggregated at least one accepted instance. *)
Theorem calculate_tuned_lens_needs_accepted (model : HookedTransformer R)
    (dataset : Dataset Graph) (w : AggWorld RngState Graph) :
  ((∀ seed, is_model_correct model dataset
              (generate_example (n_states dataset) seed None "random") = false) →
   calibrate model dataset w = None) ∧
  (∀ translators w', calibrate model dataset w = Some (translators, w') →
     ∃ acts graphs,
       aggregate_activations randint generate_example is_model_correct get_example_cache
         model dataset (tuned_lens_keys (n_layers model)) 16384 None "random" w
       = Some (acts, graphs, w') ∧ graphs ≠ []).
Proof.
  split.
  - intros Hreject. unfold calculate_tuned_lens.
    destruct (aggregate_activations _ _ _ _ _ _ _ _ _ _ _) as [[[acts graphs] w']|] eqn:Hagg;
      [|done].
    apply aggregate_sampled in Hagg as (sampled & _ & _ & Hgraphs & Hgen).
    assert (graphs = []) as ->.
    { rewrite Hgraphs. clear Hgraphs. induction Hgen as [|g sampled Hg _ IH]; [done|].
      destruct Hg as [seed ->].
      rewrite filter_cons_False; [done|]. rewrite Hreject. done. }
    cbn [mbind option_bind]. by rewrite calibration_dataset_no_example.
  - intros translators w' Hcal. unfold calculate_tuned_lens in Hcal.
    destruct (aggregate_activations _ _ _ _ _ _ _ _ _ _ _) as [[[acts graphs] w1]|] eqn:Hagg;
      [|done].
    cbn [mbind option_bind] in Hcal.
    destruct graphs as [|g graphs].
    { by rewrite calibration_dataset_no_example in Hcal. }
    destruct (calibration_dataset _ _ _ _ _) as [[X y]|]; [|done].
    cbn [mbind option_bind] in Hcal.
    destruct (fit_translators _ _ _ _) as [tr|]; [|done].
    injection Hcal as <- <-. by exists acts, (g :: graphs).
Qed.

End CalibrationFacts.

Section Translators.
Context {R : Type} `{Scalar R}.
Variable LinearClsProbe_fit : bool → Tensor2 R → list Z → option (Tensor2 R).

(** C7. For every probe point the lens stored is the transpose of the
    weight matrix of a probe fitted without intercept on the rows of
    that probe point and the common labels, and nothing else is stored;
    a [vocab × hidden] weight matrix gives a [hidden × vocab] lens, and a
    residual vector times the lens is the vector of its products with the
    weight rows.  The fits succeeding, the lenses are returned. *)
Theorem fit_translators_spec (keys : list string) (X : gmap string (Tensor2 R))
    (y : list Z) :
  (∀ translators, fit_translators LinearClsProbe_fit keys X y = Some translators →
     (∀ key, key ∉ keys → translators !! key = None) ∧
     ∀ key, key ∈ keys →
       ∃ rows W,
         X !! key = Some rows ∧
         LinearClsProbe_fit false rows y = Some W ∧
         translators !! key = Some (transpose W) ∧
         ∀ vocab hidden : nat,
           length W = vocab → Forall (λ r, length r = hidden) W →
           (0 < vocab)%nat → (0 < hidden)%nat →
           length (transpose W) = hidden ∧
           Forall (λ c, length c = vocab) (transpose W) ∧
           ∀ x : Tensor1 R, length x = hidden →
             matmul [x] (transpose W) = Some [dot x <$> W]) ∧
  ((∀ key, key ∈ keys →
      ∃ rows, X !! key = Some rows ∧ is_Some (LinearClsProbe_fit false rows y)) →
   is_Some (fit_translators LinearClsProbe_fit keys X y)).
Proof.
  split.
  - intros translators Hfit. unfold fit_translators in Hfit.
    apply (foldM_rel (λ xs (tr : gmap string (Tensor2 R)),
             (∀ key, key ∉ xs → tr !! key = None) ∧
             ∀ key, key ∈ xs →
               ∃ rows W, X !! key = Some rows ∧
                         LinearClsProbe_fit false rows y = Some W ∧
                         tr !! key = Some (transpose W))) in Hfit.
    + destruct Hfit as [Hout Hin]. split; [done|]. intros key Hkey.
      destruct (Hin key Hkey) as (rows & W & HX & HW & Htr).
      exists rows, W. repeat split; try done.
      * by eapply transpose_shape.
      * by eapply transpose_shape.
      * intros x Hx. unfold matmul.
        destruct (transpose_shape W vocab hidden) as [Hlen _]; try done.
        rewrite decide_True by (repeat constructor; lia).
        by rewrite fmap_cons, (transpose_involutive W vocab hidden).
    + split; [done|]. by intros key ?%elem_of_nil.
    + intros xs x tr tr' [Hout Hin] Hstep.
      destruct (X !! x) as [rows|] eqn:HX; simpl in Hstep; [|done].
      destruct (LinearClsProbe_fit false rows y) as [W|] eqn:HW; simpl in Hstep; [|done].
      injection Hstep as <-. split.
      * intros key Hkey. rewrite lookup_insert_ne; [apply Hout|]; set_solver.
      * intros key [Hkey|Hx%list_elem_of_singleton]%elem_of_app.
        -- destruct (decide (x = key)) as [->|Hne].
           ++ exists rows, W. by rewrite lookup_insert_eq.
           ++ rewrite lookup_insert_ne by done. by apply Hin.
        -- subst key. exists rows, W. by rewrite lookup_insert_eq.
  - intros Hfits. unfold fit_translators.
    apply (foldM_is_Some (λ _, True)); [done|].
    intros tr key Hkey _. destruct (Hfits key Hkey) as (rows & HX & [W HW]).
    rewrite HX. cbn [mbind option_bind]. rewrite HW. by eexists.
Qed.

End Translators.

(** ** The calibration dataset *)

Lemma enumerate_lookup {A} (l : list A) (i j : nat) (x : A) :
  zip (seq 0 (length l)) l !! i = Some (j, x) → j = i ∧ l !! i = Some x.
Proof.
  rewrite lookup_zip_with. intros Hz.
  destruct (seq 0 (length l) !! i) as [j'|] eqn:Hj; simpl in Hz; [|done].
  destruct (l !! i) as [x'|] eqn:Hx; simpl in Hz; [|done].
  injection Hz as <- <-. apply lookup_seq in Hj as [-> _]. done.
Qed.

Section Slices.
Context {A B : Type}.

(** Rows sliced one position to the left of the labels pair, in order,
    the row at every position [p] of the span with the label at
    position [p + 1]; both slices have one entry per such position. *)
Lemma shifted_slices_positions (rows : list A) (tokens : list B) (marker : nat)
    (end_idx : Z) :
  1 ≤ end_idx ≤ Z.of_nat (length tokens) →
  end_idx - 1 ≤ Z.of_nat (length rows) →
  length (py_slice rows (Z.of_nat marker + 2 - 1) (end_idx - 1))
  = length (py_slice tokens (Z.of_nat marker + 2) end_idx) ∧
  Forall2 (λ p (pair : A * B),
             rows !! p = Some pair.1 ∧ tokens !! (p + 1)%nat = Some pair.2)
          (span_positions marker end_idx)
          (zip (py_slice rows (Z.of_nat marker + 2 - 1) (end_idx - 1))
               (py_slice tokens (Z.of_nat marker + 2) end_idx)).
Proof.
  intros He Hrows. set (start_idx := Z.of_nat marker + 2).
  assert (Hb1 : py_slice_bound (length tokens) end_idx = Z.to_nat end_idx)
    by (apply py_slice_bound_in; lia).
  assert (Hb2 : py_slice_bound (length rows) (end_idx - 1) = Z.to_nat (end_idx - 1))
    by (apply py_slice_bound_in; lia).
  assert (Ha1 : py_slice_bound (length tokens) start_idx
                = Z.to_nat (Z.min start_idx (Z.of_nat (length tokens)))).
  { unfold py_slice_bound. by rewrite decide_False by lia. }
  assert (Ha2 : py_slice_bound (length rows) (start_idx - 1)
                = Z.to_nat (Z.min (start_idx - 1) (Z.of_nat (length rows)))).
  { unfold py_slice_bound. by rewrite decide_False by lia. }
  assert (Hlen : length (py_slice rows (start_idx - 1) (end_idx - 1))
                 = length (py_slice tokens start_idx end_idx)).
  { rewrite !py_slice_length, Hb1, Hb2, Ha1, Ha2. lia. }
  split; [done|].
  apply Forall2_same_length_lookup_2.
  - unfold span_positions. rewrite length_seq, length_zip, <- Hlen, Nat.min_id.
    rewrite py_slice_length, Hb2, Ha2. lia.
  - intros i p [row label] Hp Hpair. unfold span_positions in Hp.
    apply lookup_seq in Hp as [-> Hi].
    apply lookup_zip_with_Some in Hpair as (row' & label' & [= <- <-] & Hrow & Hlabel).
    rewrite py_slice_lookup in Hrow by (by eapply lookup_lt_Some).
    rewrite py_slice_lookup in Hlabel by (by eapply lookup_lt_Some).
    rewrite Ha2 in Hrow. rewrite Ha1 in Hlabel. simpl. split.
    + rewrite <- Hrow. f_equal. lia.
    + rewrite <- Hlabel. f_equal. lia.
Qed.

(** Concatenating pairwise zipped lists of equal lengths. *)
Lemma concat_zip (ls : list (list A)) (ks : list (list B)) :
  Forall2 (λ l k, length l = length k) ls ks →
  (concat (zip_with zip ls ks)).*1 = concat ls ∧
  (concat (zip_with zip ls ks)).*2 = concat ks.
Proof.
  induction 1 as [|l k ls ks Hlen _ [IH1 IH2]]; [done|].
  cbn [zip_with concat]. rewrite !fmap_app, IH1, IH2.
  rewrite fst_zip, snd_zip by lia. done.
Qed.

End Slices.

(** An element of a concatenation lies in one of its parts. *)
Lemma elem_of_concat {A} (x : A) (ls : list (list A)) :
  x ∈ concat ls → ∃ l, x ∈ l ∧ l ∈ ls.
Proof.
  induction ls as [|l ls IH]; simpl; [by intros ?%elem_of_nil|].
  intros [Hx|Hx]%elem_of_app.
  - exists l. split; [done|by left].
  - destruct (IH Hx) as (l' & ? & ?). exists l'. split; [done|by right].
Qed.

Section CalibrationRows.
Context {R Graph : Type}.
Variable num_last : list string → string → Z.
Variable dataset : Dataset Graph.
Variable acts : gmap string (list (Tensor3 R)).

(** The start index is two past the only start marker. *)
Lemma example_span_inv (graph : Graph) (tokens : list Z) (start_idx end_idx : Z) :
  example_span num_last dataset graph = Some (tokens, start_idx, end_idx) →
  ∃ marker : nat,
    tokens = removelast (tokenize dataset graph) ∧
    np_where_item tokens (start_token dataset) = Some (Z.of_nat marker) ∧
    tokens !! marker = Some (start_token dataset) ∧
    start_idx = Z.of_nat marker + 2.
Proof.
  unfold example_span. set (toks := removelast _).
  destruct (np_where_item toks _) as [m|] eqn:Hm; simpl; [|done].
  destruct (mapM _ toks) as [labels|]; simpl; [|done].
  intros [= <- <- <-].
  unfold np_where_item in Hm.
  destruct (filter _ _) as [|i [|? ?]] eqn:Hf; try done.
  injection Hm as <-. exists i. repeat split; try done.
  - unfold np_where_item. by rewrite Hf.
  - assert (Hi : i ∈ filter (λ i, toks !! i = Some (start_token dataset))
                       (seq 0 (length toks))) by (rewrite Hf; left).
    by apply list_elem_of_filter in Hi as [Hi _].
Qed.

(** The streams of one example, one per key. *)
Lemma append_streams_lookup (keys : list string) (gidx : nat) (start_idx end_idx : Z)
    (X X' : gmap string (list (Tensor2 R))) :
  NoDup keys →
  append_streams acts keys gidx start_idx end_idx X = Some X' →
  ∀ key, key ∈ keys →
    ∃ per_example act batch0 acc,
      acts !! key = Some per_example ∧ per_example !! gidx = Some act ∧
      py_index act 0 = Some batch0 ∧ X !! key = Some acc ∧
      X' !! key = Some (acc ++ [py_slice batch0 (start_idx - 1) (end_idx - 1)]).
Proof.
  unfold append_streams. intros Hnd Happ.
  assert (Hgen : ∀ key,
    (key ∈ keys → ∃ per_example act batch0 acc,
        acts !! key = Some per_example ∧ per_example !! gidx = Some act ∧
        py_index act 0 = Some batch0 ∧ X !! key = Some acc ∧
        X' !! key = Some (acc ++ [py_slice batch0 (start_idx - 1) (end_idx - 1)])) ∧
    (key ∉ keys → X' !! key = X !! key)); [|by intros key; apply Hgen].
  revert X Happ. induction Hnd as [|k keys Hk Hnd IH]; intros X Happ key; simpl in Happ.
  { injection Happ as <-. split; [by intros ?%elem_of_nil|done]. }
  destruct (acts !! k) as [per|] eqn:Hper; simpl in Happ; [|done].
  destruct (per !! gidx) as [act|] eqn:Hact; simpl in Happ; [|done].
  destruct (py_index act 0) as [b0|] eqn:Hb0; simpl in Happ; [|done].
  destruct (X !! k) as [acc|] eqn:Hacc; simpl in Happ; [|done].
  destruct (IH _ Happ key) as [Hin Hout]. split.
  - intros [->|Hkey]%elem_of_cons.
    + exists per, act, b0, acc. rewrite (Hout Hk). by rewrite lookup_insert_eq.
    + destruct (Hin Hkey) as (per' & act' & b0' & acc' & ? & ? & ? & Ha & ?).
      exists per', act', b0', acc'.
      rewrite lookup_insert_ne in Ha by (intros ->; done). done.
  - intros Hnin. rewrite Hout by (intros ?; apply Hnin; by right).
    apply lookup_insert_ne. intros ->. apply Hnin. by left.
Qed.

(** What the loop over the examples has collected. *)
Lemma calibration_fold (keys : list string) (ggs : list (nat * Graph))
    (X : gmap string (list (Tensor2 R))) (y : list (list Z)) :
  NoDup keys →
  foldM (calibration_step num_last dataset acts keys) ggs
        (list_to_map ((λ key, (key, [])) <$> keys), []) = Some (X, y) →
  Forall2 (λ gg labels, ∃ tokens start_idx end_idx,
             example_span num_last dataset gg.2 = Some (tokens, start_idx, end_idx) ∧
             labels = py_slice tokens start_idx end_idx) ggs y ∧
  ∀ key, key ∈ keys →
    ∃ parts, X !! key = Some parts ∧
      Forall2 (λ gg streams, ∃ tokens start_idx end_idx per_example act batch0,
                 example_span num_last dataset gg.2 = Some (tokens, start_idx, end_idx) ∧
                 acts !! key = Some per_example ∧ per_example !! gg.1 = Some act ∧
                 py_index act 0 = Some batch0 ∧
                 streams = py_slice batch0 (start_idx - 1) (end_idx - 1)) ggs parts.
Proof.
  intros Hnd Hfold.
  apply (foldM_rel (λ xs (Xy : gmap string (list (Tensor2 R)) * list (list Z)),
    Forall2 (λ gg labels, ∃ tokens start_idx end_idx,
               example_span num_last dataset gg.2 = Some (tokens, start_idx, end_idx) ∧
               labels = py_slice tokens start_idx end_idx) xs Xy.2 ∧
    ∀ key, key ∈ keys →
      ∃ parts, Xy.1 !! key = Some parts ∧
        Forall2 (λ gg streams, ∃ tokens start_idx end_idx per_example act batch0,
                   example_span num_last dataset gg.2 = Some (tokens, start_idx, end_idx) ∧
                   acts !! key = Some per_example ∧ per_example !! gg.1 = Some act ∧
                   py_index act 0 = Some batch0 ∧
                   streams = py_slice batch0 (start_idx - 1) (end_idx - 1)) xs parts))
    in Hfold; [done| |].
  - simpl. split; [constructor|]. intros key Hkey.
    exists []. rewrite lookup_empty_lists by done. split; [done|constructor].
  - intros xs [gidx graph] [X1 y1] [X2 y2] [Hy HX] Hstep. simpl in *.
    destruct (example_span num_last dataset graph) as [[[tokens s] e]|] eqn:Hspan;
      simpl in Hstep; [|done].
    destruct (append_streams acts keys gidx s e X1) as [X'|] eqn:Happ;
      simpl in Hstep; [|done].
    injection Hstep as <- <-. split.
    + apply Forall2_app; [done|]. repeat constructor. simpl. eauto.
    + intros key Hkey. destruct (HX key Hkey) as (parts & Hparts & Hall).
      destruct (append_streams_lookup _ _ _ _ _ _ Hnd Happ key Hkey)
        as (per & act & b0 & acc & Hper & Hact & Hb0 & Hacc & HX').
      rewrite Hparts in Hacc. injection Hacc as <-.
      eexists. split; [done|].
      apply Forall2_app; [done|]. repeat constructor. simpl.
      exists tokens, s, e, per, act, b0. done.
Qed.

(** The concatenation per key. *)
Lemma cat_fold (keys : list string) (X : gmap string (list (Tensor2 R)))
    (Xc : gmap string (Tensor2 R)) :
  foldM (λ Xc key, parts ← X !! key; rows ← cat parts; Some (<[key := rows]> Xc))
        keys (∅ : gmap string (Tensor2 R)) = Some Xc →
  ∀ key, key ∈ keys → ∃ parts, X !! key = Some parts ∧ Xc !! key = Some (concat parts).
Proof.
  intros Hfold.
  refine (foldM_rel (λ xs (Xc : gmap string (Tensor2 R)),
            ∀ key, key ∈ xs →
              ∃ parts, X !! key = Some parts ∧ Xc !! key = Some (concat parts))
            _ keys ∅ Xc _ _ Hfold).
  - by intros key ?%elem_of_nil.
  - intros xs x c c' Hinv Hstep.
    destruct (X !! x) as [parts|] eqn:HX; simpl in Hstep; [|done].
    destruct parts as [|part parts]; simpl in Hstep; [done|].
    injection Hstep as <-. intros key Hkey.
    destruct (decide (x = key)) as [->|Hne].
    + exists (part :: parts). by rewrite lookup_insert_eq.
    + rewrite lookup_insert_ne by done. apply Hinv.
      apply elem_of_app in Hkey as [Hkey|Hkey%list_elem_of_singleton]; [done|].
      by subst.
Qed.

(** C6. With the probe points the keys of a dict (pairwise distinct)
    and, for every accepted example, the end of the answer span lying
    within its tokens and within the cached positions, the training rows
    of every probe point and the training labels are, side by side, the
    concatenation over the accepted examples, in their order, of the
    pairs taken at every position [p] after the start marker with
    [p + 1] before the end of the span, in increasing order: the row is
    the residual vector at [p], the label the token at [p + 1].  There
    are as many rows as labels, and the i-th row and the i-th label come
    from the same example and the same position. *)
Theorem calibration_rows_match_labels (keys : list string) (graphs : list Graph)
    (X : gmap string (Tensor2 R)) (y : list Z) :
  NoDup keys →
  (∀ gidx graph, graphs !! gidx = Some graph →
     span_in_range num_last dataset acts keys gidx graph) →
  calibration_dataset num_last dataset acts keys graphs = Some (X, y) →
  ∀ key, key ∈ keys →
    ∃ (rows : Tensor2 R) (pairs : list (list (Tensor1 R * Z))),
      X !! key = Some rows ∧ length rows = length y ∧
      rows = (concat pairs).*1 ∧ y = (concat pairs).*2 ∧
      Forall2 (λ (gg : nat * Graph) (example_pairs : list (Tensor1 R * Z)),
                 ∃ (tokens : list Z) (marker : nat) (end_idx : Z)
                   (per_example : list (Tensor3 R)) (act : Tensor3 R) (batch0 : Tensor2 R),
                   example_span num_last dataset gg.2
                   = Some (tokens, Z.of_nat marker + 2, end_idx) ∧
                   tokens !! marker = Some (start_token dataset) ∧
                   acts !! key = Some per_example ∧ per_example !! gg.1 = Some act ∧
                   py_index act 0 = Some batch0 ∧
                   Forall2 (λ p (pair : Tensor1 R * Z),
                              batch0 !! p = Some pair.1 ∧
                              tokens !! (p + 1)%nat = Some pair.2)
                           (span_positions marker end_idx) example_pairs)
              (zip (seq 0 (length graphs)) graphs) pairs ∧
      ∀ (i : nat) (row : Tensor1 R) (label : Z),
        rows !! i = Some row → y !! i = Some label →
        ∃ (gidx : nat) (graph : Graph) (tokens : list Z) (marker : nat) (end_idx : Z)
          (per_example : list (Tensor3 R)) (act : Tensor3 R) (batch0 : Tensor2 R) (p : nat),
          graphs !! gidx = Some graph ∧
          example_span num_last dataset graph
          = Some (tokens, Z.of_nat marker + 2, end_idx) ∧
          tokens !! marker = Some (start_token dataset) ∧
          acts !! key = Some per_example ∧ per_example !! gidx = Some act ∧
          py_index act 0 = Some batch0 ∧
          (marker < p)%nat ∧ Z.of_nat p + 1 < end_idx ∧
          batch0 !! p = Some row ∧ tokens !! (p + 1)%nat = Some label.
Proof.
  intros Hnd Hfits Hcal key Hkey. unfold calibration_dataset in Hcal.
  destruct (foldM (calibration_step _ _ _ _) _ _) as [[X1 y1]|] eqn:Hfold;
    simpl in Hcal; [|done].
  destruct (foldM _ keys ∅) as [Xc|] eqn:Hcat; simpl in Hcal; [|done].
  destruct y1 as [|labels0 y1]; simpl in Hcal; [done|].
  injection Hcal as <- <-.
  apply calibration_fold in Hfold as [Hy HX]; [|done].
  destruct (HX key Hkey) as (parts & Hparts & Hall).
  destruct (cat_fold _ _ _ Hcat key Hkey) as (parts' & Hparts' & HXc).
  rewrite Hparts in Hparts'. injection Hparts' as <-.
  set (ys := labels0 :: y1) in *.
  change (labels0 ++ concat y1) with (concat ys).
  set (ggs := zip (seq 0 (length graphs)) graphs) in *.
  set (Span := λ (gg : nat * Graph) (example_pairs : list (Tensor1 R * Z)),
         ∃ (tokens : list Z) (marker : nat) (end_idx : Z)
           (per_example : list (Tensor3 R)) (act : Tensor3 R) (batch0 : Tensor2 R),
           example_span num_last dataset gg.2
           = Some (tokens, Z.of_nat marker + 2, end_idx) ∧
           tokens !! marker = Some (start_token dataset) ∧
           acts !! key = Some per_example ∧ per_example !! gg.1 = Some act ∧
           py_index act 0 = Some batch0 ∧
           Forall2 (λ p (pair : Tensor1 R * Z),
                      batch0 !! p = Some pair.1 ∧ tokens !! (p + 1)%nat = Some pair.2)
                   (span_positions marker end_idx) example_pairs).
  assert (Hspans : Forall2 (λ l k, length l = length k) parts ys ∧
                   Forall2 Span ggs (zip_with zip parts ys)).
  { assert (Hlen : length parts = length ys).
    { rewrite <- (Forall2_length _ _ _ Hall). by eapply Forall2_length. }
    assert (Hcase : ∀ i streams labels, parts !! i = Some streams → ys !! i = Some labels →
              length streams = length labels ∧
              ∃ gg, ggs !! i = Some gg ∧ Span gg (zip streams labels)).
    { intros i streams labels Hst Hlb.
      destruct (Forall2_lookup_r _ _ _ _ _ Hall Hst)
        as ([gidx graph] & Hgg & tokens & s & e & per & act & b0
            & Hspan & Hper & Hact & Hb0 & ->).
      destruct (Forall2_lookup_r _ _ _ _ _ Hy Hlb)
        as ([gidx' graph'] & Hgg' & tokens' & s' & e' & Hspan' & ->).
      rewrite Hgg in Hgg'. injection Hgg' as <- <-. simpl in *.
      rewrite Hspan in Hspan'. injection Hspan' as <- <- <-.
      pose proof Hgg as Hgg0. apply enumerate_lookup in Hgg0 as [-> Hgraph].
      destruct (example_span_inv _ _ _ _ Hspan) as (marker & _ & _ & Hmarker & ->).
      destruct (Hfits _ _ Hgraph _ _ _ Hspan) as [He Hrows].
      specialize (Hrows key per act b0 Hkey Hper Hact Hb0).
      destruct (shifted_slices_positions b0 tokens marker e He Hrows) as [Hl Hpos].
      split; [done|]. exists (i, graph). split; [done|].
      exists tokens, marker, e, per, act, b0. done. }
    split.
    - apply Forall2_same_length_lookup_2; [done|].
      intros i streams labels Hst Hlb. by destruct (Hcase i streams labels Hst Hlb).
    - apply Forall2_same_length_lookup_2.
      + rewrite length_zip_with, <- Hlen, Nat.min_id.
        by rewrite (Forall2_length _ _ _ Hall).
      + intros i gg ps Hgg Hps.
        apply lookup_zip_with_Some in Hps as (streams & labels & -> & Hst & Hlb).
        destruct (Hcase i streams labels Hst Hlb) as [_ (gg' & Hgg' & Hsp)].
        rewrite Hgg in Hgg'. by injection Hgg' as <-. }
  destruct Hspans as [Hlens Hspans].
  destruct (concat_zip parts ys Hlens) as [Hrows Hlabels].
  exists (concat parts), (zip_with zip parts ys).
  split; [done|].
  assert (Hlength : length (concat parts) = length (concat ys)).
  { rewrite <- Hrows at 1. rewrite <- Hlabels. by rewrite !length_fmap. }
  split; [done|]. split; [done|]. split; [done|]. split; [done|].
  intros i row label Hrow Hlabel.
  assert (Hpair : concat (zip_with zip parts ys) !! i = Some (row, label)).
  { rewrite <- Hrows in Hrow. rewrite <- Hlabels in Hlabel.
    rewrite list_lookup_fmap in Hrow. rewrite list_lookup_fmap in Hlabel.
    destruct (concat (zip_with zip parts ys) !! i) as [[row' label']|]; [|done].
    simpl in *. by simplify_eq. }
  apply list_elem_of_lookup_2 in Hpair.
  apply elem_of_concat in Hpair as (ps & Hin & Hps).
  apply list_elem_of_lookup_1 in Hps as [j Hps].
  destruct (Forall2_lookup_r _ _ _ _ _ Hspans Hps)
    as ([gidx graph] & Hgg & tokens & marker & e & per & act & b0
        & Hspan & Hmarker & Hper & Hact & Hb0 & Hpos).
  apply enumerate_lookup in Hgg as [-> Hgraph]. simpl in *.
  apply list_elem_of_lookup_1 in Hin as [k Hk].
  destruct (Forall2_lookup_r _ _ _ _ _ Hpos Hk) as (p & Hp & Hrowp & Hlabelp).
  unfold span_positions in Hp. apply lookup_seq in Hp as [-> Hlt]. simpl in *.
  exists j, graph, tokens, marker, e, per, act, b0, (S marker + k)%nat.
  repeat split; try done; lia.
Qed.

End CalibrationRows.

(** ** The calibrator on the small instance *)

Lemma calculate_tuned_lens_needs_accepted_witness :
  calculate_tuned_lens toy_randint toy_generate_example toy_reject_all
    toy_get_example_cache toy_num_last toy_fit toy_model toy_dataset toy_world = None.
Proof.
  apply (proj1 (calculate_tuned_lens_needs_accepted toy_randint toy_generate_example
                  toy_reject_all toy_get_example_cache toy_num_last toy_fit
                  toy_model toy_dataset toy_world)).
  intros seed. reflexivity.
Defined.

Lemma fit_translators_spec_witness :
  is_Some (fit_translators toy_fit ["ln_final.hook_normalized"]
             {[ "ln_final.hook_normalized" := [[19; 18; 9; 18]; [19; 18; 9; 18]]%Q ]}
             [1; 1]).
Proof.
  apply (proj2 (fit_translators_spec toy_fit ["ln_final.hook_normalized"]
                  {[ "ln_final.hook_normalized" := [[19; 18; 9; 18]; [19; 18; 9; 18]]%Q ]}
                  [1; 1])).
  intros key Hkey. apply list_elem_of_singleton in Hkey. subst key.
  eexists. split; [reflexivity|]. by eexists.
Defined.

Example toy_translator :
  fit_translators toy_fit ["ln_final.hook_normalized"]
    {[ "ln_final.hook_normalized" := [[19; 18; 9; 18]; [19; 18; 9; 18]]%Q ]} [1; 1]
  ≫= (λ translators, translators !! "ln_final.hook_normalized")
  = Some [[0; 38; 0; 0]; [0; 36; 0; 0]; [0; 18; 0; 0]; [0; 36; 0; 0]]%Q.
Proof. vm_compute; reflexivity. Qed.

Example toy_calibration_dataset :
  (λ Xy, (map_to_list Xy.1, Xy.2)) <$>
    calibration_dataset toy_num_last toy_dataset toy_acts (tuned_lens_keys 2) toy_graphs
  = Some ([("blocks.1.ln1.hook_normalized", [[3; 2; 1; 2]; [3; 2; 1; 2]]%Q);
           ("ln_final.hook_normalized", [[19; 18; 9; 18]; [19; 18; 9; 18]]%Q)],
          [1; 1]).
Proof. vm_compute; reflexivity. Qed.

(** The span of the accepted instance: start marker at position 2, end
    of the answer at 5, so one training position, 3. *)
Example toy_example_span :
  example_span toy_num_last toy_dataset [0; 1; 2; 0; 1; 3; 3; 3]
  = Some ([0; 1; 2; 0; 1; 3; 3], 4, 5) ∧
  span_positions 2 5 = [3%nat].
Proof. split; vm_compute; reflexivity. Qed.

Lemma toy_spans_in_range (gidx : nat) (graph : list Z) :
  toy_graphs !! gidx = Some graph →
  span_in_range toy_num_last toy_dataset toy_acts (tuned_lens_keys 2) gidx graph.
Proof.
  intros Hg tokens s e Hspan.
  assert (graph = [0; 1; 2; 0; 1; 3; 3; 3] ∧ (gidx < 2)%nat) as [-> Hlt].
  { destruct gidx as [|[|gidx]]; simpl in Hg; [| |done];
      injection Hg as <-; (split; [done|lia]). }
  vm_compute in Hspan. injection Hspan as <- <- <-. split; [simpl; lia|].
  intros key per act b0 Hkey Hper Hact Hb0.
  assert (length b0 = 7%nat) as ->; [|lia].
  apply elem_of_cons in Hkey as [->|Hkey];
    [|apply list_elem_of_singleton in Hkey; subst key];
    vm_compute in Hper; injection Hper as <-;
    (destruct gidx as [|[|gidx]]; [| |lia]);
    simpl in Hact; injection Hact as <-;
    vm_compute in Hb0; injection Hb0 as <-; reflexivity.
Qed.

Lemma calibration_rows_match_labels_witness :
  ∃ X y,
    calibration_dataset toy_num_last toy_dataset toy_acts (tuned_lens_keys 2) toy_graphs
    = Some (X, y) ∧
    ∀ key, key ∈ tuned_lens_keys 2 →
      ∃ (rows : Tensor2 Q) (pairs : list (list (Tensor1 Q * Z))),
        X !! key = Some rows ∧ length rows = length y ∧
        rows = (concat pairs).*1 ∧ y = (concat pairs).*2 ∧
        Forall2 (λ (gg : nat * list Z) (example_pairs : list (Tensor1 Q * Z)),
                   ∃ (tokens : list Z) (marker : nat) (end_idx : Z)
                     (per_example : list (Tensor3 Q)) (act : Tensor3 Q)
                     (batch0 : Tensor2 Q),
                     example_span toy_num_last toy_dataset gg.2
                     = Some (tokens, Z.of_nat marker + 2, end_idx) ∧
                     tokens !! marker = Some (start_token toy_dataset) ∧
                     toy_acts !! key = Some per_example ∧
                     per_example !! gg.1 = Some act ∧
                     py_index act 0 = Some batch0 ∧
                     Forall2 (λ p (pair : Tensor1 Q * Z),
                                batch0 !! p = Some pair.1 ∧
                                tokens !! (p + 1)%nat = Some pair.2)
                             (span_positions marker end_idx) example_pairs)
                (zip (seq 0 (length toy_graphs)) toy_graphs) pairs ∧
        ∀ (i : nat) (row : Tensor1 Q) (label : Z),
          rows !! i = Some row → y !! i = Some label →
          ∃ (gidx : nat) (graph : list Z) (tokens : list Z) (marker : nat) (end_idx : Z)
            (per_example : list (Tensor3 Q)) (act : Tensor3 Q) (batch0 : Tensor2 Q)
            (p : nat),
            toy_graphs !! gidx = Some graph ∧
            example_span toy_num_last toy_dataset graph
            = Some (tokens, Z.of_nat marker + 2, end_idx) ∧
            tokens !! marker = Some (start_token toy_dataset) ∧
            toy_acts !! key = Some per_example ∧ per_example !! gidx = Some act ∧
            py_index act 0 = Some batch0 ∧
            (marker < p)%nat ∧ Z.of_nat p + 1 < end_idx ∧
            batch0 !! p = Some row ∧ tokens !! (p + 1)%nat = Some label.
Proof.
  eexists _, _. split; [vm_compute; reflexivity|].
  apply (calibration_rows_match_labels toy_num_last toy_dataset toy_acts
           (tuned_lens_keys 2) toy_graphs).
  - apply (bool_decide_unpack _). by vm_compute.
  - apply toy_spans_in_range.
  - vm_compute; reflexivity.
Defined.

(* ===================================================================== *)
(** * Part III. Further properties of the code                           *)
(* ===================================================================== *)

(** ** More on loops and indexing *)

Section MoreLoops.
Context {A B : Type}.
Implicit Types (f : B → A → option B).

(** An invariant of the body holds of the result. *)
Lemma foldM_invariant (P : B → Prop) f (l : list A) (b b' : B) :
  P b → (∀ c x c', P c → f c x = Some c' → P c') → foldM f l b = Some b' → P b'.
Proof.
  intros Hb Hstep Hfold.
  refine (foldM_rel (λ _ c, P c) f l b b' Hb _ Hfold). intros xs x c c'. apply Hstep.
Qed.

(** A turn that raises whatever the accumulator makes the loop raise. *)
Lemma foldM_raises f (l : list A) (x : A) (b : B) :
  x ∈ l → (∀ c, f c x = None) → foldM f l b = None.
Proof.
  intros Hx Hfail. revert b. induction l as [|y l IH]; intros b; [by apply elem_of_nil in Hx|].
  simpl. apply elem_of_cons in Hx as [->|Hx].
  - by rewrite Hfail.
  - destruct (f b y); simpl; [by apply IH|done].
Qed.

End MoreLoops.

Section MoreIndexing.
Context {A : Type}.
Implicit Types (l : list A).

Lemma py_index_neg l (i : Z) :
  - Z.of_nat (length l) ≤ i < 0 → py_index l i = l !! Z.to_nat (i + Z.of_nat (length l)).
Proof.
  intros Hi. unfold py_index.
  rewrite decide_False by lia. by rewrite decide_True by lia.
Qed.

Lemma py_index_out_of_range l (i : Z) :
  ¬ (- Z.of_nat (length l) ≤ i < Z.of_nat (length l)) → py_index l i = None.
Proof.
  intros Hi. unfold py_index.
  rewrite decide_False by lia. by rewrite decide_False by lia.
Qed.

Lemma py_index_is_Some l (i : Z) :
  is_Some (py_index l i) → - Z.of_nat (length l) ≤ i < Z.of_nat (length l).
Proof.
  intros [x Hx].
  destruct (decide (- Z.of_nat (length l) ≤ i < Z.of_nat (length l))) as [|Hout]; [done|].
  by rewrite py_index_out_of_range in Hx.
Qed.

Lemma py_index_last l : py_index l (-1) = last l.
Proof.
  destruct l as [|x l]; [done|].
  rewrite py_index_neg by (simpl; lia). rewrite last_lookup. f_equal. simpl. lia.
Qed.

End MoreIndexing.

(** ** More on the patching engine *)

Section MorePatching.
Context {R : Type} `{Scalar R} {Graph : Type}.
Implicit Types (model : HookedTransformer R) (dataset : Dataset Graph).

Lemma set_cell_shape (grid grid' : Tensor2 R) (layer position n m : nat) (v : R) :
  set_cell grid layer position v = Some grid' →
  length grid = n ∧ Forall (λ row, length row = m) grid →
  length grid' = n ∧ Forall (λ row, length row = m) grid'.
Proof.
  unfold set_cell. intros Hset [Hlen Hrows].
  destruct (grid !! layer) as [row|] eqn:Hrow; simpl in Hset; [|done].
  case_decide; [|done]. injection Hset as <-. split.
  - by rewrite length_insert.
  - apply Forall_insert; [done|]. rewrite length_insert.
    rewrite Forall_lookup in Hrows. by eapply Hrows.
Qed.

(** X1. The grid returned has one row per layer and one cell per
    position of the clean prompt. *)
Theorem activation_patching_shape model dataset (clean_tokens corrupted_tokens : list Z)
    (comparison_index : Z) (patching_result : Tensor2 R) :
  activation_patching model dataset clean_tokens corrupted_tokens comparison_index
  = Some patching_result →
  length patching_result = n_layers model ∧
  Forall (λ row, length row = length clean_tokens) patching_result.
Proof.
  unfold activation_patching, run_with_cache. intros Hrun.
  destruct (logits_to_logit_diff _ _ (forward model clean_tokens) _) as [cd|];
    simpl in Hrun; [|done].
  destruct (logits_to_logit_diff _ _ (forward model corrupted_tokens) _) as [crd|];
    simpl in Hrun; [|done].
  destruct (py_index clean_tokens _ ≫= _); simpl in Hrun; [|done].
  destruct (py_index corrupted_tokens _ ≫= _); simpl in Hrun; [|done].
  set (P := λ g : Tensor2 R,
         length g = n_layers model ∧ Forall (λ row, length row = length clean_tokens) g).
  revert Hrun. apply (foldM_invariant P).
  - split; [by rewrite length_replicate|].
    apply Forall_replicate. by rewrite length_replicate.
  - intros grid layer grid' Hgrid. apply (foldM_invariant P); [done|].
    intros g position g' Hg. unfold patching_step.
    destruct (patched_logit_diff _ _ _ _ _ _ _) as [pd|]; simpl; [|done].
    intros Hset. by eapply set_cell_shape.
Qed.

(** Writing vectors that are already there changes nothing. *)
Lemma assign_position_agree (live clean : Tensor3 R) (position : nat) :
  length live = length clean →
  (∀ (b : nat) (live_b : Tensor2 R), live !! b = Some live_b →
     ∃ clean_b v, clean !! b = Some clean_b ∧
                  live_b !! position = Some v ∧ clean_b !! position = Some v) →
  assign_position live clean position = Some live.
Proof.
  intros Hlen Hagree. unfold assign_position. rewrite decide_True by done.
  apply mapM_Some_2. apply Forall2_same_length_lookup_2.
  - rewrite length_zip_with. lia.
  - intros b [live_b clean_b] out Hz Hout.
    apply lookup_zip_with_Some in Hz as (lb & cb & [= -> ->] & Hlb & Hcb).
    rewrite Hlb in Hout. injection Hout as <-.
    destruct (Hagree b lb Hlb) as (cb' & v & Hcb' & Hlv & Hcv).
    rewrite Hcb in Hcb'. injection Hcb' as <-. simpl.
    rewrite Hlv, Hcv. simpl. rewrite decide_True by done.
    by rewrite list_insert_id.
Qed.

(** X2. Patching a position at which the clean and the corrupted run
    carry the same vector into the layer has no effect: the patched pass
    returns the logits of the plain corrupted pass, so the patched
    difference is the corrupted baseline. *)
Theorem patching_agreeing_position model (clean_tokens corrupted_tokens : list Z)
    (comparison_index : Z) (layer position : nat) :
  (layer < n_layers model)%nat →
  length (resid_pre_at model corrupted_tokens layer)
  = length (resid_pre_at model clean_tokens layer) →
  (∀ (b : nat) (live_b : Tensor2 R),
     resid_pre_at model corrupted_tokens layer !! b = Some live_b →
     ∃ clean_b v, resid_pre_at model clean_tokens layer !! b = Some clean_b ∧
                  live_b !! position = Some v ∧ clean_b !! position = Some v) →
  patched_logits model (run_with_cache model clean_tokens).2 corrupted_tokens
    layer position = Some (forward model corrupted_tokens) ∧
  patched_logit_diff model (run_with_cache model clean_tokens).2
    clean_tokens corrupted_tokens comparison_index layer position
  = logits_to_logit_diff clean_tokens corrupted_tokens
      (forward model corrupted_tokens) comparison_index.
Proof.
  intros Hlt Hlen Hagree.
  assert (Hpass : patched_logits model (run_with_cache model clean_tokens).2
                    corrupted_tokens layer position
                  = Some (forward model corrupted_tokens)).
  { rewrite patched_logits_unfold by done.
    rewrite assign_position_agree by done.
    cbn [mbind option_bind]. by rewrite <- forward_split. }
  split; [done|]. unfold patched_logit_diff. by rewrite Hpass.
Qed.

(** X3. When the corrupted prompt is shorter than the clean one, the
    scan reaches a position the corrupted run does not have and the call
    raises (on a model with at least one layer whose first residual
    stream has one vector per token). *)
Theorem activation_patching_shorter_corrupted model dataset
    (clean_tokens corrupted_tokens : list Z) (comparison_index : Z) :
  (0 < n_layers model)%nat →
  (length corrupted_tokens < length clean_tokens)%nat →
  embed model corrupted_tokens ≠ [] →
  Forall (λ b : Tensor2 R, length b = length corrupted_tokens)
         (embed model corrupted_tokens) →
  activation_patching model dataset clean_tokens corrupted_tokens comparison_index = None.
Proof.
  intros Hn Hshort Hne Hshape.
  unfold activation_patching, run_with_cache.
  destruct (logits_to_logit_diff _ _ (forward model clean_tokens) _) as [cd|];
    simpl; [|done].
  destruct (logits_to_logit_diff _ _ (forward model corrupted_tokens) _) as [crd|];
    simpl; [|done].
  destruct (py_index clean_tokens _ ≫= _); simpl; [|done].
  destruct (py_index corrupted_tokens _ ≫= _); simpl; [|done].
  apply (foldM_raises _ _ 0%nat).
  { unfold range. apply elem_of_seq. lia. }
  intros grid. apply (foldM_raises _ _ (length corrupted_tokens)).
  { unfold range. apply elem_of_seq. lia. }
  intros g. unfold patching_step, patched_logit_diff.
  change (cache_layers model (range (n_layers model)) (embed model clean_tokens) ∅)
    with (run_with_cache model clean_tokens).2.
  rewrite patched_logits_unfold by done.
  unfold resid_pre_at, range. cbn [seq plain_layers].
  unfold assign_position. case_decide as Hlen; [|done].
  destruct (embed model corrupted_tokens) as [|b live]; [done|].
  destruct (embed model clean_tokens) as [|c clean]; [done|].
  apply Forall_cons in Hshape as [Hb _].
  assert (Hnone : b !! length corrupted_tokens = None)
    by (apply lookup_ge_None; lia).
  cbn [zip zip_with]. unfold mapM. cbn [fst]. by rewrite Hnone.
Qed.

(** X4. A comparison index of zero does not raise: the row
    [comparison_index - 1] wraps around and the metric is read off the
    logits of the last position. *)
Theorem logits_to_logit_diff_at_zero (clean_tokens corrupted_tokens : list Z)
    (logits : Tensor3 R) (correct incorrect : Z) (batch0 : Tensor2 R) (row : Tensor1 R)
    (a b : R) :
  clean_tokens !! 0%nat = Some correct →
  corrupted_tokens !! 0%nat = Some incorrect →
  0 ≤ correct → 0 ≤ incorrect →
  logits !! 0%nat = Some batch0 →
  last batch0 = Some row →
  row !! Z.to_nat correct = Some a →
  row !! Z.to_nat incorrect = Some b →
  logits_to_logit_diff clean_tokens corrupted_tokens logits 0 = Some (s_sub a b).
Proof.
  intros Hc Hi Hc0 Hi0 Hb Hrow Ha Hb'. unfold logits_to_logit_diff.
  rewrite !py_index_0, Hc, Hi, Hb. cbn [mbind option_bind].
  change (0 - 1) with (-1). rewrite py_index_last, Hrow. cbn [mbind option_bind].
  rewrite (py_index_nonneg row correct), Ha by lia.
  rewrite (py_index_nonneg row incorrect), Hb' by lia. done.
Qed.

(** X5. A comparison index outside [-length .. length - 1] of the clean
    prompt raises, in the metric and in the scan. *)
Theorem comparison_index_out_of_range model dataset
    (clean_tokens corrupted_tokens : list Z) (logits : Tensor3 R) (comparison_index : Z) :
  ¬ (- Z.of_nat (length clean_tokens) ≤ comparison_index
     < Z.of_nat (length clean_tokens)) →
  logits_to_logit_diff clean_tokens corrupted_tokens logits comparison_index = None ∧
  activation_patching model dataset clean_tokens corrupted_tokens comparison_index = None.
Proof.
  intros Hout.
  assert (Hdiff : ∀ lg : Tensor3 R,
            logits_to_logit_diff clean_tokens corrupted_tokens lg comparison_index = None).
  { intros lg. unfold logits_to_logit_diff.
    by rewrite (py_index_out_of_range clean_tokens comparison_index Hout). }
  split; [done|]. unfold activation_patching, run_with_cache.
  rewrite (Hdiff (forward model clean_tokens)). reflexivity.
Qed.

End MorePatching.

Lemma activation_patching_shape_witness :
  length [[0 # 8; 8 # 8]; [4 # 8; 4 # 8]]%Q = n_layers toy_model ∧
  Forall (λ row : Tensor1 Q, length row = length [0; 1])
         [[0 # 8; 8 # 8]; [4 # 8; 4 # 8]]%Q.
Proof.
  apply (activation_patching_shape toy_model toy_dataset [0; 1] [0; 0] 1).
  reflexivity.
Defined.

Lemma patching_agreeing_position_witness :
  patched_logits toy_model (run_with_cache toy_model [0; 1]).2 [0; 0] 0 0
  = Some (forward toy_model [0; 0]) ∧
  patched_logit_diff toy_model (run_with_cache toy_model [0; 1]).2 [0; 1] [0; 0] 1 0 0
  = logits_to_logit_diff [0; 1] [0; 0] (forward toy_model [0; 0]) 1.
Proof.
  apply (patching_agreeing_position toy_model [0; 1] [0; 0] 1 0 0).
  - simpl. lia.
  - reflexivity.
  - intros b live_b Hb. destruct b as [|b]; [|done].
    injection Hb as <-. by eexists _, _.
Defined.

Lemma activation_patching_shorter_corrupted_witness :
  activation_patching toy_model toy_dataset [0; 1] [0] 1 = None.
Proof.
  apply (activation_patching_shorter_corrupted toy_model toy_dataset [0; 1] [0] 1).
  - simpl. lia.
  - simpl. lia.
  - done.
  - by repeat constructor.
Defined.

Lemma logits_to_logit_diff_at_zero_witness :
  logits_to_logit_diff [0; 1] [1; 0] (forward toy_model [0; 1]) 0
  = Some (s_sub 4%Q 5%Q).
Proof.
  apply (logits_to_logit_diff_at_zero [0; 1] [1; 0] (forward toy_model [0; 1]) 0 1
           [[5; 4; 0; 0]; [4; 5; 0; 0]]%Q [4; 5; 0; 0]%Q 4%Q 5%Q);
    first [reflexivity | lia].
Defined.

Lemma comparison_index_out_of_range_witness :
  logits_to_logit_diff [0; 1] [0; 0] (forward toy_model [0; 1]) 2 = None ∧
  activation_patching toy_model toy_dataset [0; 1] [0; 0] 2 = None.
Proof.
  apply (comparison_index_out_of_range toy_model toy_dataset [0; 1] [0; 0]
           (forward toy_model [0; 1]) 2).
  simpl. lia.
Defined.

(** ** More on the aggregator *)

Section RecordFacts.
Context {R : Type}.
Implicit Types (cache : gmap string (Tensor3 R)) (agg : gmap string (list (Tensor3 R))).

(** A key listed [c] times receives [c] copies of the activation. *)
Lemma record_activations_count cache (keys : list string) agg agg' :
  record_activations cache keys agg = Some agg' →
  ∀ key acc, agg !! key = Some acc →
    ∃ acts, agg' !! key = Some (acc ++ acts) ∧
            length acts = key_count key keys ∧
            Forall (λ act, cache !! key = Some act) acts.
Proof.
  unfold record_activations, key_count. revert agg.
  induction keys as [|k keys IH]; intros agg Hrec key acc Hacc; simpl in Hrec.
  { injection Hrec as <-. exists []. by rewrite app_nil_r. }
  destruct (cache !! k) as [act|] eqn:Hact; simpl in Hrec; [|done].
  destruct (agg !! k) as [acc_k|] eqn:Hk; simpl in Hrec; [|done].
  destruct (decide (k = key)) as [->|Hne].
  - rewrite Hacc in Hk. injection Hk as <-.
    destruct (IH _ Hrec key (acc ++ [act])) as (acts & Hget & Hlen & Hall).
    { by rewrite lookup_insert_eq. }
    exists (act :: acts). rewrite filter_cons_True by done.
    rewrite Hget, <- app_assoc. simpl. repeat split; [by rewrite Hlen|].
    by constructor.
  - destruct (IH _ Hrec key acc) as (acts & Hget & Hlen & Hall).
    { by rewrite lookup_insert_ne. }
    exists acts. by rewrite filter_cons_False.
Qed.

(** The keys of the dict stay what they are. *)
Lemma record_activations_dom cache (keys : list string) agg agg' :
  record_activations cache keys agg = Some agg' → dom agg' = dom agg.
Proof.
  unfold record_activations. revert agg.
  induction keys as [|k keys IH]; intros agg Hrec; simpl in Hrec.
  { by injection Hrec as <-. }
  destruct (cache !! k) as [act|]; simpl in Hrec; [|done].
  destruct (agg !! k) as [acc_k|] eqn:Hk; simpl in Hrec; [|done].
  rewrite (IH _ Hrec), dom_insert_L.
  assert (k ∈ dom agg) by (apply elem_of_dom; by eexists).
  apply set_eq. intros x. rewrite elem_of_union, elem_of_singleton.
  split; [by intros [->|?]|by right].
Qed.

(** A cache that lacks a requested key makes the inner loop raise. *)
Lemma record_activations_needs_keys cache (keys : list string) agg agg' :
  record_activations cache keys agg = Some agg' →
  ∀ key, key ∈ keys → is_Some (cache !! key).
Proof.
  unfold record_activations. revert agg.
  induction keys as [|k keys IH]; intros agg Hrec key Hkey; simpl in Hrec.
  { by apply elem_of_nil in Hkey. }
  destruct (cache !! k) as [act|] eqn:Hact; simpl in Hrec; [|done].
  destruct (agg !! k) as [acc_k|]; simpl in Hrec; [|done].
  apply elem_of_cons in Hkey as [->|Hkey]; [by eexists|]. by eapply IH.
Qed.

End RecordFacts.

Lemma key_count_pos (key : string) (keys : list string) :
  key ∈ keys → (0 < key_count key keys)%nat.
Proof.
  unfold key_count. induction keys as [|k keys IH]; [by intros ?%elem_of_nil|].
  intros Hin. destruct (decide (k = key)) as [->|Hne].
  - rewrite filter_cons_True by done. simpl. lia.
  - rewrite filter_cons_False by done. apply IH.
    by apply elem_of_cons in Hin as [->|Hin].
Qed.

Lemma list_bind_snoc {A B} (f : A → list B) (l : list A) (x : A) :
  (l ++ [x]) ≫= f = (l ≫= f) ++ f x.
Proof. by rewrite bind_app, bind_singleton. Qed.

Lemma length_bind_replicate {A} (l : list A) (c : nat) :
  length (l ≫= replicate c) = (c * length l)%nat.
Proof.
  induction l as [|x l IH]; [simpl; lia|].
  rewrite bind_cons, length_app, length_replicate, IH. simpl. lia.
Qed.

Section MoreAggregation.
Context {R Graph RngState : Type}.
Variable randint : Z → Z → RngState → Z * RngState.
Variable generate_example : Z → Z → option Z → string → Graph.
Variable is_model_correct : HookedTransformer R → Dataset Graph → Graph → bool.
Variable get_example_cache :
  Graph → HookedTransformer R → Dataset Graph → list string * gmap string (Tensor3 R).
Variable model : HookedTransformer R.
Variable dataset : Dataset Graph.

Abbreviation cache_of' g := ((get_example_cache g model dataset).2).
Abbreviation aggregate' := (aggregate_activations randint generate_example is_model_correct
                          get_example_cache model dataset).
Abbreviation step' := (aggregate_step randint generate_example is_model_correct
                         get_example_cache model dataset).

(** One turn, with the seed it drew. *)
Lemma aggregate_step_draw keys path_length order agg graphs w agg' graphs' w' :
  step' keys path_length order (agg, graphs, w) = Some (agg', graphs', w') →
  let draw := randint 1000000 np_iinfo_max (rng w) in
  let g := generate_example (n_states dataset) draw.1 path_length order in
  rng w' = draw.2 ∧ attempts w' = attempts w ++ [g] ∧
  ((is_model_correct model dataset g = false ∧ agg' = agg ∧ graphs' = graphs) ∨
   (is_model_correct model dataset g = true ∧ graphs' = graphs ++ [g] ∧
    record_activations (cache_of' g) keys agg = Some agg')).
Proof.
  unfold aggregate_step.
  destruct (randint _ _ _) as [seed rng']. cbn [fst snd].
  set (g := generate_example _ _ _ _).
  destruct (is_model_correct model dataset g) eqn:Hcorrect; simpl.
  - destruct (get_example_cache g model dataset) as [labels cache] eqn:Hgc. simpl.
    destruct (record_activations cache keys agg) as [a|] eqn:Hrec; simpl; [|done].
    intros [= <- <- <-]. repeat split; try done. by right.
  - intros [= <- <- <-]. repeat split; try done. by left.
Qed.

(** X6. On return, a probe point listed [c] times holds [c] copies of the
    activation of every accepted instance, instance after instance:
    [c] times as many tensors as accepted instances. *)
Theorem aggregate_multiplicity keys (n_samples : nat) path_length order
    (w w' : AggWorld RngState Graph) agg graphs :
  aggregate' keys n_samples path_length order w = Some (agg, graphs, w') →
  ∀ key, key ∈ keys →
    ∃ (acts per_graph : list (Tensor3 R)),
      agg !! key = Some acts ∧
      Forall2 (λ act g, cache_of' g !! key = Some act) per_graph graphs ∧
      acts = per_graph ≫= replicate (key_count key keys) ∧
      length acts = (key_count key keys * length graphs)%nat.
Proof.
  intros Hagg key Hkey. unfold aggregate_activations in Hagg.
  apply (foldM_invariant (λ st : gmap string (list (Tensor3 R)) * list Graph * _,
           ∃ per_graph : list (Tensor3 R),
             st.1.1 !! key = Some (per_graph ≫= replicate (key_count key keys)) ∧
             Forall2 (λ act g, cache_of' g !! key = Some act) per_graph st.1.2))
    in Hagg.
  - destruct Hagg as (per_graph & Hget & Hall). simpl in *.
    exists (per_graph ≫= replicate (key_count key keys)), per_graph.
    repeat split; try done.
    rewrite length_bind_replicate. by rewrite (Forall2_length _ _ _ Hall).
  - exists []. simpl. rewrite lookup_empty_lists by done. split; [done|constructor].
  - intros [[agg1 graphs1] w1] x [[agg2 graphs2] w2] (per_graph & Hget & Hall) Hstep.
    simpl in *. apply aggregate_step_draw in Hstep as (_ & _ & Hcase).
    destruct Hcase as [(_ & -> & ->)|(_ & -> & Hrec)]; [by exists per_graph|].
    destruct (record_activations_count _ _ _ _ Hrec key _ Hget)
      as (acts & Hget' & Hlen & Hact).
    pose proof (key_count_pos key keys Hkey) as Hpos.
    destruct acts as [|act acts]; [simpl in Hlen; lia|].
    exists (per_graph ++ [act]). split.
    + rewrite Hget', list_bind_snoc. do 2 f_equal. symmetry.
      apply replicate_as_Forall. split; [done|].
      apply Forall_cons in Hact as [Hhead Htail].
      constructor; [done|]. eapply Forall_impl; [done|]. simpl. intros a Ha. congruence.
    + apply Forall2_app; [done|]. apply Forall_cons in Hact as [Hhead _].
      by repeat constructor.
Qed.

(** X7. On return, the keys of the dict are the requested probe points,
    whatever was accepted. *)
Theorem aggregate_keys keys (n_samples : nat) path_length order
    (w w' : AggWorld RngState Graph) agg graphs :
  aggregate' keys n_samples path_length order w = Some (agg, graphs, w') →
  dom agg = list_to_set keys.
Proof.
  intros Hagg. unfold aggregate_activations in Hagg.
  apply (foldM_invariant (λ st : gmap string (list (Tensor3 R)) * list Graph * _,
           dom st.1.1 = list_to_set keys)) in Hagg; [done| |].
  - simpl. rewrite dom_list_to_map_L. f_equal.
    rewrite <- list_fmap_compose. apply list_fmap_id.
  - intros [[agg1 graphs1] w1] x [[agg2 graphs2] w2] Hdom Hstep. simpl in *.
    apply aggregate_step_draw in Hstep as (_ & _ & Hcase).
    destruct Hcase as [(_ & -> & _)|(_ & _ & Hrec)]; [done|].
    by rewrite (record_activations_dom _ _ _ _ Hrec).
Qed.

(** X8. The call returns only if the cache of every accepted instance has
    every requested probe point; a missing one raises. *)
Theorem aggregate_needs_keys keys (n_samples : nat) path_length order
    (w w' : AggWorld RngState Graph) agg graphs :
  aggregate' keys n_samples path_length order w = Some (agg, graphs, w') →
  Forall (λ g, ∀ key, key ∈ keys → is_Some (cache_of' g !! key)) graphs.
Proof.
  intros Hagg. unfold aggregate_activations in Hagg.
  apply (foldM_invariant (λ st : gmap string (list (Tensor3 R)) * list Graph * _,
           Forall (λ g, ∀ key, key ∈ keys → is_Some (cache_of' g !! key)) st.1.2))
    in Hagg; [done|constructor|].
  intros [[agg1 graphs1] w1] x [[agg2 graphs2] w2] Hall Hstep. simpl in *.
  apply aggregate_step_draw in Hstep as (_ & _ & Hcase).
  destruct Hcase as [(_ & _ & ->)|(_ & -> & Hrec)]; [done|].
  apply Forall_app. split; [done|]. repeat constructor.
  by eapply record_activations_needs_keys.
Qed.

(** X9. What is sampled does not depend on the model's answers: the
    instances generated and the final state of the generator are those of
    [n_samples] successive draws, accepted or not. *)
Theorem aggregate_sampling_independent keys (n_samples : nat) path_length order
    (w w' : AggWorld RngState Graph) agg graphs :
  aggregate' keys n_samples path_length order w = Some (agg, graphs, w') →
  let drawn := sampled_instances randint generate_example (n_states dataset)
                 path_length order n_samples (rng w) in
  attempts w' = attempts w ++ drawn.1 ∧ rng w' = drawn.2 ∧
  graphs = filter (λ g, is_model_correct model dataset g = true) drawn.1.
Proof.
  intros Hagg. unfold sampled_instances, aggregate_activations in *.
  set (draw := λ (acc : list Graph * RngState) (_ : nat),
         let '(seed, state') := randint 1000000 np_iinfo_max acc.2 in
         (acc.1 ++ [generate_example (n_states dataset) seed path_length order], state')).
  apply (foldM_rel (λ xs (st : gmap string (list (Tensor3 R)) * list Graph * _),
           attempts st.2 = attempts w ++ (foldl draw ([], rng w) xs).1 ∧
           rng st.2 = (foldl draw ([], rng w) xs).2 ∧
           st.1.2 = filter (λ g, is_model_correct model dataset g = true)
                      (foldl draw ([], rng w) xs).1)) in Hagg; [done| |].
  - simpl. by rewrite app_nil_r.
  - intros xs x [[agg1 graphs1] w1] [[agg2 graphs2] w2] (Hatt & Hrng & Hgraphs) Hstep.
    simpl in *. apply aggregate_step_draw in Hstep as (Hrng' & Hatt' & Hcase).
    rewrite foldl_app. cbn [foldl].
    destruct (foldl draw ([], rng w) xs) as [acc s]. cbn [fst snd] in *.
    unfold draw. cbn [fst snd]. rewrite <- Hrng.
    destruct (randint 1000000 np_iinfo_max (rng w1)) as [seed s'].
    cbn [fst snd] in *. rewrite Hatt', Hatt, <- app_assoc. split; [done|].
    split; [done|]. rewrite filter_app.
    destruct Hcase as [(Hrej & _ & ->)|(Hacc & -> & _)].
    + rewrite filter_cons_False, filter_nil, app_nil_r by congruence. done.
    + rewrite filter_cons_True, filter_nil by done. by rewrite Hgraphs.
Qed.

End MoreAggregation.

Lemma aggregate_multiplicity_witness :
  ∃ agg graphs w',
    aggregate_activations toy_randint toy_generate_example toy_is_model_correct
      tiny_get_example_cache toy_model toy_dataset ["k"; "k"] 3 None "backward"
      toy_world = Some (agg, graphs, w') ∧
    ∀ key, key ∈ ["k"; "k"] →
      ∃ (acts per_graph : list (Tensor3 Q)),
        agg !! key = Some acts ∧
        Forall2 (λ act g, (tiny_get_example_cache g toy_model toy_dataset).2 !! key
                          = Some act) per_graph graphs ∧
        acts = per_graph ≫= replicate (key_count key ["k"; "k"]) ∧
        length acts = (key_count key ["k"; "k"] * length graphs)%nat.
Proof.
  eexists _, _, _. split; [vm_compute; reflexivity|].
  eapply (aggregate_multiplicity toy_randint toy_generate_example toy_is_model_correct
            tiny_get_example_cache toy_model toy_dataset ["k"; "k"] 3 None "backward"
            toy_world).
  vm_compute; reflexivity.
Defined.

Lemma aggregate_keys_witness :
  ∃ agg graphs w',
    aggregate_activations toy_randint toy_generate_example toy_is_model_correct
      tiny_get_example_cache toy_model toy_dataset ["k"] 3 None "random"
      toy_world = Some (agg, graphs, w') ∧
    dom agg = list_to_set ["k"].
Proof.
  eexists _, _, _. split; [vm_compute; reflexivity|].
  eapply (aggregate_keys toy_randint toy_generate_example toy_is_model_correct
            tiny_get_example_cache toy_model toy_dataset ["k"] 3 None "random" toy_world).
  vm_compute; reflexivity.
Defined.

Lemma aggregate_needs_keys_witness :
  ∃ agg graphs w',
    aggregate_activations toy_randint toy_generate_example toy_is_model_correct
      tiny_get_example_cache toy_model toy_dataset ["k"] 3 None "random"
      toy_world = Some (agg, graphs, w') ∧
    Forall (λ g, ∀ key, key ∈ ["k"] →
                   is_Some ((tiny_get_example_cache g toy_model toy_dataset).2 !! key))
           graphs.
Proof.
  eexists _, _, _. split; [vm_compute; reflexivity|].
  eapply (aggregate_needs_keys toy_randint toy_generate_example toy_is_model_correct
            tiny_get_example_cache toy_model toy_dataset ["k"] 3 None "random" toy_world).
  vm_compute; reflexivity.
Defined.

Example tiny_missing_key_raises :
  aggregate_activations toy_randint toy_generate_example toy_is_model_correct
    tiny_get_example_cache toy_model toy_dataset ["j"] 3 None "random" toy_world = None.
Proof. vm_compute; reflexivity. Qed.

Lemma aggregate_sampling_independent_witness :
  ∃ agg graphs w',
    aggregate_activations toy_randint toy_generate_example toy_is_model_correct
      tiny_get_example_cache toy_model toy_dataset ["k"] 3 None "random"
      toy_world = Some (agg, graphs, w') ∧
    attempts w'
    = attempts toy_world
      ++ (sampled_instances toy_randint toy_generate_example (n_states toy_dataset)
            None "random" 3 (rng toy_world)).1 ∧
    rng w' = (sampled_instances toy_randint toy_generate_example (n_states toy_dataset)
                None "random" 3 (rng toy_world)).2 ∧
    graphs = filter (λ g, toy_is_model_correct toy_model toy_dataset g = true)
               (sampled_instances toy_randint toy_generate_example (n_states toy_dataset)
                  None "random" 3 (rng toy_world)).1.
Proof.
  eexists _, _, _. split; [vm_compute; reflexivity|].
  eapply (aggregate_sampling_independent toy_randint toy_generate_example
            toy_is_model_correct tiny_get_example_cache toy_model toy_dataset
            ["k"] 3 None "random" toy_world).
  vm_compute; reflexivity.
Defined.

(** ** More on the lens decoder *)

Section MoreLens.
Context {R : Type} `{Scalar R} {Graph : Type}.
Variable argmax : Tensor1 R → Z.
Variable softmax : Tensor1 R → Tensor1 R.
Variable num_last : list string → string → Z.

(** X10. With calibrated lenses supplied, the unembedding of the model
    is not consulted, and of the lenses only the entries at the probed
    points: models with the same layer count and lens dicts that agree at
    the probed points decode alike, in both modes. *)
Theorem supplied_lenses_decide (model model' : HookedTransformer R)
    (dataset : Dataset Graph) (lenses lenses' : gmap string (Tensor2 R))
    (labels : list string) (position : Z) (cache : gmap string (Tensor3 R)) :
  n_layers model' = n_layers model →
  (∀ layer, (1 ≤ layer ≤ n_layers model)%nat →
     lenses' !! lens_act_name (n_layers model) layer
     = lenses !! lens_act_name (n_layers model) layer) →
  logit_lens_table argmax num_last model' dataset (Some lenses') labels cache
  = logit_lens_table argmax num_last model dataset (Some lenses) labels cache ∧
  correct_probs softmax model' dataset (Some lenses') labels position cache
  = correct_probs softmax model dataset (Some lenses) labels position cache.
Proof.
  intros Hn Hlens.
  rewrite !logit_lens_table_reads, !correct_probs_reads. rewrite Hn. split.
  - do 2 f_equal. apply mapM_ext_in. intros layer [Hlo Hhi]%elem_of_seq.
    rewrite !logit_lens_layer_reads. cbn [fst]. rewrite Hn.
    unfold lens_project. by rewrite Hlens by lia.
  - destruct (py_index labels (position + 1)) as [tok|]; [|done]. cbn [mbind option_bind].
    destruct (tokens2idx dataset tok) as [idx|]; [|done]. cbn [mbind option_bind].
    do 2 f_equal. apply mapM_ext_in. intros layer [Hlo Hhi]%elem_of_seq.
    rewrite !correct_prob_layer_reads. cbn [fst]. rewrite Hn.
    unfold lens_project. by rewrite Hlens by lia.
Qed.

(** X11. A probe point missing from the cache, or from the supplied
    lenses, makes both modes raise, the cache staying as it was. *)
Theorem decoding_missing_entry (model : HookedTransformer R) (dataset : Dataset Graph)
    (lenses : option (gmap string (Tensor2 R))) (labels : list string) (position : Z)
    (cache : gmap string (Tensor3 R)) (layer : nat) :
  (1 ≤ layer ≤ n_layers model)%nat →
  cache !! lens_act_name (n_layers model) layer = None ∨
  (∃ ls, lenses = Some ls ∧ ls !! lens_act_name (n_layers model) layer = None) →
  logit_lens_table argmax num_last model dataset lenses labels cache = (None, cache) ∧
  correct_probs softmax model dataset lenses labels position cache = (None, cache).
Proof.
  intros Hlayer Hmissing.
  assert (Hin : layer ∈ seq 1 (n_layers model)) by (apply elem_of_seq; lia).
  rewrite logit_lens_table_reads, correct_probs_reads. split.
  - rewrite (mapM_None_2 _ (seq 1 (n_layers model))); [done|].
    apply Exists_exists. exists layer. split; [done|].
    rewrite logit_lens_layer_reads. cbn [fst].
    destruct Hmissing as [->|(ls & -> & Hls)]; [done|].
    destruct (cache !! _) as [act|]; [|done]. cbn [mbind option_bind].
    destruct (py_index act 0) as [res|]; [|done]. cbn [mbind option_bind].
    unfold lens_project. by rewrite Hls.
  - destruct (py_index labels (position + 1)) as [tok|]; [|done]. cbn [mbind option_bind].
    destruct (tokens2idx dataset tok) as [idx|]; [|done]. cbn [mbind option_bind].
    rewrite (mapM_None_2 _ (seq 1 (n_layers model))); [done|].
    apply Exists_exists. exists layer. split; [done|].
    rewrite correct_prob_layer_reads. cbn [fst].
    destruct Hmissing as [->|(ls & -> & Hls)]; [done|].
    destruct (cache !! _) as [act|]; [|done]. cbn [mbind option_bind].
    destruct (py_index act 0) as [res|]; [|done]. cbn [mbind option_bind].
    unfold lens_project. by rewrite Hls.
Qed.

(** X12. Probability mode returns one probability per layer. *)
Theorem correct_probs_length (model : HookedTransformer R) (dataset : Dataset Graph)
    (lenses : option (gmap string (Tensor2 R))) (labels : list string) (position : Z)
    (cache cache' : gmap string (Tensor3 R)) (probs : list R) :
  correct_probs softmax model dataset lenses labels position cache = (Some probs, cache') →
  length probs = n_layers model.
Proof.
  rewrite correct_probs_reads. intros [= Hprobs _].
  destruct (py_index labels (position + 1)) as [tok|]; simpl in Hprobs; [|done].
  destruct (tokens2idx dataset tok) as [idx|]; simpl in Hprobs; [|done].
  destruct (mapM _ _) as [ps|] eqn:Hmap; simpl in Hprobs; [|done].
  destruct (py_index labels position); simpl in Hprobs; [|done].
  injection Hprobs as <-. apply length_mapM in Hmap.
  by rewrite <- Hmap, length_seq.
Qed.

(** X13. Probability mode needs a label after the position: it returns
    only for [-length ≤ position < length - 1], so the last position
    raises, while position [-1] is accepted and takes the first label as
    the next one. *)
Theorem correct_probs_position (model : HookedTransformer R) (dataset : Dataset Graph)
    (lenses : option (gmap string (Tensor2 R))) (labels : list string) (position : Z)
    (cache cache' : gmap string (Tensor3 R)) (probs : list R) :
  correct_probs softmax model dataset lenses labels position cache = (Some probs, cache') →
  - Z.of_nat (length labels) ≤ position < Z.of_nat (length labels) - 1 ∧
  (position = -1 →
   ∃ first_label idx, labels !! 0%nat = Some first_label ∧
     tokens2idx dataset first_label = Some idx ∧
     mapM (λ layer, (correct_prob_layer softmax model lenses (-1) idx layer cache).1)
          (seq 1 (n_layers model)) = Some probs).
Proof.
  rewrite correct_probs_reads. intros [= Hprobs _].
  destruct (py_index labels (position + 1)) as [tok|] eqn:Hnext; simpl in Hprobs; [|done].
  destruct (tokens2idx dataset tok) as [idx|] eqn:Hidx; simpl in Hprobs; [|done].
  destruct (mapM _ _) as [ps|] eqn:Hmap; simpl in Hprobs; [|done].
  destruct (py_index labels position) as [cur|] eqn:Hcur; simpl in Hprobs; [|done].
  injection Hprobs as <-.
  pose proof (py_index_is_Some labels (position + 1) (mk_is_Some _ _ Hnext)) as Hb1.
  pose proof (py_index_is_Some labels position (mk_is_Some _ _ Hcur)) as Hb2.
  split; [lia|]. intros ->. change (-1 + 1) with 0 in Hnext.
  rewrite py_index_0 in Hnext. by exists tok, idx.
Qed.

End MoreLens.

Section TableShape.
Context {R : Type} `{Scalar R} {Graph : Type}.
Variable argmax : Tensor1 R → Z.
Variable num_last : list string → string → Z.

Lemma matmul_length (A B C : Tensor2 R) : matmul A B = Some C → length C = length A.
Proof. unfold matmul. case_decide; [|done]. intros [= <-]. by rewrite length_fmap. Qed.

(** A row of the table: the title of the layer, then the window of the
    tokens decoded at the positions of the residual stream. *)
Lemma logit_lens_layer_row (model : HookedTransformer R) (dataset : Dataset Graph)
    lenses (end_ : Z) (layer : nat) (cache : gmap string (Tensor3 R))
    (act : Tensor3 R) (batch0 : Tensor2 R) (out : list string) :
  (logit_lens_layer argmax model dataset lenses end_ layer cache).1 = Some out →
  cache !! lens_act_name (n_layers model) layer = Some act →
  act !! 0%nat = Some batch0 →
  ∃ lens_out : list string,
    out = ("Layer " +:+ pretty layer +:+ " LL") :: py_slice lens_out 47 end_ ∧
    length lens_out = length batch0.
Proof.
  rewrite logit_lens_layer_reads. cbn [fst]. intros Hout Hact Hb0.
  rewrite Hact in Hout. cbn [mbind option_bind] in Hout.
  rewrite py_index_0, Hb0 in Hout. cbn [mbind option_bind] in Hout.
  destruct (lens_project _ _ _ _) as [proj|] eqn:Hproj; simpl in Hout; [|done].
  destruct (mapM _ _) as [lens_out|] eqn:Hmap; simpl in Hout; [|done].
  injection Hout as <-. exists lens_out. split; [done|].
  apply length_mapM in Hmap. rewrite length_fmap in Hmap. rewrite <- Hmap.
  unfold lens_project in Hproj. destruct lenses as [ls|].
  - destruct (ls !! _); simpl in Hproj; [|done]. by eapply matmul_length.
  - by eapply matmul_length.
Qed.

(** X14. When the probed activations have one vector per label, the
    table is rectangular: as many columns of cells as the header has
    entries, one cell per layer in every column, the first column holding
    the layer titles in order. *)
Theorem logit_lens_table_shape (model : HookedTransformer R) (dataset : Dataset Graph)
    (lenses : option (gmap string (Tensor2 R))) (labels : list string)
    (cache cache' : gmap string (Tensor3 R)) (header : list string)
    (cells : list (list string)) :
  (0 < n_layers model)%nat →
  (∀ layer, (1 ≤ layer ≤ n_layers model)%nat →
     ∃ act batch0, cache !! lens_act_name (n_layers model) layer = Some act ∧
                   act !! 0%nat = Some batch0 ∧ length batch0 = length labels) →
  logit_lens_table argmax num_last model dataset lenses labels cache
  = (Some (header, cells), cache') →
  length cells = length header ∧
  Forall (λ column, length column = n_layers model) cells ∧
  cells !! 0%nat
  = Some ((λ layer, "Layer " +:+ pretty layer +:+ " LL") <$> seq 1 (n_layers model)).
Proof.
  intros Hn Hcache. rewrite logit_lens_table_reads. intros [= Htable _].
  destruct (mapM _ _) as [outs|] eqn:Hmap; simpl in Htable; [|done].
  injection Htable as <- <-.
  set (end_ := num_last labels ",") in *.
  set (width := (py_slice_bound (length labels) end_
                 - py_slice_bound (length labels) 47)%nat).
  apply mapM_Some_1 in Hmap.
  pose proof (Forall2_length _ _ _ Hmap) as Hlen. rewrite length_seq in Hlen.
  assert (Hrows : ∀ i out, outs !! i = Some out →
            ∃ lens_out, out = ("Layer " +:+ pretty (1 + i)%nat +:+ " LL")
                              :: py_slice lens_out 47 end_ ∧
                        length lens_out = length labels).
  { intros i out Hout.
    destruct (Forall2_lookup_r _ _ _ _ _ Hmap Hout) as (layer & Hlayer & Hrow).
    apply lookup_seq in Hlayer as [-> Hi].
    destruct (Hcache (1 + i)%nat) as (act & b0 & Hact & Hb0 & Hb0len); [lia|].
    destruct (logit_lens_layer_row _ _ _ _ _ _ _ _ _ Hrow Hact Hb0)
      as (lens_out & -> & Hlo).
    exists lens_out. split; [done|]. by rewrite Hlo. }
  assert (Hshape : Forall (λ out : list string, length out = S width) outs).
  { apply Forall_lookup. intros i out Hout.
    destruct (Hrows i out Hout) as (lens_out & -> & Hlo).
    simpl. by rewrite py_slice_length, Hlo. }
  destruct (transpose_shape outs (n_layers model) (S width)) as [Hcols Hcol];
    [lia|done|done|].
  split; [|split; [done|]].
  - rewrite Hcols. simpl. by rewrite py_slice_length.
  - rewrite (transpose_lookup outs (n_layers model) (S width)) by (done || lia).
    f_equal. apply list_eq. intros i.
    assert (Hlt : Forall (λ out : list string, (0 < length out)%nat) outs).
    { eapply Forall_impl; [done|]. simpl. intros out ->. lia. }
    destruct (column_lookup outs 0 Hlt) as [Hclen Hget].
    destruct (decide (i < n_layers model)%nat) as [Hi|Hi].
    + destruct (lookup_lt_is_Some_2 outs i) as [out Hout]; [lia|].
      rewrite (Hget i out Hout).
      destruct (Hrows i out Hout) as (lens_out & -> & _).
      rewrite list_lookup_fmap, lookup_seq_lt by done. done.
    + rewrite !lookup_ge_None_2; [done| |lia].
      rewrite length_fmap, length_seq. lia.
Qed.

End TableShape.

Lemma supplied_lenses_decide_witness :
  logit_lens_table toy_argmax toy_num_last toy_model_blind toy_dataset
    (Some (<["blocks.0.hook_resid_pre" := []]> toy_lenses)) toy_example.1 toy_example.2
  = logit_lens_table toy_argmax toy_num_last toy_model toy_dataset
      (Some toy_lenses) toy_example.1 toy_example.2 ∧
  correct_probs toy_softmax toy_model_blind toy_dataset
    (Some (<["blocks.0.hook_resid_pre" := []]> toy_lenses)) toy_example.1 3 toy_example.2
  = correct_probs toy_softmax toy_model toy_dataset
      (Some toy_lenses) toy_example.1 3 toy_example.2.
Proof.
  apply (supplied_lenses_decide toy_argmax toy_softmax toy_num_last
           toy_model toy_model_blind toy_dataset).
  - reflexivity.
  - intros layer Hlayer. simpl in Hlayer.
    destruct layer as [|[|[|layer]]]; [lia| | |lia]; vm_compute; reflexivity.
Defined.

Lemma decoding_missing_entry_witness :
  logit_lens_table toy_argmax toy_num_last toy_model toy_dataset None toy_example.1 ∅
  = (None, ∅) ∧
  correct_probs toy_softmax toy_model toy_dataset None toy_example.1 3 ∅ = (None, ∅).
Proof.
  apply (decoding_missing_entry toy_argmax toy_softmax toy_num_last
           toy_model toy_dataset None toy_example.1 3 ∅ 1).
  - simpl. lia.
  - left. reflexivity.
Defined.

Lemma correct_probs_length_witness : length [1 # 4; 9 # 32]%Q = n_layers toy_model.
Proof.
  apply (correct_probs_length toy_softmax toy_model toy_dataset None toy_example.1 3
           toy_example.2 toy_example.2).
  vm_compute; reflexivity.
Defined.

Lemma correct_probs_position_witness :
  - Z.of_nat (length toy_example.1) ≤ 3 < Z.of_nat (length toy_example.1) - 1 ∧
  (3 = -1 →
   ∃ first_label idx, toy_example.1 !! 0%nat = Some first_label ∧
     tokens2idx toy_dataset first_label = Some idx ∧
     mapM (λ layer, (correct_prob_layer toy_softmax toy_model None (-1) idx layer
                       toy_example.2).1)
          (seq 1 (n_layers toy_model)) = Some [1 # 4; 9 # 32]%Q).
Proof.
  apply (correct_probs_position toy_softmax toy_model toy_dataset None toy_example.1 3
           toy_example.2 toy_example.2).
  vm_compute; reflexivity.
Defined.

Example toy_correct_probs_last_position_raises :
  (correct_probs toy_softmax toy_model toy_dataset None toy_example.1 6 toy_example.2).1
  = None.
Proof. vm_compute; reflexivity. Qed.

Lemma logit_lens_table_shape_witness :
  length [["Layer 1 LL"; "Layer 2 LL"]] = length ["Current Input"] ∧
  Forall (λ column : list string, length column = n_layers toy_model)
         [["Layer 1 LL"; "Layer 2 LL"]] ∧
  [["Layer 1 LL"; "Layer 2 LL"]] !! 0%nat
  = Some ((λ layer, "Layer " +:+ pretty layer +:+ " LL") <$> seq 1 (n_layers toy_model)).
Proof.
  apply (logit_lens_table_shape toy_argmax toy_num_last toy_model toy_dataset None
           toy_example.1 toy_example.2 toy_example.2 ["Current Input"]).
  - simpl. lia.
  - intros layer Hlayer. simpl in Hlayer.
    destruct layer as [|[|[|layer]]]; [lia| | |lia];
      eexists _, _; (split; [vm_compute; reflexivity|]); split; reflexivity.
  - vm_compute; reflexivity.
Defined.

(** ** More on the calibrator *)

(** The decoder probes exactly the points the calibrator aggregates. *)
Lemma lens_act_name_in_keys (n layer : nat) :
  (1 ≤ layer ≤ n)%nat → lens_act_name n layer ∈ tuned_lens_keys n.
Proof.
  intros Hlayer. unfold lens_act_name, tuned_lens_keys. apply elem_of_app.
  case_decide as Hlt.
  - left. apply list_elem_of_fmap. exists layer. split; [done|].
    apply elem_of_seq. lia.
  - right. by apply list_elem_of_singleton.
Qed.

Lemma np_where_item_unique (tokens : list Z) (tok m : Z) :
  np_where_item tokens tok = Some m →
  ∃ i : nat, m = Z.of_nat i ∧ tokens !! i = Some tok ∧
             ∀ j, tokens !! j = Some tok → j = i.
Proof.
  unfold np_where_item.
  destruct (filter _ _) as [|i [|? ?]] eqn:Hf; try done.
  intros [= <-]. exists i.
  assert (Hmem : ∀ j, j ∈ filter (λ i, tokens !! i = Some tok) (seq 0 (length tokens))
                      ↔ tokens !! j = Some tok).
  { intros j. rewrite list_elem_of_filter, elem_of_seq. split; [by intros [? _]|].
    intros Hj. split; [done|]. apply lookup_lt_Some in Hj. lia. }
  split; [done|]. split.
  - apply Hmem. rewrite Hf. by left.
  - intros j Hj. apply Hmem in Hj. rewrite Hf in Hj.
    by apply list_elem_of_singleton in Hj.
Qed.

Section MoreTranslators.
Context {R : Type}.
Variable LinearClsProbe_fit : bool → Tensor2 R → list Z → option (Tensor2 R).

Lemma fit_translators_keys (keys : list string) (X : gmap string (Tensor2 R))
    (y : list Z) (translators : gmap string (Tensor2 R)) :
  fit_translators LinearClsProbe_fit keys X y = Some translators →
  ∀ key, key ∈ keys → is_Some (translators !! key).
Proof.
  unfold fit_translators. intros Hfit.
  refine (foldM_rel (λ xs (tr : gmap string (Tensor2 R)),
            ∀ key, key ∈ xs → is_Some (tr !! key)) _ keys ∅ translators _ _ Hfit).
  - by intros key ?%elem_of_nil.
  - intros xs x tr tr' Hinv Hstep.
    destruct (X !! x) as [rows|]; simpl in Hstep; [|done].
    destruct (LinearClsProbe_fit false rows y) as [W|]; simpl in Hstep; [|done].
    injection Hstep as <-. intros key Hkey. rewrite lookup_insert.
    case_decide; [done|]. apply Hinv.
    apply elem_of_app in Hkey as [Hkey|Hkey%list_elem_of_singleton]; [done|].
    by subst.
Qed.

(** X15. The lenses fitted for the probe points of the calibrator cover
    the decoder: for every layer the decoder visits, the lens it looks up
    is there. *)
Theorem fitted_lenses_cover_decoder (n : nat) (X : gmap string (Tensor2 R))
    (y : list Z) (translators : gmap string (Tensor2 R)) :
  fit_translators LinearClsProbe_fit (tuned_lens_keys n) X y = Some translators →
  ∀ layer, (1 ≤ layer ≤ n)%nat → is_Some (translators !! lens_act_name n layer).
Proof.
  intros Hfit layer Hlayer. eapply fit_translators_keys; [done|].
  by apply lens_act_name_in_keys.
Qed.

End MoreTranslators.

Section MoreCalibration.
Context {R Graph : Type}.
Variable num_last : list string → string → Z.
Variable dataset : Dataset Graph.
Variable acts : gmap string (list (Tensor3 R)).

Lemma calibration_fold_spans (keys : list string) (ggs : list (nat * Graph))
    (Xy Xy' : gmap string (list (Tensor2 R)) * list (list Z)) :
  foldM (calibration_step num_last dataset acts keys) ggs Xy = Some Xy' →
  Forall (λ gg, is_Some (example_span num_last dataset gg.2)) ggs.
Proof.
  intros Hfold.
  refine (foldM_rel (λ xs _, Forall (λ gg : nat * Graph,
                                       is_Some (example_span num_last dataset gg.2)) xs)
            _ ggs Xy Xy' _ _ Hfold); [constructor|].
  intros xs [gidx graph] [X1 y1] c' Hall Hstep. simpl in Hstep.
  destruct (example_span num_last dataset graph) as [span|] eqn:Hspan;
    simpl in Hstep; [|done].
  apply Forall_app. split; [done|]. repeat constructor. simpl. by rewrite Hspan.
Qed.

(** X16. The calibration dataset is built only if every accepted example,
    its last token dropped, holds the start marker exactly once and only
    tokens the vocabulary names; otherwise the call raises. *)
Theorem calibration_needs_one_marker (keys : list string) (graphs : list Graph)
    (X : gmap string (Tensor2 R)) (y : list Z) :
  calibration_dataset num_last dataset acts keys graphs = Some (X, y) →
  ∀ graph, graph ∈ graphs →
    let tokens := removelast (tokenize dataset graph) in
    (∃ marker : nat,
       tokens !! marker = Some (start_token dataset) ∧
       ∀ j, tokens !! j = Some (start_token dataset) → j = marker) ∧
    Forall (λ t, is_Some (idx2tokens dataset t)) tokens.
Proof.
  intros Hcal graph Hgraph. cbv zeta.
  set (tokens := removelast (tokenize dataset graph)).
  unfold calibration_dataset in Hcal.
  destruct (foldM (calibration_step _ _ _ _) _ _) as [Xy|] eqn:Hfold;
    simpl in Hcal; [|done].
  apply calibration_fold_spans in Hfold.
  apply list_elem_of_lookup in Hgraph as [i Hi].
  assert (Hz : zip (seq 0 (length graphs)) graphs !! i = Some (i, graph)).
  { rewrite lookup_zip_with, lookup_seq_lt by (by eapply lookup_lt_Some).
    simpl. by rewrite Hi. }
  rewrite Forall_lookup in Hfold. destruct (Hfold _ _ Hz) as [span Hspan].
  simpl in Hspan. unfold example_span in Hspan. fold tokens in Hspan.
  destruct (np_where_item tokens _) as [m|] eqn:Hm; simpl in Hspan; [|done].
  destruct (mapM _ tokens) as [labels|] eqn:Hlabels; simpl in Hspan; [|done].
  split.
  - apply np_where_item_unique in Hm as (marker & _ & Hmarker & Huniq). by exists marker.
  - apply mapM_is_Some. by rewrite Hlabels.
Qed.

End MoreCalibration.

Lemma fitted_lenses_cover_decoder_witness :
  let fitted :=
    fit_translators toy_fit (tuned_lens_keys 2)
      (list_to_map ((λ key, (key, [[19; 18; 9; 18]; [19; 18; 9; 18]]%Q))
                      <$> tuned_lens_keys 2)) [1; 1] in
  fitted = Some (default ∅ fitted) ∧
  ∀ layer, (1 ≤ layer ≤ 2)%nat → is_Some (default ∅ fitted !! lens_act_name 2 layer).
Proof.
  intros fitted.
  assert (Hfit : fitted = Some (default ∅ fitted)) by (vm_compute; reflexivity).
  split; [exact Hfit|].
  exact (fitted_lenses_cover_decoder toy_fit 2 _ _ _ Hfit).
Defined.

Lemma calibration_needs_one_marker_witness :
  let built :=
    calibration_dataset toy_num_last toy_dataset toy_acts (tuned_lens_keys 2) toy_graphs in
  built = Some (default (∅, []) built) ∧
  ∀ graph, graph ∈ toy_graphs →
    let tokens := removelast (tokenize toy_dataset graph) in
    (∃ marker : nat,
       tokens !! marker = Some (start_token toy_dataset) ∧
       ∀ j, tokens !! j = Some (start_token toy_dataset) → j = marker) ∧
    Forall (λ t, is_Some (idx2tokens toy_dataset t)) tokens.
Proof.
  intros built.
  assert (Hbuilt : built = Some ((default (∅, []) built).1, (default (∅, []) built).2))
    by (vm_compute; reflexivity).
  split; [by rewrite Hbuilt at 1; destruct (default _ _)|].
  exact (calibration_needs_one_marker toy_num_last toy_dataset toy_acts
           (tuned_lens_keys 2) toy_graphs _ _ Hbuilt).
Defined.

Example toy_two_markers_raise :
  calibration_dataset toy_num_last toy_dataset toy_acts (tuned_lens_keys 2)
    [[0; 2; 2; 0; 1; 3; 3; 3]] = None.
Proof. vm_compute; reflexivity. Qed.

(** ** The attention display *)

Section MoreSlices.
Context {A : Type}.

Lemma py_slice_prefix (l : list A) (stop : Z) :
  0 ≤ stop → py_slice l 0 stop = take (Z.to_nat stop) l.
Proof.
  intros Hstop. unfold py_slice, py_slice_bound.
  rewrite decide_False by lia. rewrite decide_False by lia.
  replace (Z.to_nat (0 `min` Z.of_nat (length l))) with 0%nat by lia.
  rewrite drop_0, Nat.sub_0_r.
  destruct (decide (stop ≤ Z.of_nat (length l))) as [Hle|Hgt].
  - f_equal. lia.
  - rewrite !take_ge by lia. done.
Qed.

End MoreSlices.

(** The bound on the turns of the loop loses nothing: more fuel gives
    the same outcome. *)
Lemma trim_padding_fuel (labels : list string) :
  ∀ (fuel : nat) (last_idx : Z),
    (Z.to_nat (last_idx + Z.of_nat (length labels)) < fuel)%nat →
    trim_padding (S fuel) labels last_idx = trim_padding fuel labels last_idx.
Proof.
  induction fuel as [|fuel IH]; intros last_idx Hfuel; [lia|].
  cbn [trim_padding].
  destruct (py_index labels last_idx) as [label|] eqn:Hlabel; [|done].
  cbn [mbind option_bind]. case_decide; [|done].
  pose proof (py_index_is_Some labels last_idx (mk_is_Some _ _ Hlabel)) as Hrange.
  destruct fuel as [|fuel].
  - cbn [trim_padding]. rewrite py_index_out_of_range by lia. done.
  - apply IH. lia.
Qed.

(** Nothing but padding: the loop runs off the front of the labels. *)
Lemma trim_padding_all_commas (labels : list string) (fuel : nat) (last_idx : Z) :
  Forall (λ label, label = ",") labels → trim_padding fuel labels last_idx = None.
Proof.
  intros Hall. revert last_idx. induction fuel as [|fuel IH]; intros last_idx; [done|].
  cbn [trim_padding].
  destruct (py_index labels last_idx) as [label|] eqn:Hlabel; [|done].
  cbn [mbind option_bind].
  assert (label ∈ labels) as Hin.
  { unfold py_index in Hlabel. repeat case_decide; try done;
      by eapply list_elem_of_lookup_2. }
  rewrite Forall_forall in Hall. rewrite (Hall _ Hin). rewrite decide_True by done.
  apply IH.
Qed.

(** Padding after a proper label: the loop stops at that label. *)
Lemma trim_padding_stops (kept : list string) (label : string) (k : nat) :
  last kept = Some label → label ≠ "," →
  ∀ (j fuel : nat), (j ≤ k)%nat → (j < fuel)%nat →
    trim_padding fuel (kept ++ replicate k ",") (Z.of_nat (length kept + j) - 1)
    = Some (Z.of_nat (length kept) - 1).
Proof.
  intros Hlast Hlabel.
  assert (Hkept : (0 < length kept)%nat).
  { destruct kept; [done|simpl; lia]. }
  induction j as [|j IH]; intros fuel Hj Hfuel;
    (destruct fuel as [|fuel]; [lia|]); cbn [trim_padding].
  - rewrite py_index_nonneg by lia.
    replace (Z.to_nat (Z.of_nat (length kept + 0) - 1)) with (pred (length kept)) by lia.
    rewrite lookup_app_l by lia. rewrite <- last_lookup, Hlast. cbn [mbind option_bind].
    rewrite decide_False by done. f_equal. lia.
  - rewrite py_index_nonneg by lia.
    replace (Z.to_nat (Z.of_nat (length kept + S j) - 1)) with (length kept + j)%nat by lia.
    rewrite lookup_app_r by lia.
    rewrite lookup_replicate_2 by lia. cbn [mbind option_bind].
    rewrite decide_True by done.
    replace (Z.of_nat (length kept + S j) - 1 - 1) with (Z.of_nat (length kept + j) - 1)
      by lia.
    apply IH; lia.
Qed.

Section DisplayHead.
Context {R : Type}.

(** X17. When the pattern has one row per label and the labels end in
    padding commas after a proper label, the figure shows the pattern
    and the labels cut down to the part before the padding. *)
Theorem display_head_trims_padding (cache : gmap string (Tensor4 R))
    (labels kept : list string) (layer head : Z) (show : bool)
    (average_patterns : Tensor4 R) (batch0 : list (Tensor2 R)) (pattern : Tensor2 R)
    (label : string) (k : nat) :
  cache !! ("blocks." +:+ pretty layer +:+ ".attn.hook_pattern") = Some average_patterns →
  shape_last average_patterns = length labels →
  py_index average_patterns 0 = Some batch0 →
  py_index batch0 head = Some pattern →
  labels = kept ++ replicate k "," →
  last kept = Some label → label ≠ "," →
  let fig := ((λ row, take (length kept) row) <$> take (length kept) pattern, kept) in
  display_head cache labels layer head show
  = Some (if show then (Some fig, None) else (None, Some fig)).
Proof.
  intros Hcache Hshape Hb0 Hpattern -> Hlast Hlabel fig.
  unfold display_head, display_head_figure. rewrite Hcache. cbn [mbind option_bind].
  rewrite Hshape. rewrite length_app, length_replicate.
  rewrite (trim_padding_stops kept label k Hlast Hlabel k) by lia.
  cbn [mbind option_bind]. rewrite Hb0. cbn [mbind option_bind].
  rewrite Hpattern. cbn [mbind option_bind].
  replace (Z.of_nat (length kept) - 1 + 1) with (Z.of_nat (length kept)) by lia.
  rewrite !py_slice_prefix by lia. rewrite Nat2Z.id.
  rewrite take_app_length.
  assert (Hm : (λ row : Tensor1 R, py_slice row 0 (Z.of_nat (length kept)))
                 <$> take (length kept) pattern
               = (λ row, take (length kept) row) <$> take (length kept) pattern).
  { apply list_fmap_ext. intros i row _. rewrite py_slice_prefix by lia.
    by rewrite Nat2Z.id. }
  by rewrite Hm.
Qed.

(** X18. [display_head] raises when the labels are nothing but padding
    (or empty), and when the pattern is wider than the labels. *)
Theorem display_head_raises (cache : gmap string (Tensor4 R)) (labels : list string)
    (layer head : Z) (show : bool) :
  Forall (λ label, label = ",") labels ∨
  (∀ average_patterns,
     cache !! ("blocks." +:+ pretty layer +:+ ".attn.hook_pattern")
     = Some average_patterns →
     (length labels < shape_last average_patterns)%nat) →
  display_head cache labels layer head show = None.
Proof.
  intros Hcase. unfold display_head, display_head_figure.
  destruct (cache !! _) as [average_patterns|] eqn:Hcache; [|done].
  cbn [mbind option_bind]. destruct Hcase as [Hall|Hwide].
  - by rewrite trim_padding_all_commas.
  - specialize (Hwide _ eq_refl). cbn [trim_padding].
    rewrite (py_index_out_of_range labels) by lia. done.
Qed.

End DisplayHead.

(** ** The labels of the patching plot *)

Lemma chars_app (s t : string) :
  String.list_ascii_of_string (s +:+ t) = String.list_ascii_of_string s ++ String.list_ascii_of_string t.
Proof. induction s as [|c s IH]; simpl; [done|]. by rewrite IH. Qed.

Lemma chars_inj (s t : string) :
  String.list_ascii_of_string s = String.list_ascii_of_string t → s = t.
Proof.
  intros Heq. rewrite <- (String.string_of_list_ascii_of_string s),
    <- (String.string_of_list_ascii_of_string t). by rewrite Heq.
Qed.

(** A decimal numeral holds no underscore. *)
Lemma pretty_N_go_no_underscore (x : N) (s : string) :
  "_"%char ∉ String.list_ascii_of_string s →
  "_"%char ∉ String.list_ascii_of_string (pretty_N_go x s).
Proof.
  revert s. induction (N.lt_wf_0 x) as [x _ IH]; intros s Hs.
  assert (x = 0 ∨ 0 < x)%N as [->|Hpos] by lia.
  - by rewrite pretty_N_go_0.
  - rewrite pretty_N_go_step by done. apply IH.
    { by apply N.div_lt. }
    simpl. apply not_elem_of_cons. split; [|done].
    unfold pretty_N_char. by repeat case_match.
Qed.

Lemma pretty_nat_no_underscore (n : nat) :
  "_"%char ∉ String.list_ascii_of_string (pretty n).
Proof.
  unfold pretty, pretty_nat, pretty, pretty_N. case_decide.
  - simpl. by intros [?|?%elem_of_nil]%elem_of_cons.
  - apply pretty_N_go_no_underscore. simpl. apply not_elem_of_nil.
Qed.

(** Two lists split at the last occurrence of [x] have equal parts. *)
Lemma app_cons_inj_last {A} (x : A) (l1 l2 r1 r2 : list A) :
  x ∉ r1 → x ∉ r2 → l1 ++ x :: r1 = l2 ++ x :: r2 → l1 = l2 ∧ r1 = r2.
Proof.
  intros H1 H2 Heq.
  assert (Hrev : reverse r1 ++ x :: reverse l1 = reverse r2 ++ x :: reverse l2).
  { apply (f_equal reverse) in Heq.
    by rewrite !reverse_app, !reverse_cons, <- !app_assoc in Heq. }
  assert (Hgen : ∀ a b c d : list A, x ∉ a → x ∉ b → a ++ x :: c = b ++ x :: d →
                                      a = b ∧ c = d).
  { clear. induction a as [|y a IH]; intros [|z b] c d Ha Hb Heq; simpl in Heq.
    - by injection Heq as ->.
    - injection Heq as <- _. exfalso. apply Hb. by left.
    - injection Heq as -> _. exfalso. apply Ha. by left.
    - injection Heq as -> Heq. apply not_elem_of_cons in Ha as [_ Ha].
      apply not_elem_of_cons in Hb as [_ Hb].
      destruct (IH b c d Ha Hb Heq) as [-> ->]. done. }
  destruct (Hgen (reverse r1) (reverse r2) (reverse l1) (reverse l2)) as [Hr Hl];
    [by rewrite elem_of_reverse|by rewrite elem_of_reverse|done|].
  split; by apply (inj reverse).
Qed.

(** The index can be read back off a label, whatever the token name. *)
Lemma indexed_label_inj (s1 s2 : string) (i1 i2 : nat) :
  s1 +:+ "_" +:+ pretty i1 = s2 +:+ "_" +:+ pretty i2 → s1 = s2 ∧ i1 = i2.
Proof.
  intros Heq. apply (f_equal String.list_ascii_of_string) in Heq.
  rewrite !chars_app in Heq. simpl in Heq.
  apply app_cons_inj_last in Heq as [Hs Hi]; try apply pretty_nat_no_underscore.
  split; [by apply chars_inj|]. apply chars_inj in Hi. by apply (inj pretty) in Hi.
Qed.

Section PlotLabels.
Context {R Graph : Type}.

(** X19. The column labels of the plot are the token names with the
    position appended, one per token of the prompt and pairwise distinct
    even when a token occurs twice; a token the vocabulary does not name
    raises. *)
Theorem plot_activations_labels (patching_result grid : Tensor2 R)
    (clean_tokens : list Z) (dataset : Dataset Graph) (token_labels : list string) :
  plot_activations patching_result clean_tokens dataset = Some (grid, token_labels) →
  grid = patching_result ∧
  length token_labels = length clean_tokens ∧
  NoDup token_labels ∧
  ∀ (i : nat) (token : Z), clean_tokens !! i = Some token →
    ∃ name, idx2tokens dataset token = Some name ∧
            token_labels !! i = Some (name +:+ "_" +:+ pretty i).
Proof.
  unfold plot_activations. intros Hplot.
  destruct (mapM _ _) as [ls|] eqn:Hmap; simpl in Hplot; [|done].
  injection Hplot as <- <-. apply mapM_Some_1 in Hmap.
  assert (Hlen : length ls = length clean_tokens).
  { rewrite <- (Forall2_length _ _ _ Hmap), length_zip_with, length_seq. lia. }
  assert (Hcell : ∀ i l, ls !! i = Some l →
            ∃ token name, clean_tokens !! i = Some token ∧
                          idx2tokens dataset token = Some name ∧
                          l = name +:+ "_" +:+ pretty i).
  { intros i l Hl.
    destruct (Forall2_lookup_r _ _ _ _ _ Hmap Hl) as ([j token] & Hz & Hstep).
    apply enumerate_lookup in Hz as [-> Htoken]. simpl in Hstep.
    destruct (idx2tokens dataset token) as [name|] eqn:Hname; simpl in Hstep; [|done].
    injection Hstep as <-. by exists token, name. }
  split; [done|]. split; [done|]. split.
  - apply NoDup_alt. intros i j l Hi Hj.
    destruct (Hcell i l Hi) as (ti & ni & _ & _ & Hli).
    destruct (Hcell j l Hj) as (tj & nj & _ & _ & Hlj).
    rewrite Hli in Hlj. by apply indexed_label_inj in Hlj as [_ ?].
  - intros i token Htoken.
    destruct (lookup_lt_is_Some_2 ls i) as [l Hl].
    { rewrite Hlen. by eapply lookup_lt_Some. }
    destruct (Hcell i l Hl) as (token' & name & Htoken' & Hname & ->).
    rewrite Htoken in Htoken'. injection Htoken' as <-. by exists name.
Qed.

End PlotLabels.

Lemma display_head_trims_padding_witness :
  display_head toy_patterns ["a"; "b"; ","] 0 0 false
  = Some (None, Some ([[1; 0]; [2; 3]]%Q, ["a"; "b"])).
Proof.
  apply (display_head_trims_padding toy_patterns ["a"; "b"; ","] ["a"; "b"] 0 0 false
           [[[[1; 0; 0]; [2; 3; 0]; [4; 5; 6]]]]%Q [[[1; 0; 0]; [2; 3; 0]; [4; 5; 6]]]%Q
           [[1; 0; 0]; [2; 3; 0]; [4; 5; 6]]%Q "b" 1);
    first [reflexivity | done].
Defined.

Lemma display_head_raises_witness :
  display_head toy_patterns [","; ","; ","] 0 0 true = None.
Proof.
  apply (display_head_raises toy_patterns [","; ","; ","] 0 0 true).
  left. by repeat constructor.
Defined.

Example toy_pattern_wider_than_labels :
  display_head toy_patterns ["a"; "b"] 0 0 true = None.
Proof. reflexivity. Qed.

Lemma plot_activations_labels_witness :
  [[1; 2]]%Q = [[1; 2]]%Q ∧
  length ["a_0"; "a_1"] = length [0; 0] ∧
  NoDup ["a_0"; "a_1"] ∧
  ∀ (i : nat) (token : Z), [0; 0] !! i = Some token →
    ∃ name, idx2tokens toy_dataset token = Some name ∧
            ["a_0"; "a_1"] !! i = Some (name +:+ "_" +:+ pretty i).
Proof.
  apply (plot_activations_labels [[1; 2]]%Q [[1; 2]]%Q [0; 0] toy_dataset ["a_0"; "a_1"]).
  reflexivity.
Defined.

(** ** The neighbour probabilities *)

Section PrefixLoops.
Context {A B : Type}.

(** As [foldM_rel], the body knowing where in the list it is. *)
Lemma foldM_prefix (Q : list A → B → Prop) (f : B → A → option B) (l : list A) (b b' : B) :
  Q [] b →
  (∀ xs x ys c c', l = xs ++ x :: ys → Q xs c → f c x = Some c' → Q (xs ++ [x]) c') →
  foldM f l b = Some b' → Q l b'.
Proof.
  intros Hinit Hstep.
  assert (Hgen : ∀ suf pre c, l = pre ++ suf → Q pre c → foldM f suf c = Some b' → Q l b').
  { induction suf as [|x suf IH]; intros pre c Hl Hc Hfold; simpl in Hfold.
    - injection Hfold as <-. rewrite app_nil_r in Hl. by subst.
    - destruct (f c x) as [c'|] eqn:Hf; simpl in Hfold; [|done].
      apply (IH (pre ++ [x]) c'); [by rewrite <- app_assoc| |done].
      by eapply Hstep. }
  by apply (Hgen l [] b).
Qed.

End PrefixLoops.

Lemma lookup_empty_lists_None {V} (keys : list string) (key : string) :
  key ∉ keys →
  (list_to_map ((λ k, (k, [])) <$> keys) : gmap string (list V)) !! key = None.
Proof.
  intros Hkey. apply not_elem_of_list_to_map_1.
  rewrite <- list_fmap_compose. by rewrite list_fmap_id.
Qed.

Lemma neighbor_token_inj (i j : nat) : ">" +:+ pretty i = ">" +:+ pretty j → i = j.
Proof. intros Heq. apply (inj (String.append ">")) in Heq. by apply (inj pretty) in Heq. Qed.

(** The neighbour tokens: one per state with a positive entry, in order
    and without repetition. *)
Lemma neighbor_tokens_spec (n_states : Z) (row : list Z) (names : list string) :
  neighbor_tokens n_states row = Some names →
  NoDup names ∧
  ∀ key, key ∈ names ↔
         ∃ (i : nat) (v : Z), key = ">" +:+ pretty i ∧ (i < Z.to_nat n_states)%nat ∧
                              row !! i = Some v ∧ 0 < v.
Proof.
  unfold neighbor_tokens, range. intros Hfold.
  apply (foldM_prefix (λ xs names,
           NoDup names ∧
           ∀ key, key ∈ names ↔
                  ∃ (i : nat) (v : Z), key = ">" +:+ pretty i ∧ i ∈ xs ∧
                                       row !! i = Some v ∧ 0 < v)) in Hfold.
  - destruct Hfold as [Hnd Hmem]. split; [done|]. intros key. rewrite Hmem.
    split; intros (i & v & ? & Hi & ? & ?); exists i, v; repeat split; try done.
    + apply elem_of_seq in Hi. lia.
    + apply elem_of_seq. lia.
  - split; [constructor|]. intros key. split; [by intros ?%elem_of_nil|].
    by intros (i & v & _ & ?%elem_of_nil & _).
  - intros xs x ys c c' Hl [Hnd Hmem] Hstep.
    assert (Hx : x ∉ xs).
    { pose proof (NoDup_seq 0 (Z.to_nat n_states)) as Hseq. rewrite Hl in Hseq.
      apply NoDup_app in Hseq as (_ & Hdisj & _). intros Hin.
      apply (Hdisj x Hin). by left. }
    destruct (row !! x) as [v|] eqn:Hv; simpl in Hstep; [|done].
    injection Hstep as <-. case_decide as Hpos.
    + split.
      * apply NoDup_app. split; [done|]. split; [|apply NoDup_singleton].
        intros key Hkey ->%list_elem_of_singleton.
        apply Hmem in Hkey as (i & w & Heq & Hi & _).
        apply neighbor_token_inj in Heq. by subst.
      * intros key. rewrite elem_of_app, Hmem, list_elem_of_singleton. split.
        -- intros [(i & w & ? & Hi & ? & ?) | Hkx]; [|subst key].
           ++ exists i, w. repeat split; try done. apply elem_of_app. by left.
           ++ exists x, v. repeat split; try done. apply elem_of_app. right. by left.
        -- intros (i & w & -> & Hi & Hw & ?). apply elem_of_app in Hi as [Hi|Hi].
           ++ left. by exists i, w.
           ++ right. apply list_elem_of_singleton in Hi. by subst.
    + split; [done|]. intros key. rewrite Hmem. split.
      * intros (i & w & ? & Hi & ? & ?). exists i, w. repeat split; try done.
        apply elem_of_app. by left.
      * intros (i & w & -> & Hi & Hw & ?). apply elem_of_app in Hi as [Hi|Hi].
        -- by exists i, w.
        -- apply list_elem_of_singleton in Hi. subst. rewrite Hv in Hw.
           injection Hw as <-. done.
Qed.

Section AllProbsFacts.
Context {R : Type} `{Scalar R} {Graph : Type}.
Variable softmax : Tensor1 R → Tensor1 R.
Variable extract_adj_matrix : Graph → list (list Z).
Variable py_int : string → option Z.

(** A loop whose body only reads the cache. *)
Lemma lens_fold_reads {A B} (l : list A) (body : B → A → LensM R B)
    (g : B → A → option B) (cache : gmap string (Tensor3 R)) (b : B) :
  (∀ c x, body c x cache = (g c x, cache)) →
  lens_fold l body b cache = (foldM g l b, cache).
Proof.
  intros Hbody. revert b. induction l as [|x l IH]; intros b; [done|].
  cbn [lens_fold foldM]. unfold lens_bind. rewrite Hbody.
  destruct (g b x) as [b'|]; [|done]. cbn [mbind option_bind]. apply IH.
Qed.

(** With pairwise distinct names, one turn appends one probability to
    every list. *)
Lemma append_key_probs_lookup (dataset : Dataset Graph) (out_proj : Tensor2 R)
    (position : Z) (names : list string) (probs probs' : gmap string (list R)) :
  NoDup names →
  append_key_probs dataset out_proj position names probs = Some probs' →
  ∀ key,
    (key ∈ names → ∃ acc p, probs !! key = Some acc ∧ probs' !! key = Some (acc ++ [p])) ∧
    (key ∉ names → probs' !! key = probs !! key).
Proof.
  unfold append_key_probs. intros Hnd. revert probs.
  induction Hnd as [|k names Hk Hnd IH]; intros probs Happ key; simpl in Happ.
  { injection Happ as <-. split; [by intros ?%elem_of_nil|done]. }
  destruct (tokens2idx dataset k) as [idx|]; simpl in Happ; [|done].
  destruct (py_index out_proj position) as [row|]; simpl in Happ; [|done].
  destruct (py_index row idx) as [p|]; simpl in Happ; [|done].
  destruct (probs !! k) as [acc|] eqn:Hacc; simpl in Happ; [|done].
  destruct (IH _ Happ key) as [Hin Hout]. split.
  - intros [->|Hkey]%elem_of_cons.
    + exists acc, p. rewrite (Hout Hk). by rewrite lookup_insert_eq.
    + destruct (Hin Hkey) as (acc' & p' & Ha & Ha').
      exists acc', p'. rewrite lookup_insert_ne in Ha by (intros ->; done). done.
  - intros Hnin. rewrite Hout by (intros ?; apply Hnin; by right).
    apply lookup_insert_ne. intros ->. apply Hnin. by left.
Qed.

Lemma all_probs_layer_reads (model : HookedTransformer R) (dataset : Dataset Graph)
    lenses (position : Z) (names : list string) (probs : gmap string (list R))
    (layer : nat) (cache : gmap string (Tensor3 R)) :
  all_probs_layer softmax model dataset lenses position names probs layer cache
  = (act ← cache !! lens_act_name (n_layers model) layer;
     res_stream ← py_index act 0;
     out_proj ← lens_project model lenses (lens_act_name (n_layers model) layer) res_stream;
     append_key_probs dataset (softmax <$> out_proj) position names probs,
     cache).
Proof.
  unfold all_probs_layer, lens_bind, cache_get, lens_lift.
  destruct (cache !! _) as [act|]; [|done]. cbn [mbind option_bind].
  destruct (py_index act 0) as [res|]; [|done]. cbn [mbind option_bind].
  by destruct (lens_project _ _ _ _).
Qed.

(** X20. [logit_lens_all_probs], labels and cache given, leaves the
    cache as it was and returns one list per neighbour of the current
    node: the keys are the tokens [>i] of the states [i] below
    [n_states] with a positive entry in the adjacency row of the node
    read off the current label, and every list has one probability per
    layer. *)
Theorem all_probs_spec (pred : Graph) (model : HookedTransformer R)
    (dataset : Dataset Graph) (lenses : option (gmap string (Tensor2 R)))
    (labels : list string) (position : Z) (cache cache' : gmap string (Tensor3 R))
    (probs : gmap string (list R)) :
  all_probs softmax extract_adj_matrix py_int pred model dataset lenses labels position
    cache = (Some probs, cache') →
  cache' = cache ∧
  ∃ (current : string) (current_node : Z) (row : list Z),
    py_index labels position = Some current ∧
    py_int (after_last_gt current) = Some current_node ∧
    py_index (extract_adj_matrix pred) current_node = Some row ∧
    (∀ key, is_Some (probs !! key) ↔
            ∃ (i : nat) (v : Z), key = ">" +:+ pretty i ∧
                                 (i < Z.to_nat (n_states dataset))%nat ∧
                                 row !! i = Some v ∧ 0 < v) ∧
    ∀ key ps, probs !! key = Some ps → length ps = n_layers model.
Proof.
  unfold all_probs, lens_bind, lens_lift.
  destruct (py_index labels position) as [current|] eqn:Hcur; [|done].
  destruct (py_int (after_last_gt current)) as [node|] eqn:Hnode; [|done].
  destruct (py_index (extract_adj_matrix pred) node) as [row|] eqn:Hrow; [|done].
  destruct (neighbor_tokens (n_states dataset) row) as [names|] eqn:Hnames; [|done].
  destruct (py_index labels (position + 1)) as [tok|]; [|done].
  destruct (tokens2idx dataset tok) as [idx|]; [|done].
  rewrite (lens_fold_reads _ _
             (λ probs layer,
                (all_probs_layer softmax model dataset lenses position names probs
                   layer cache).1))
    by (intros c x; by rewrite all_probs_layer_reads).
  intros [= Hfold <-]. split; [done|].
  exists current, node, row.
  split; [done|]. split; [done|]. split; [done|].
  apply neighbor_tokens_spec in Hnames as [Hnd Hmem].
  set (Q := λ (xs : list nat) (probs : gmap string (list R)),
         ∀ key, (key ∈ names → ∃ ps, probs !! key = Some ps ∧ length ps = length xs) ∧
                (key ∉ names → probs !! key = None)).
  assert (Hinv : Q (seq 1 (n_layers model)) probs).
  { refine (foldM_rel Q _ _ _ _ _ _ Hfold); unfold Q.
    - intros key. split.
      + intros Hkey. exists []. by rewrite lookup_empty_lists.
      + intros Hkey. by apply lookup_empty_lists_None.
    - intros xs layer c c' Hinv Hstep key.
      rewrite all_probs_layer_reads in Hstep. cbn [fst] in Hstep.
      destruct (cache !! _) as [act|]; simpl in Hstep; [|done].
      destruct (py_index act 0) as [res|]; simpl in Hstep; [|done].
      destruct (lens_project _ _ _ _) as [out|]; simpl in Hstep; [|done].
      destruct (append_key_probs_lookup _ _ _ _ _ _ Hnd Hstep key) as [Hin Hout].
      destruct (Hinv key) as [Hin0 Hout0]. split.
      + intros Hkey. destruct (Hin Hkey) as (acc & p & Hacc & ->).
        destruct (Hin0 Hkey) as (ps & Hps & Hlen). rewrite Hacc in Hps.
        injection Hps as <-. eexists. split; [done|].
        rewrite !length_app. simpl. lia.
      + intros Hkey. rewrite (Hout Hkey). by apply Hout0. }
  unfold Q in Hinv. clear Hfold.
  assert (Hdom : ∀ key, is_Some (probs !! key) ↔ key ∈ names).
  { intros key. destruct (Hinv key) as [Hin Hout]. split.
    - intros [ps Hps]. destruct (decide (key ∈ names)) as [|Hnin]; [done|].
      by rewrite (Hout Hnin) in Hps.
    - intros Hkey. destruct (Hin Hkey) as (ps & -> & _). by eexists. }
  split.
  - intros key. by rewrite Hdom, Hmem.
  - intros key ps Hps. destruct (Hinv key) as [Hin _].
    destruct (Hin (proj1 (Hdom key) (mk_is_Some _ _ Hps))) as (ps' & Hps' & Hlen).
    rewrite Hps in Hps'. injection Hps' as <-. by rewrite Hlen, length_seq.
Qed.

End AllProbsFacts.

Lemma all_probs_spec_witness :
  let probs : gmap string (list Q) := {[ ">0" := [1 # 4; 9 # 32]%Q ]} in
  toy_example.2 = toy_example.2 ∧
  ∃ (current : string) (current_node : Z) (row : list Z),
    py_index ["0>1"; ">0"] 0 = Some current ∧
    toy_py_int (after_last_gt current) = Some current_node ∧
    py_index (toy_extract_adj_matrix [0]) current_node = Some row ∧
    (∀ key, is_Some (probs !! key) ↔
            ∃ (i : nat) (v : Z), key = ">" +:+ pretty i ∧
                                 (i < Z.to_nat (n_states toy_walk_dataset))%nat ∧
                                 row !! i = Some v ∧ 0 < v) ∧
    ∀ key ps, probs !! key = Some ps → length ps = n_layers toy_model.
Proof.
  apply (all_probs_spec toy_softmax toy_extract_adj_matrix toy_py_int [0] toy_model
           toy_walk_dataset None ["0>1"; ">0"] 0 toy_example.2 toy_example.2).
  vm_compute; reflexivity.
Defined.

(** A label that does not end in a state name raises: [int] fails on it. *)
Example toy_label_without_state_raises :
  (all_probs toy_softmax toy_extract_adj_matrix toy_py_int [0] toy_model
     toy_walk_dataset None [","; ">0"] 0 toy_example.2).1 = None.
Proof. vm_compute; reflexivity. Qed.
